(** * Hybrid retrieval, LLM reranking and novelty detection

    A shallow embedding of the retrieval-and-decision core of the football
    news pipeline:

      - [src/retrieval/hybrid.py]   : [HybridRetriever] (RRF fusion),
      - [src/retrieval/reranker.py] : [LLMReranker],
      - [src/novelty/detector.py]   : [NoveltyDetector],
      - [src/retrieval/models.py], [src/novelty/models.py], [src/db/models.py],
        [src/config/settings.py]    : the records and the configuration,
      - [main.py]                   : [get_top_k_similar],
      - [src/services/embedding.py] : [OpenRouterEmbeddingService.embed_batch],
      - [src/ingestion/pipeline.py] : [IngestionPipeline.ingest_csv], with
        [ArticleRepository.insert_batch] of [src/db/repository.py].

    Conventions of the embedding.
      - Python [int] is [Z]; Python [float] is idealised as an exact rational
        [Q] (comparison and addition are the exact ones, equality of scores is
        [Qeq]); the conversion of an [int] to a [float] raises where Python
        raises, from [2^1024 - 2^970] on in absolute value; [str] is
        [string].
      - A Python [dict] keyed by article id is an association list in insertion
        order, because the order of [scores.keys()] decides ties in [sorted].
      - A call that may raise returns a [result]; the external collaborators
        (embedding provider, article store, LLM) are oracles that see the log
        of all calls made so far, and every call is appended to that log. *)

From Stdlib Require Import List ZArith QArith String DecimalString Bool Lia Lqa.
From Stdlib Require Import Sorted Permutation.
Import ListNotations.
Local Open Scope list_scope.
Local Open Scope string_scope.
Local Open Scope Z_scope.

(** ** Exceptions and results *)

Inductive ExcKind : Type :=
| ZeroDivisionError
| KeyError
| IndexError
| ValueError
| OverflowError
| ValidationError
| OtherError.

(** A raised exception: its class and [str(e)]. *)
Record PyExc : Type := mkExc { exc_kind : ExcKind; exc_str : string }.

Inductive result (A : Type) : Type :=
| Ok (a : A)
| Raise (e : PyExc).
Arguments Ok {A} a.
Arguments Raise {A} e.

(** ** Configuration ([src/config/settings.py]) *)

Module Settings.
Record t : Type := mk {
  top_k : Z;
  rrf_k : Z;
  reranker_relevance_threshold : Q;
  novelty_confidence_threshold : Q
}.
End Settings.

Definition settings : Settings.t :=
  Settings.mk 5 60 (5 # 10) (6 # 10).

(** ** Records ([src/db/models.py], [src/retrieval/models.py]) *)

Module ArticleRecord.
Record t : Type := mk { id : Z; text : string; score : Q }.
End ArticleRecord.

Module RetrievalResult.
Record t : Type := mk {
  id : Z;
  text : string;
  rrf_score : Q;
  semantic_rank : option Z;
  keyword_rank : option Z;
  semantic_score : option Q;
  keyword_score : option Q
}.
End RetrievalResult.

(** ** Insertion-ordered dictionaries keyed by article id *)

Section Dict.
Context {V : Type}.

Definition dict : Type := list (Z * V).

Fixpoint dict_get (d : dict) (k : Z) : option V :=
  match d with
  | [] => None
  | (k', v) :: d' => if k' =? k then Some v else dict_get d' k
  end.

(** [d[k] = v]: an existing key keeps its position, a new key goes last. *)
Fixpoint dict_set (d : dict) (k : Z) (v : V) : dict :=
  match d with
  | [] => [(k, v)]
  | (k', v') :: d' =>
      if k' =? k then (k, v) :: d' else (k', v') :: dict_set d' k v
  end.

Definition dict_keys (d : dict) : list Z := map fst d.
End Dict.
Arguments dict V : clear implicits.

(** [scores] is a [defaultdict(float)]: a missing key reads as [0.0]. *)
Definition scores_get (scores : dict Q) (k : Z) : Q :=
  match dict_get scores k with
  | Some v => v
  | None => 0%Q
  end.

(** The inner dictionaries of [meta]. *)
Record Meta : Type := mkMeta {
  m_text : string;
  m_semantic_rank : option Z;
  m_semantic_score : option Q;
  m_keyword_rank : option Z;
  m_keyword_score : option Q
}.

Inductive Modality : Type := Semantic | Keyword.

(** [meta.setdefault(a.id, {"text": a.text})] followed by the two item
    assignments of the loop body. *)
Definition meta_record (which : Modality) (meta : dict Meta)
    (a : ArticleRecord.t) (rank : Z) : dict Meta :=
  let m :=
    match dict_get meta (ArticleRecord.id a) with
    | Some m => m
    | None => mkMeta (ArticleRecord.text a) None None None None
    end in
  let m' :=
    match which with
    | Semantic =>
        mkMeta (m_text m) (Some rank) (Some (ArticleRecord.score a))
               (m_keyword_rank m) (m_keyword_score m)
    | Keyword =>
        mkMeta (m_text m) (m_semantic_rank m) (m_semantic_score m)
               (Some rank) (Some (ArticleRecord.score a))
    end in
  dict_set meta (ArticleRecord.id a) m'.

(** ** RRF fusion ([HybridRetriever._fuse_rrf]) *)

(** The least absolute value of an integer that [float] refuses to convert:
    the integers from [2^1024 - 2^970] on round to [2^1024]. *)
Definition float_limit : Z := 2 ^ 1024 - 2 ^ 970.

(** [1.0 / d] for an integer [d]: [d] is first converted to a float, then the
    division checks for zero. *)
Definition reciprocal (d : Z) : result Q :=
  if d =? 0 then Raise (mkExc ZeroDivisionError "float division by zero")
  else if float_limit <=? Z.abs d
  then Raise (mkExc OverflowError "int too large to convert to float")
  else Ok (1 / inject_Z d)%Q.

(** One [for rank, a in enumerate(l, start=rank)] loop of the fusion. *)
Fixpoint accumulate (which : Modality) (rrf_k : Z) (rank : Z)
    (l : list ArticleRecord.t) (scores : dict Q) (meta : dict Meta)
  : result (dict Q * dict Meta) :=
  match l with
  | [] => Ok (scores, meta)
  | a :: rest =>
      match reciprocal (rrf_k + rank) with
      | Raise e => Raise e
      | Ok c =>
          let scores' :=
            dict_set scores (ArticleRecord.id a)
                     (scores_get scores (ArticleRecord.id a) + c)%Q in
          accumulate which rrf_k (rank + 1) rest scores'
                     (meta_record which meta a rank)
      end
  end.

Definition Qltb (x y : Q) : bool := negb (Qle_bool y x).

(** [sorted(l, key=key, reverse=True)] and [l.sort(key=key, reverse=True)]:
    a stable sort, largest key first; elements with equal keys keep their
    relative order. *)
Section Sort.
Context {A : Type} (key : A -> Q).

Fixpoint insert_desc (x : A) (l : list A) : list A :=
  match l with
  | [] => [x]
  | y :: l' =>
      if Qltb (key x) (key y) then y :: insert_desc x l' else x :: l
  end.

Definition sorted_desc (l : list A) : list A :=
  fold_right insert_desc [] l.
End Sort.

(** The slice [l[:n]]; a negative [n] counts from the end. *)
Definition slice_to {A : Type} (n : Z) (l : list A) : list A :=
  if n <? 0 then firstn (Z.to_nat (Z.of_nat (List.length l) + n)) l
  else firstn (Z.to_nat n) l.

(** The list comprehension that builds the [RetrievalResult]s. *)
Fixpoint build_results (scores : dict Q) (meta : dict Meta) (ids : list Z)
  : result (list RetrievalResult.t) :=
  match ids with
  | [] => Ok []
  | did :: rest =>
      match dict_get meta did with
      | None => Raise (mkExc KeyError "meta")
      | Some m =>
          match build_results scores meta rest with
          | Raise e => Raise e
          | Ok rs =>
              Ok (RetrievalResult.mk did (m_text m) (scores_get scores did)
                    (m_semantic_rank m) (m_keyword_rank m)
                    (m_semantic_score m) (m_keyword_score m) :: rs)
          end
      end
  end.

Definition _fuse_rrf (rrf_k : Z) (semantic keyword : list ArticleRecord.t)
    (top_k : Z) : result (list RetrievalResult.t) :=
  match accumulate Semantic rrf_k 1 semantic [] [] with
  | Raise e => Raise e
  | Ok (scores, meta) =>
      match accumulate Keyword rrf_k 1 keyword scores meta with
      | Raise e => Raise e
      | Ok (scores, meta) =>
          let sorted_ids :=
            slice_to top_k (sorted_desc (scores_get scores) (dict_keys scores)) in
          build_results scores meta sorted_ids
      end
  end.

Definition art (i : Z) (t : string) : ArticleRecord.t :=
  ArticleRecord.mk i t 0.


(** ** Records of the reranker and of the novelty detector *)

Definition in_unit_interval (x : Q) : bool := Qle_bool 0 x && Qle_bool x 1.

Module RerankerResponse.
Record t : Type := mk { relevance : Q; reason : string }.

(** [relevance: float = Field(ge=0.0, le=1.0)]. *)
Definition model_validate (raw : t) : result t :=
  if in_unit_interval (relevance raw) then Ok raw
  else Raise (mkExc ValidationError "relevance").
End RerankerResponse.

Module RankedResult.
Record t : Type := mk {
  id : Z;
  text : string;
  rrf_score : Q;
  relevance_score : Q;
  relevance_reason : string;
  semantic_rank : option Z;
  keyword_rank : option Z
}.

(** The constructor call [RankedResult(...)]:
    [relevance_score: float = Field(ge=0.0, le=1.0)]. *)
Definition new (id : Z) (text : string) (rrf_score relevance_score : Q)
    (relevance_reason : string) (semantic_rank keyword_rank : option Z)
  : result t :=
  if in_unit_interval relevance_score
  then Ok (mk id text rrf_score relevance_score relevance_reason
              semantic_rank keyword_rank)
  else Raise (mkExc ValidationError "relevance_score").
End RankedResult.

Inductive Decision : Type := PUBLISH | SKIP | REVIEW.

(** [Decision(value)]: look an enumeration member up by its value. *)
Definition Decision_of_string (s : string) : result Decision :=
  if String.eqb s "PUBLISH" then Ok PUBLISH
  else if String.eqb s "SKIP" then Ok SKIP
  else if String.eqb s "REVIEW" then Ok REVIEW
  else Raise (mkExc ValueError (s ++ " is not a valid Decision")).

Module NoveltyResponse.
Record t : Type := mk {
  decision : string;
  confidence : Q;
  reasoning : string;
  new_information : list string;
  status_change_detected : bool
}.

(** [decision: str = Field(..., pattern="^(PUBLISH|SKIP)$")] and
    [confidence: float = Field(ge=0.0, le=1.0)]. *)
Definition model_validate (raw : t) : result t :=
  if negb (String.eqb (decision raw) "PUBLISH"
           || String.eqb (decision raw) "SKIP")
  then Raise (mkExc ValidationError "decision")
  else if in_unit_interval (confidence raw) then Ok raw
  else Raise (mkExc ValidationError "confidence").
End NoveltyResponse.

Module NoveltyResult.
Record t : Type := mk {
  incoming_text : string;
  decision : Decision;
  confidence : Q;
  reasoning : string;
  new_information : list string;
  status_change_detected : bool;
  top_match_text : option string;
  top_match_similarity : option Q;
  top_match_id : option Z;
  relevant_matches_count : Z
}.

(** The constructor call [NoveltyResult(...)]:
    [confidence: float = Field(ge=0.0, le=1.0)]. *)
Definition new (incoming_text : string) (decision : Decision)
    (confidence : Q) (reasoning : string) (new_information : list string)
    (status_change_detected : bool) (top_match_text : option string)
    (top_match_similarity : option Q) (top_match_id : option Z)
    (relevant_matches_count : Z) : result t :=
  if in_unit_interval confidence
  then Ok (mk incoming_text decision confidence reasoning new_information
              status_change_detected top_match_text top_match_similarity
              top_match_id relevant_matches_count)
  else Raise (mkExc ValidationError "confidence").
End NoveltyResult.

(** ** The external collaborators *)

(** Every call that leaves the process. *)
Inductive Call : Type :=
| CallEmbed (text : string)
| CallSearchSemantic (embedding : list Q) (limit : Z)
| CallSearchKeyword (query : string) (limit : Z)
| CallCommit
| CallRollback
| CallClose
| CallReranker (prompt : string)
| CallNovelty (prompt : string) (system : string).

(** What [LLMClient.call_structured] can get back, before the range and
    pattern checks of the schema. *)
Inductive LLMReply (A : Type) : Type :=
| TransportError (e : PyExc)
| InvalidJSON (detail : string)
| IllTyped (detail : string)
| Parsed (raw : A).
Arguments TransportError {A} e.
Arguments InvalidJSON {A} detail.
Arguments IllTyped {A} detail.
Arguments Parsed {A} raw.

(** The behaviour of the collaborators: each answer may depend on the whole
    log of earlier calls. [commit], [rollback] and [close] are those of the
    database session, and each of them may raise. *)
Record World : Type := mkWorld {
  embed : list Call -> string -> result (list Q);
  search_semantic : list Call -> list Q -> Z -> result (list ArticleRecord.t);
  search_keyword : list Call -> string -> Z -> result (list ArticleRecord.t);
  commit : list Call -> result unit;
  rollback : list Call -> result unit;
  close : list Call -> result unit;
  llm_reranker : list Call -> string -> LLMReply RerankerResponse.t;
  llm_novelty : list Call -> string -> string -> LLMReply NoveltyResponse.t
}.

(** ** Computations: a call log threaded through code that may raise *)

Definition M (A : Type) : Type := list Call -> result A * list Call.

Definition ret {A : Type} (a : A) : M A := fun log => (Ok a, log).

Definition lift {A : Type} (r : result A) : M A := fun log => (r, log).

Definition bind {A B : Type} (m : M A) (f : A -> M B) : M B :=
  fun log =>
    match m log with
    | (Ok a, log') => f a log'
    | (Raise e, log') => (Raise e, log')
    end.

(** [try: m  except Exception as e: h e]. *)
Definition try_except {A : Type} (m : M A) (h : PyExc -> M A) : M A :=
  fun log =>
    match m log with
    | (Ok a, log') => (Ok a, log')
    | (Raise e, log') => h e log'
    end.

Definition call {A : Type} (c : Call) (answer : list Call -> result A) : M A :=
  fun log => (answer log, (log ++ [c])%list).

Declare Scope monad_scope.
Delimit Scope monad_scope with monad.
Notation "x <- m ;; k" := (bind m (fun x => k))
  (at level 61, m at next level, right associativity) : monad_scope.
Notation "' p <- m ;; k" := (bind m (fun p => k))
  (at level 61, p pattern, m at next level, right associativity) : monad_scope.
Local Open Scope monad_scope.

(** ** [LLMClient.call_structured] ([src/services/llm.py]) *)

Definition structured {A : Type} (validate : A -> result A)
    (reply : LLMReply A) : result A :=
  match reply with
  | TransportError e => Raise e
  | InvalidJSON detail =>
      Raise (mkExc ValueError ("LLM returned invalid JSON: " ++ detail))
  | IllTyped detail => Raise (mkExc ValidationError detail)
  | Parsed raw => validate raw
  end.

Definition call_structured_reranker (w : World) (prompt : string)
  : M RerankerResponse.t :=
  call (CallReranker prompt)
       (fun log => structured RerankerResponse.model_validate
                     (llm_reranker w log prompt)).

Definition call_structured_novelty (w : World) (prompt system : string)
  : M NoveltyResponse.t :=
  call (CallNovelty prompt system)
       (fun log => structured NoveltyResponse.model_validate
                     (llm_novelty w log prompt system)).

(** ** Prompts ([src/retrieval/prompts.py], [src/novelty/prompts.py]) *)

Definition nl : string := String (Ascii.ascii_of_nat 10) EmptyString.
Definition dq : string := String (Ascii.ascii_of_nat 34) EmptyString.

(** [sep.join(parts)]. *)
Fixpoint join (sep : string) (parts : list string) : string :=
  match parts with
  | [] => EmptyString
  | [p] => p
  | p :: rest => p ++ sep ++ join sep rest
  end.

(** [RERANKER_PROMPT.format(query=query, candidate=candidate)]. *)
Definition RERANKER_PROMPT (query candidate : string) : string :=
  join nl [
    "You are a relevance assessor for a football article/news retrieval system.";
    EmptyString;
    "Rate how relevant the CANDIDATE article is to the QUERY article on a scale of 0.0 to 1.0:";
    EmptyString;
    "- 1.0: Same story, same entities, directly comparable";
    "- 0.7-0.9: Same topic/player, closely related context";
    "- 0.4-0.6: Some overlap (same club, same transfer window) but different story";
    "- 0.1-0.3: Loosely related (same league, same position)";
    "- 0.0: Completely unrelated";
    EmptyString;
    "QUERY:";
    query;
    EmptyString;
    "CANDIDATE:";
    candidate;
    EmptyString;
    "Respond in JSON:";
    "{" ++ dq ++ "relevance" ++ dq ++ ": 0.0-1.0, " ++ dq ++ "reason" ++ dq
        ++ ": " ++ dq ++ "brief explanation" ++ dq ++ "}"
  ].

Definition NOVELTY_SYSTEM_PROMPT : string :=
  "You are an expert football news editor. Decide whether an incoming article "
  ++ "should be PUBLISHED or SKIPPED based on whether it adds meaningful new "
  ++ "information compared to existing coverage.".

Definition quoted (s : string) : string := dq ++ s ++ dq.

(** [NOVELTY_ASSESSMENT_PROMPT.format(existing_articles=..., incoming_article=...)]. *)
Definition NOVELTY_ASSESSMENT_PROMPT (existing_articles incoming_article : string)
  : string :=
  join nl [
    "Compare the INCOMING article against EXISTING coverage.";
    EmptyString;
    "PUBLISH if the incoming article contains ANY of:";
    "1. Status change: situation progressed (" ++ quoted "pursuing" ++ " -> "
      ++ quoted "finalized" ++ ", " ++ quoted "in talks" ++ " -> "
      ++ quoted "signed" ++ ")";
    "2. New financial details: fee confirmed, new figures, bonus structures";
    "3. New parties: additional clubs, agents, intermediaries entering the story";
    "4. Timeline updates: new deadlines, medical results, announcement dates";
    "5. Contradictions: disputes or corrects existing reporting";
    "6. Significant new context: why a deal collapsed, internal dynamics";
    EmptyString;
    "SKIP if:";
    "- Same facts reworded";
    "- Minor phrasing differences without new claims";
    "- Same quotes or stats reordered";
    EmptyString;
    "EXISTING COVERAGE:";
    existing_articles;
    EmptyString;
    "INCOMING ARTICLE:";
    incoming_article;
    EmptyString;
    "Respond in JSON:";
    "{";
    "    " ++ quoted "decision" ++ ": " ++ quoted "PUBLISH" ++ " or "
      ++ quoted "SKIP" ++ ",";
    "    " ++ quoted "confidence" ++ ": 0.0-1.0,";
    "    " ++ quoted "reasoning" ++ ": " ++ quoted "2-3 sentence explanation" ++ ",";
    "    " ++ quoted "new_information" ++ ": ["
      ++ quoted "specific new facts if PUBLISH, empty list if SKIP" ++ "],";
    "    " ++ quoted "status_change_detected" ++ ": true/false";
    "}"
  ].

(** ** [HybridRetriever.retrieve] *)

(** [except Exception: session.rollback(); raise]: an exception of the
    rollback takes the place of the one that was being propagated. *)
Definition rolled_back {A : Type} (w : World) (e : PyExc) : M A :=
  fun log =>
    (match rollback w log with
     | Ok _ => Raise e
     | Raise e' => Raise e'
     end, (log ++ [CallRollback])%list).

(** [finally: session.close()]: an exception of the close takes the place of
    the outcome so far. *)
Definition closed {A : Type} (w : World) (r : result A) : M A :=
  fun log =>
    (match close w log with
     | Ok _ => r
     | Raise e' => Raise e'
     end, (log ++ [CallClose])%list).

(** [with get_session() as session: body] ([src/db/connection.py]): commit
    after the body, roll back and re-raise on an exception, always close. *)
Definition with_session {A : Type} (w : World) (body : M A) : M A :=
  fun log =>
    match (x <- body ;; _ <- call CallCommit (commit w) ;; ret x) log with
    | (Ok a, log') => closed w (Ok a) log'
    | (Raise e, log') =>
        match rolled_back w e log' with
        | (r, log'') => closed w r log''
        end
    end.

(** [top_k or settings.top_k]. *)
Definition top_k_or (cfg : Settings.t) (top_k : option Z) : Z :=
  match top_k with
  | None => Settings.top_k cfg
  | Some n => if n =? 0 then Settings.top_k cfg else n
  end.

Definition retrieve (w : World) (cfg : Settings.t) (query_text : string)
    (top_k : option Z) : M (list RetrievalResult.t) :=
  let top_k := top_k_or cfg top_k in
  query_embedding <- call (CallEmbed query_text)
                          (fun log => embed w log query_text) ;;
  '(semantic, keyword) <-
     with_session w
       (semantic <- call (CallSearchSemantic query_embedding top_k)
                      (fun log => search_semantic w log query_embedding top_k) ;;
        keyword <- call (CallSearchKeyword query_text top_k)
                     (fun log => search_keyword w log query_text top_k) ;;
        ret (semantic, keyword)) ;;
  lift (_fuse_rrf (Settings.rrf_k cfg) semantic keyword top_k).

(** ** [LLMReranker.rerank] *)

Definition reranker_fallback : string := "reranker_fallback".

(** The [try]/[except] of one loop iteration; the result is the new value of
    the list [ranked]. *)
Definition rerank_candidate (w : World) (threshold : Q) (query_text : string)
    (candidate : RetrievalResult.t) (ranked : list RankedResult.t)
  : M (list RankedResult.t) :=
  let prompt := RERANKER_PROMPT query_text (RetrievalResult.text candidate) in
  try_except
    (response <- call_structured_reranker w prompt ;;
     if Qle_bool threshold (RerankerResponse.relevance response)
     then
       r <- lift (RankedResult.new
                    (RetrievalResult.id candidate)
                    (RetrievalResult.text candidate)
                    (RetrievalResult.rrf_score candidate)
                    (RerankerResponse.relevance response)
                    (RerankerResponse.reason response)
                    (RetrievalResult.semantic_rank candidate)
                    (RetrievalResult.keyword_rank candidate)) ;;
       ret (ranked ++ [r])%list
     else ret ranked)
    (fun e =>
       r <- lift (RankedResult.new
                    (RetrievalResult.id candidate)
                    (RetrievalResult.text candidate)
                    (RetrievalResult.rrf_score candidate)
                    (RetrievalResult.rrf_score candidate)
                    reranker_fallback
                    (RetrievalResult.semantic_rank candidate)
                    (RetrievalResult.keyword_rank candidate)) ;;
       ret (ranked ++ [r])%list).

Fixpoint rerank_loop (w : World) (threshold : Q) (query_text : string)
    (candidates : list RetrievalResult.t) (ranked : list RankedResult.t)
  : M (list RankedResult.t) :=
  match candidates with
  | [] => ret ranked
  | candidate :: rest =>
      ranked' <- rerank_candidate w threshold query_text candidate ranked ;;
      rerank_loop w threshold query_text rest ranked'
  end.

Definition rerank (w : World) (cfg : Settings.t) (query_text : string)
    (candidates : list RetrievalResult.t) : M (list RankedResult.t) :=
  ranked <- rerank_loop w (Settings.reranker_relevance_threshold cfg)
              query_text candidates [] ;;
  ret (sorted_desc RankedResult.relevance_score ranked).

(** ** [NoveltyDetector] *)

Definition string_of_Z (n : Z) : string :=
  DecimalString.NilZero.string_of_int (Z.to_int n).

(** [f"[Article {i+1}]:\n{m.text}" for i, m in enumerate(relevant_matches)],
    with [i] the index of the first element. *)
Fixpoint format_existing (i : Z) (relevant_matches : list RankedResult.t)
  : list string :=
  match relevant_matches with
  | [] => []
  | m :: rest =>
      ("[Article " ++ string_of_Z (i + 1) ++ "]:" ++ nl ++ RankedResult.text m)
        :: format_existing (i + 1) rest
  end.

Definition low_confidence_marker : string :=
  "[LOW CONFIDENCE — FLAGGED FOR REVIEW] ".

Definition assessment_failed (e : PyExc) : string :=
  "Assessment failed: " ++ exc_str e ++ ". Flagged for manual review.".

Definition _assess_novelty (w : World) (cfg : Settings.t)
    (incoming_text : string) (relevant_matches : list RankedResult.t)
  : M NoveltyResult.t :=
  let existing_formatted :=
    join (nl ++ nl ++ "---" ++ nl ++ nl) (format_existing 0 relevant_matches) in
  let prompt := NOVELTY_ASSESSMENT_PROMPT existing_formatted incoming_text in
  try_except
    (response <- call_structured_novelty w prompt NOVELTY_SYSTEM_PROMPT ;;
     '(decision, reasoning) <-
        (if Qltb (NoveltyResponse.confidence response)
                 (Settings.novelty_confidence_threshold cfg)
         then ret (REVIEW,
                   low_confidence_marker ++ NoveltyResponse.reasoning response)
         else
           decision <- lift (Decision_of_string
                               (NoveltyResponse.decision response)) ;;
           ret (decision, NoveltyResponse.reasoning response)) ;;
     top <- lift (match relevant_matches with
                  | top :: _ => Ok top
                  | [] => Raise (mkExc IndexError "list index out of range")
                  end) ;;
     lift (NoveltyResult.new
             incoming_text decision (NoveltyResponse.confidence response)
             reasoning (NoveltyResponse.new_information response)
             (NoveltyResponse.status_change_detected response)
             (Some (RankedResult.text top))
             (Some (RankedResult.relevance_score top))
             (Some (RankedResult.id top))
             (Z.of_nat (List.length relevant_matches))))
    (fun e =>
       lift (NoveltyResult.new
               incoming_text REVIEW 0 (assessment_failed e) [] false
               (option_map RankedResult.text (hd_error relevant_matches))
               None
               (option_map RankedResult.id (hd_error relevant_matches))
               (Z.of_nat (List.length relevant_matches)))).

Definition no_existing_articles : string :=
  "No existing articles in the database.".

Definition new_topic : string :=
  "Retrieved articles are not about the same story. New topic.".

Definition assess (w : World) (cfg : Settings.t) (incoming_text : string)
  : M NoveltyResult.t :=
  candidates <- retrieve w cfg incoming_text None ;;
  match candidates with
  | [] =>
      lift (NoveltyResult.new incoming_text PUBLISH (95 # 100)
              no_existing_articles [] false None None None 0)
  | _ :: _ =>
      relevant <- rerank w cfg incoming_text candidates ;;
      match relevant with
      | [] =>
          lift (NoveltyResult.new incoming_text PUBLISH (90 # 100)
                  new_topic [] false None None None 0)
      | _ :: _ => _assess_novelty w cfg incoming_text relevant
      end
  end.

(** * Specification vocabulary *)

(** The keys after [d[k] = v]: unchanged if [k] was there, else [k] last. *)
Fixpoint keys_add (ks : list Z) (k : Z) : list Z :=
  match ks with
  | [] => [k]
  | k0 :: ks' => if k0 =? k then ks else k0 :: keys_add ks' k
  end.

(** The 1-based position of [id] in a ranked list whose first element has
    rank [rank]; [None] if the id is missing from the list. *)
Fixpoint rank_from (rank : Z) (id : Z) (l : list ArticleRecord.t) : option Z :=
  match l with
  | [] => None
  | a :: rest =>
      if ArticleRecord.id a =? id then Some rank else rank_from (rank + 1) id rest
  end.

Definition rank_in (id : Z) (l : list ArticleRecord.t) : option Z :=
  rank_from 1 id l.

(** What one list contributes to the fused score of an id: [1/(k + rank)],
    or nothing if the id is missing. *)
Definition rrf_term (rrf_k : Z) (rank : option Z) : Q :=
  match rank with
  | Some rank => 1 / inject_Z (rrf_k + rank)
  | None => 0
  end.

(** The sum of [1/(k + rank)] over every position of [l] that holds [id]. *)
Fixpoint contributions (rrf_k rank : Z) (l : list ArticleRecord.t) (id : Z) : Q :=
  match l with
  | [] => 0
  | a :: rest =>
      (if ArticleRecord.id a =? id then 1 / inject_Z (rrf_k + rank) else 0)
      + contributions rrf_k (rank + 1) rest id
  end.

(** [1.0 / d] raises for the integer [d]. *)
Definition bad_denominator (d : Z) : Prop :=
  d = 0 \/ float_limit <= Z.abs d.

(** [e] is what [1.0 / d] raises: a [ZeroDivisionError] for [d = 0], an
    [OverflowError] for a [d] that [float] cannot hold. *)
Definition division_error (d : Z) (e : PyExc) : Prop :=
  (d = 0 /\ exc_kind e = ZeroDivisionError)
  \/ (float_limit <= Z.abs d /\ exc_kind e = OverflowError).

(** [rank] is a rank of the semantic or of the keyword list. *)
Definition rank_of_a_list (semantic keyword : list ArticleRecord.t) (rank : Z)
  : Prop :=
  1 <= rank <= Z.of_nat (List.length semantic)
  \/ 1 <= rank <= Z.of_nat (List.length keyword).

(** The list holds the id at no more than one position. *)
Definition at_most_once (id : Z) (l : list ArticleRecord.t) : Prop :=
  (count_occ Z.eq_dec (map ArticleRecord.id l) id <= 1)%nat.

(** Largest key first: every element is at least every later one. *)
Definition descending {A : Type} (key : A -> Q) (l : list A) : Prop :=
  StronglySorted (fun a b => key b <= key a)%Q l.

(** [needle in haystack] for Python strings. *)
Definition contains (haystack needle : string) : Prop :=
  exists before after, haystack = before ++ needle ++ after.

(** A world in which the store always answers with the same two lists, the
    reranker LLM answers by a function of the prompt and the novelty LLM
    always gives the same reply. *)
Definition fixed_world (semantic keyword : list ArticleRecord.t)
    (reranker : string -> LLMReply RerankerResponse.t)
    (novelty : LLMReply NoveltyResponse.t) : World :=
  mkWorld (fun _ _ => Ok [1%Q])
          (fun _ _ _ => Ok semantic)
          (fun _ _ _ => Ok keyword)
          (fun _ => Ok tt) (fun _ => Ok tt) (fun _ => Ok tt)
          (fun _ prompt => reranker prompt)
          (fun _ _ _ => novelty).

Definition timeout_error : PyExc := mkExc OtherError "Request timed out.".

(** The outcome of [self.llm.call_structured(prompt, RerankerResponse)] for one
    candidate, when the call log is [log]. *)
Definition reranker_outcome (w : World) (log : list Call) (query_text : string)
    (candidate : RetrievalResult.t) : result RerankerResponse.t :=
  structured RerankerResponse.model_validate
    (llm_reranker w log
       (RERANKER_PROMPT query_text (RetrievalResult.text candidate))).

Definition reranker_call (query_text : string) (candidate : RetrievalResult.t)
  : Call :=
  CallReranker (RERANKER_PROMPT query_text (RetrievalResult.text candidate)).

(** The entry appended for a candidate the LLM scored at or above the
    threshold, and the entry appended when its call failed. *)
Definition scored_result (candidate : RetrievalResult.t)
    (response : RerankerResponse.t) : RankedResult.t :=
  RankedResult.mk (RetrievalResult.id candidate) (RetrievalResult.text candidate)
    (RetrievalResult.rrf_score candidate)
    (RerankerResponse.relevance response) (RerankerResponse.reason response)
    (RetrievalResult.semantic_rank candidate)
    (RetrievalResult.keyword_rank candidate).

Definition fallback_result (candidate : RetrievalResult.t) : RankedResult.t :=
  RankedResult.mk (RetrievalResult.id candidate) (RetrievalResult.text candidate)
    (RetrievalResult.rrf_score candidate)
    (RetrievalResult.rrf_score candidate) reranker_fallback
    (RetrievalResult.semantic_rank candidate)
    (RetrievalResult.keyword_rank candidate).

(** An entry of the output is either scored at or above the threshold or the
    fallback of a candidate. *)
Definition entry_ok (threshold : Q) (candidates : list RetrievalResult.t)
    (r : RankedResult.t) : Prop :=
  exists c, In c candidates /\
    ((exists response,
        r = scored_result c response /\
        (threshold <= RerankerResponse.relevance response)%Q)
     \/ r = fallback_result c).

Definition unit_score (candidate : RetrievalResult.t) : Prop :=
  in_unit_interval (RetrievalResult.rrf_score candidate) = true.

(** The prompt of the novelty assessment and the outcome of its structured
    call, when the call log is [log]. *)
Definition novelty_prompt (incoming_text : string)
    (relevant_matches : list RankedResult.t) : string :=
  NOVELTY_ASSESSMENT_PROMPT
    (join (nl ++ nl ++ "---" ++ nl ++ nl) (format_existing 0 relevant_matches))
    incoming_text.

Definition novelty_outcome (w : World) (log : list Call) (incoming_text : string)
    (relevant_matches : list RankedResult.t) : result NoveltyResponse.t :=
  structured NoveltyResponse.model_validate
    (llm_novelty w log (novelty_prompt incoming_text relevant_matches)
       NOVELTY_SYSTEM_PROMPT).

Definition is_novelty_call (c : Call) : bool :=
  match c with
  | CallNovelty _ _ => true
  | _ => false
  end.

(** [assess], started with call log [log], gets the non-empty list
    [relevant] from the reranker (Path C) and has call log [log2] when it
    enters [_assess_novelty]. *)
Definition reaches_path_C (w : World) (cfg : Settings.t) (incoming_text : string)
    (log : list Call) (relevant : list RankedResult.t) (log2 : list Call) : Prop :=
  exists candidates log1,
    retrieve w cfg incoming_text None log = (Ok candidates, log1) /\
    rerank w cfg incoming_text candidates log1 = (Ok relevant, log2) /\
    relevant <> [].

(** A reranker LLM that is down, and the candidate the fusion yields with
    [rrf_k = 0] for an article ranked first in both lists. *)
Definition llm_down : string -> LLMReply RerankerResponse.t :=
  fun _ => TransportError timeout_error.

Definition first_in_both : RetrievalResult.t :=
  RetrievalResult.mk 1 "a" 2 (Some 1) (Some 1) (Some 0%Q) (Some 0%Q).

(** The two results [_assess_novelty] can build: from a valid response and
    the top match, and from the exception of a failed attempt. *)
Definition adopted_decision (response : NoveltyResponse.t) : Decision :=
  match Decision_of_string (NoveltyResponse.decision response) with
  | Ok d => d
  | Raise _ => REVIEW
  end.

Definition success_result (cfg : Settings.t) (incoming_text : string)
    (relevant_matches : list RankedResult.t) (top : RankedResult.t)
    (response : NoveltyResponse.t) : NoveltyResult.t :=
  let low := Qltb (NoveltyResponse.confidence response)
                  (Settings.novelty_confidence_threshold cfg) in
  NoveltyResult.mk incoming_text
    (if low then REVIEW else adopted_decision response)
    (NoveltyResponse.confidence response)
    (if low then low_confidence_marker ++ NoveltyResponse.reasoning response
     else NoveltyResponse.reasoning response)
    (NoveltyResponse.new_information response)
    (NoveltyResponse.status_change_detected response)
    (Some (RankedResult.text top))
    (Some (RankedResult.relevance_score top))
    (Some (RankedResult.id top))
    (Z.of_nat (List.length relevant_matches)).

Definition failure_result (incoming_text : string)
    (relevant_matches : list RankedResult.t) (e : PyExc) : NoveltyResult.t :=
  NoveltyResult.mk incoming_text REVIEW 0 (assessment_failed e) [] false
    (option_map RankedResult.text (hd_error relevant_matches))
    None
    (option_map RankedResult.id (hd_error relevant_matches))
    (Z.of_nat (List.length relevant_matches)).

Definition novelty_call (incoming_text : string)
    (relevant_matches : list RankedResult.t) : Call :=
  CallNovelty (novelty_prompt incoming_text relevant_matches)
              NOVELTY_SYSTEM_PROMPT.

(** Worlds for the examples: one stored article that the reranker judges
    relevant, and a novelty LLM that gives the reply [novelty]. *)
Definition relevant_reply : string -> LLMReply RerankerResponse.t :=
  fun _ => Parsed (RerankerResponse.mk (9 # 10) "same story").

Definition one_match_world (novelty : LLMReply NoveltyResponse.t) : World :=
  fixed_world [art 1 "a"] [] relevant_reply novelty.

Definition the_match : RankedResult.t :=
  RankedResult.mk 1 "a" (0 + 1 # 61) (9 # 10) "same story" (Some 1) None.

Definition publish_reply (confidence : Q) (reasoning : string)
  : LLMReply NoveltyResponse.t :=
  Parsed (NoveltyResponse.mk "PUBLISH" confidence reasoning [] false).

Definition skip_reply (confidence : Q) (reasoning : string)
  : LLMReply NoveltyResponse.t :=
  Parsed (NoveltyResponse.mk "SKIP" confidence reasoning [] false).

(** The results of Path A and of Path B. *)
Definition path_A_result (incoming_text : string) : NoveltyResult.t :=
  NoveltyResult.mk incoming_text PUBLISH (95 # 100) no_existing_articles
    [] false None None None 0.

Definition path_B_result (incoming_text : string) : NoveltyResult.t :=
  NoveltyResult.mk incoming_text PUBLISH (90 # 100) new_topic
    [] false None None None 0.

Definition no_novelty_call (calls : list Call) : Prop :=
  existsb is_novelty_call calls = false.

(** A reranker LLM that finds article [a] relevant, article [b] unrelated
    and fails on every other prompt. *)
Definition mixed_reply (query_text : string) (prompt : string)
  : LLMReply RerankerResponse.t :=
  if String.eqb prompt (RERANKER_PROMPT query_text "a")
  then Parsed (RerankerResponse.mk (9 # 10) "same story")
  else if String.eqb prompt (RERANKER_PROMPT query_text "b")
  then Parsed (RerankerResponse.mk (2 # 10) "other club")
  else TransportError timeout_error.

Definition cand (i : Z) (t : string) (s : Q) : RetrievalResult.t :=
  RetrievalResult.mk i t s (Some i) None (Some 0%Q) None.

(** ** Vocabulary for the further properties of the fusion *)

(** The first article of a ranked list that has the given id. *)
Fixpoint find_article (id : Z) (l : list ArticleRecord.t)
  : option ArticleRecord.t :=
  match l with
  | [] => None
  | a :: rest => if ArticleRecord.id a =? id then Some a else find_article id rest
  end.

(** The number of distinct article ids in the two ranked lists. *)
Definition distinct_ids_count (semantic keyword : list ArticleRecord.t) : nat :=
  List.length (nodup Z.eq_dec (map ArticleRecord.id (semantic ++ keyword)%list)).


(** The inner dictionary of [meta] for an article after one loop body:
    [old] is the entry found by [setdefault], if any. *)
Definition meta_after (which : Modality) (old : option Meta)
    (a : ArticleRecord.t) (rank : Z) : Meta :=
  let m :=
    match old with
    | Some m => m
    | None => mkMeta (ArticleRecord.text a) None None None None
    end in
  match which with
  | Semantic =>
      mkMeta (m_text m) (Some rank) (Some (ArticleRecord.score a))
             (m_keyword_rank m) (m_keyword_score m)
  | Keyword =>
      mkMeta (m_text m) (m_semantic_rank m) (m_semantic_score m)
             (Some rank) (Some (ArticleRecord.score a))
  end.

(** The article whose text a fused entry shows: the one of the semantic list
    if the id is there, else the one of the keyword list. *)
Definition first_seen (id : Z) (semantic keyword : list ArticleRecord.t)
  : option ArticleRecord.t :=
  match find_article id semantic with
  | Some a => Some a
  | None => find_article id keyword
  end.

(** ** [get_top_k_similar] ([main.py]) *)

(** [get_top_k_similar(text, top_k=5, retriever=...)], with the retriever
    given by its world and its configuration. *)
Definition get_top_k_similar (w : World) (cfg : Settings.t) (text : string)
    (top_k : option Z) : M (list RetrievalResult.t) :=
  let top_k := match top_k with Some n => n | None => 5 end in
  candidates <- retrieve w cfg text (Some top_k) ;;
  ret (slice_to top_k candidates).

(** ** [OpenRouterEmbeddingService.embed_batch] ([src/services/embedding.py]) *)

(** [self.client.embeddings.create(model=self.model, input=batch)], followed by
    [[item.embedding for item in response.data]]: the answer may depend on the
    inputs of the earlier calls. *)
Definition EmbeddingsAPI : Type :=
  list (list string) -> list string -> result (list (list Q)).

(** [range(0, stop, step)] for a non-negative [stop]. *)
Definition range_from_zero (stop step : Z) : result (list Z) :=
  if step =? 0
  then Raise (mkExc ValueError "range() arg 3 must not be zero")
  else if step <? 0 then Ok []
  else Ok (map (fun j => Z.of_nat j * step)
               (seq 0 (Z.to_nat ((stop + step - 1) / step)))).

(** The slice [l[i:j]] for non-negative [i] and [j]. *)
Definition slice_between {A : Type} (i j : Z) (l : list A) : list A :=
  firstn (Z.to_nat (j - i)) (skipn (Z.to_nat i) l).

(** The [for i in range(...)] loop; the log holds the inputs sent so far. *)
Fixpoint embed_batches (create : EmbeddingsAPI) (texts : list string)
    (batch_size : Z) (starts : list Z) (all_embeddings : list (list Q))
    (log : list (list string))
  : result (list (list Q)) * list (list string) :=
  match starts with
  | [] => (Ok all_embeddings, log)
  | i :: rest =>
      let batch := slice_between i (i + batch_size) texts in
      match create log batch with
      | Raise e => (Raise e, (log ++ [batch])%list)
      | Ok data =>
          embed_batches create texts batch_size rest
            (all_embeddings ++ data)%list (log ++ [batch])%list
      end
  end.

(** [embed_batch(texts, batch_size=100)]. *)
Definition embed_batch (create : EmbeddingsAPI) (texts : list string)
    (batch_size : option Z) (log : list (list string))
  : result (list (list Q)) * list (list string) :=
  let batch_size := match batch_size with Some b => b | None => 100 end in
  match range_from_zero (Z.of_nat (List.length texts)) batch_size with
  | Raise e => (Raise e, log)
  | Ok starts => embed_batches create texts batch_size starts [] log
  end.

(** An API that returns one embedding per input, of dimension 1. *)
Definition echo_api : EmbeddingsAPI :=
  fun _ batch => Ok (map (fun _ => [1%Q]) batch).

(** ** [IngestionPipeline.ingest_csv] ([src/ingestion/pipeline.py]) *)

(** A cell of the column [df["text"]]: missing (NaN), a string, or a value
    that is not a string (a number, when pandas parsed the column so). *)
Inductive Cell : Type :=
| CellNaN
| CellStr (s : string)
| CellOther.

(** What [pd.read_csv] returns, as far as [ingest_csv] looks at it. *)
Record DataFrame : Type := mkDataFrame {
  df_columns : list string;
  df_text : list Cell
}.

Module ArticleCreate.
Record t : Type := mk { text : string; embedding : list Q }.
End ArticleCreate.

Inductive IngestError : Type :=
| CsvNotFound
| MissingTextColumn
| NotAString
| InvalidArticle
| Collaborator (e : PyExc).

Inductive IngestCall : Type :=
| IExists (path : string)
| IReadCsv (path : string)
| ICount
| IEmbedBatch (texts : list string)
| IInsert (article : ArticleCreate.t)
| IFlush
| ICommit
| IRollback
| IClose.

(** The file system, pandas, the embedding service and the store, each
    answering by the log of the calls made so far. *)
Record IngestWorld : Type := mkIngestWorld {
  csv_exists : list IngestCall -> string -> bool;
  read_csv : list IngestCall -> string -> result DataFrame;
  count_articles : list IngestCall -> result Z;
  embed_batch_service : list IngestCall -> list string -> result (list (list Q));
  insert_article : list IngestCall -> ArticleCreate.t -> result Z;
  flush_session : list IngestCall -> result unit;
  commit_session : list IngestCall -> result unit
}.

Inductive outcome (A : Type) : Type :=
| Returns (a : A)
| Raises (e : IngestError).
Arguments Returns {A} a.
Arguments Raises {A} e.

Definition IM (A : Type) : Type :=
  list IngestCall -> outcome A * list IngestCall.

Definition iret {A : Type} (a : A) : IM A := fun log => (Returns a, log).

Definition iraise {A : Type} (e : IngestError) : IM A :=
  fun log => (Raises e, log).

Definition ibind {A B : Type} (m : IM A) (f : A -> IM B) : IM B :=
  fun log =>
    match m log with
    | (Returns a, log') => f a log'
    | (Raises e, log') => (Raises e, log')
    end.

Definition icall {A : Type} (c : IngestCall)
    (answer : list IngestCall -> result A) : IM A :=
  fun log =>
    (match answer log with
     | Ok a => Returns a
     | Raise e => Raises (Collaborator e)
     end, (log ++ [c])%list).

Notation "x <~ m ;; k" := (ibind m (fun x => k))
  (at level 61, m at next level, right associativity) : monad_scope.

(** [with get_session() as session: body], over the calls of the ingestion. *)
Definition with_ingest_session {A : Type} (w : IngestWorld) (body : IM A)
  : IM A :=
  fun log =>
    match (x <~ body ;; _ <~ icall ICommit (commit_session w) ;; iret x) log with
    | (Returns a, log') => (Returns a, (log' ++ [IClose])%list)
    | (Raises e, log') => (Raises e, (log' ++ [IRollback; IClose])%list)
    end.

(** [[self._clean_text(t) for t in df["text"].dropna().tolist()]], for a
    cleaning function [clean] on strings; a cell that is not a string has no
    [strip] method. *)
Fixpoint clean_cells (clean : string -> string) (cells : list Cell)
  : outcome (list string) :=
  match cells with
  | [] => Returns []
  | CellNaN :: rest => clean_cells clean rest
  | CellStr s :: rest =>
      match clean_cells clean rest with
      | Returns ts => Returns (clean s :: ts)
      | Raises e => Raises e
      end
  | CellOther :: rest => Raises NotAString
  end.

(** [ArticleCreate(text=t, embedding=e)]: both fields have [min_length=1]. *)
Definition ArticleCreate_new (text : string) (embedding : list Q)
  : outcome ArticleCreate.t :=
  if (String.length text =? 0)%nat then Raises InvalidArticle
  else match embedding with
       | [] => Raises InvalidArticle
       | _ :: _ => Returns (ArticleCreate.mk text embedding)
       end.

(** [[ArticleCreate(text=t, embedding=e) for t, e in zip(texts, embeddings)]]. *)
Fixpoint make_articles (pairs : list (string * list Q))
  : outcome (list ArticleCreate.t) :=
  match pairs with
  | [] => Returns []
  | (t, e) :: rest =>
      match ArticleCreate_new t e with
      | Raises err => Raises err
      | Returns a =>
          match make_articles rest with
          | Raises err => Raises err
          | Returns articles => Returns (a :: articles)
          end
      end
  end.

(** [ArticleRepository.insert_batch]: [[self.insert(a) for a in articles]],
    then [self.session.flush()]. *)
Fixpoint insert_all (w : IngestWorld) (articles : list ArticleCreate.t)
  : IM (list Z) :=
  match articles with
  | [] => iret []
  | a :: rest =>
      id <~ icall (IInsert a) (fun log => insert_article w log a) ;;
      ids <~ insert_all w rest ;;
      iret (id :: ids)
  end.

Definition insert_batch (w : IngestWorld) (articles : list ArticleCreate.t)
  : IM (list Z) :=
  ids <~ insert_all w articles ;;
  _ <~ icall IFlush (flush_session w) ;;
  iret ids.

(** [ingest_csv(csv_path)], for a cleaning function [clean]: the regular
    expressions of [_clean_text] are not part of this embedding, and what is
    proved holds for every cleaning function. *)
Definition ingest_csv (clean : string -> string) (w : IngestWorld)
    (csv_path : string) : IM Z :=
  found <~ icall (IExists csv_path) (fun log => Ok (csv_exists w log csv_path)) ;;
  if negb found then iraise CsvNotFound
  else
    df <~ icall (IReadCsv csv_path) (fun log => read_csv w log csv_path) ;;
    if negb (existsb (String.eqb "text") (df_columns df))
    then iraise MissingTextColumn
    else
      texts <~ (fun log => (clean_cells clean (df_text df), log)) ;;
      existing <~ with_ingest_session w (icall ICount (count_articles w)) ;;
      if existing >? 0 then iret existing
      else
        embeddings <~ icall (IEmbedBatch texts)
                        (fun log => embed_batch_service w log texts) ;;
        articles <~ (fun log => (make_articles (combine texts embeddings), log)) ;;
        _ <~ with_ingest_session w (insert_batch w articles) ;;
        iret (Z.of_nat (List.length articles)).

(** A store with [existing] articles, a file with the given cells in its text
    column, and an embedding service that returns [embeddings]. *)
Definition ingest_world (cells : list Cell) (existing : Z)
    (embeddings : list (list Q)) : IngestWorld :=
  mkIngestWorld (fun _ _ => true)
                (fun _ _ => Ok (mkDataFrame ["text"] cells))
                (fun _ => Ok existing)
                (fun _ _ => Ok embeddings)
                (fun _ _ => Ok 1)
                (fun _ => Ok tt)
                (fun _ => Ok tt).

Definition is_insert (c : IngestCall) : bool :=
  match c with
  | IInsert _ => true
  | _ => false
  end.

Definition is_embed_batch (c : IngestCall) : bool :=
  match c with
  | IEmbedBatch _ => true
  | _ => false
  end.

(** The calls of [ingest_csv] up to the end of its first session. *)
Definition ingest_prefix (csv_path : string) : list IngestCall :=
  [IExists csv_path; IReadCsv csv_path; ICount; ICommit; IClose].

(** Worlds in which the embedding provider, or the semantic query of the
    store, is down; and the result of [assess] in the world with one relevant
    match and a confident PUBLISH. *)
Definition embedding_down_world : World :=
  mkWorld (fun _ _ => Raise timeout_error)
          (fun _ _ _ => Ok []) (fun _ _ _ => Ok [])
          (fun _ => Ok tt) (fun _ => Ok tt) (fun _ => Ok tt)
          (fun _ => llm_down) (fun _ _ _ => InvalidJSON "x").

Definition store_down_world : World :=
  mkWorld (fun _ _ => Ok [1%Q])
          (fun _ _ _ => Raise timeout_error) (fun _ _ _ => Ok [])
          (fun _ => Ok tt) (fun _ => Ok tt) (fun _ => Ok tt)
          (fun _ => llm_down) (fun _ _ _ => InvalidJSON "x").

(** A world whose store answers both queries with no row and whose session
    answers [commit], [rollback] and [close] as given. *)
Definition session_world (on_commit on_rollback on_close : result unit) : World :=
  mkWorld (fun _ _ => Ok [1%Q])
          (fun _ _ _ => Ok []) (fun _ _ _ => Ok [])
          (fun _ => on_commit) (fun _ => on_rollback) (fun _ => on_close)
          (fun _ => llm_down) (fun _ _ _ => InvalidJSON "x").

Definition commit_error : PyExc := mkExc OtherError "commit failed".
Definition rollback_error : PyExc := mkExc OtherError "rollback failed".
Definition close_error : PyExc := mkExc OtherError "close failed".

Definition published_result : NoveltyResult.t :=
  NoveltyResult.mk "x" PUBLISH (9 # 10) "new fee" [] false
    (Some "a") (Some (9 # 10)) (Some 1) 1.

(** * Properties *)

(** Run a concrete world up to the entry of [_assess_novelty]. *)
Ltac run_to_path_C :=
  unfold reaches_path_C; do 2 eexists;
  split; [vm_compute; reflexivity|];
  split; [vm_compute; reflexivity|discriminate].

(** The ids of a concrete list are pairwise distinct. *)
Ltac distinct_ids := repeat constructor; simpl; intuition discriminate.

(** ** The model at work *)

Example fuse_example :
  _fuse_rrf 60 [art 7 "a"; art 8 "b"] [art 9 "c"; art 8 "b"; art 7 "a"] 2
  = Ok [RetrievalResult.mk 7 "a" (124 # 3843)
          (Some 1) (Some 3) (Some 0%Q) (Some 0%Q);
        RetrievalResult.mk 8 "b" (124 # 3844)
          (Some 2) (Some 2) (Some 0%Q) (Some 0%Q)].
Proof. vm_compute. reflexivity. Qed.

(** Two ids with the same score keep the order in which they were first seen. *)
Example fuse_tie_example :
  match _fuse_rrf 60 [art 1 "a"] [art 2 "b"] 5 with
  | Ok fused => map RetrievalResult.id fused = [1; 2]
  | Raise _ => False
  end.
Proof. vm_compute. reflexivity. Qed.

Example rerank_example :
  fst (rerank (fixed_world [] [] (mixed_reply "q") (InvalidJSON "x")) settings "q"
              [cand 1 "c" (1 # 61); cand 2 "b" (1 # 62); cand 3 "a" (1 # 63)] [])
  = Ok [RankedResult.mk 3 "a" (1 # 63) (9 # 10) "same story" (Some 3) None;
        RankedResult.mk 1 "c" (1 # 61) (1 # 61) reranker_fallback (Some 1) None].
Proof. vm_compute. reflexivity. Qed.

Example assess_example :
  fst (assess (one_match_world (publish_reply (9 # 10) "new fee")) settings "x" [])
  = Ok (NoveltyResult.mk "x" PUBLISH (9 # 10) "new fee" [] false
          (Some "a") (Some (9 # 10)) (Some 1) 1).
Proof. vm_compute. reflexivity. Qed.

Example retrieve_example :
  retrieve (one_match_world (InvalidJSON "x")) settings "x" None []
  = (Ok [RetrievalResult.mk 1 "a" (0 + 1 # 61) (Some 1) None (Some 0%Q) None],
     [CallEmbed "x"; CallSearchSemantic [1%Q] 5; CallSearchKeyword "x" 5;
      CallCommit; CallClose]).
Proof. vm_compute. reflexivity. Qed.

(** A smoothing constant that no float can hold. *)
Example fuse_overflow_example :
  _fuse_rrf (10 ^ 309) [art 1 "a"] [] 5
  = Raise (mkExc OverflowError "int too large to convert to float").
Proof. vm_compute. reflexivity. Qed.

(** The largest denominator that a float still holds. *)
Example reciprocal_limit_example :
  (exists c, reciprocal (float_limit - 1) = Ok c) /\
  reciprocal float_limit
  = Raise (mkExc OverflowError "int too large to convert to float") /\
  reciprocal (- float_limit)
  = Raise (mkExc OverflowError "int too large to convert to float").
Proof.
  split; [eexists; vm_compute; reflexivity|].
  split; vm_compute; reflexivity.
Qed.

(** A failed commit is rolled back and raised again; the exception of a failed
    rollback or of a failed close takes its place. *)
Example session_example :
  retrieve (session_world (Raise commit_error) (Ok tt) (Ok tt)) settings "x"
           None []
  = (Raise commit_error,
     [CallEmbed "x"; CallSearchSemantic [1%Q] 5; CallSearchKeyword "x" 5;
      CallCommit; CallRollback; CallClose]) /\
  fst (retrieve (session_world (Raise commit_error) (Raise rollback_error)
                   (Ok tt)) settings "x" None [])
  = Raise rollback_error /\
  fst (retrieve (session_world (Raise commit_error) (Raise rollback_error)
                   (Raise close_error)) settings "x" None [])
  = Raise close_error /\
  retrieve (session_world (Ok tt) (Ok tt) (Raise close_error)) settings "x"
           None []
  = (Raise close_error,
     [CallEmbed "x"; CallSearchSemantic [1%Q] 5; CallSearchKeyword "x" 5;
      CallCommit; CallClose]).
Proof. repeat split. Qed.

(** ** Dictionaries *)

Section DictFacts.
Context {V : Type}.
Implicit Types (d : dict V) (k : Z) (v : V).

Lemma dict_get_set d k v k' :
  dict_get (dict_set d k v) k' = if k =? k' then Some v else dict_get d k'.
Proof.
  induction d as [|[k0 v0] d IH]; simpl.
  - reflexivity.
  - destruct (k0 =? k) eqn:E0; simpl.
    + apply Z.eqb_eq in E0; subst k0. destruct (k =? k'); reflexivity.
    + rewrite IH. destruct (k0 =? k') eqn:E1; [|reflexivity].
      apply Z.eqb_eq in E1; subst k0. rewrite Z.eqb_sym, E0. reflexivity.
Qed.

Lemma dict_get_None d k : dict_get d k = None <-> ~ In k (dict_keys d).
Proof.
  induction d as [|[k0 v0] d IH]; simpl.
  - tauto.
  - destruct (k0 =? k) eqn:E.
    + apply Z.eqb_eq in E. split; [discriminate | tauto].
    + apply Z.eqb_neq in E. tauto.
Qed.

Lemma dict_get_Some_In d k : In k (dict_keys d) -> exists v, dict_get d k = Some v.
Proof.
  intros Hin. destruct (dict_get d k) eqn:E; [eauto|].
  apply dict_get_None in E. contradiction.
Qed.

Lemma dict_get_In d k v : dict_get d k = Some v -> In (k, v) d.
Proof.
  induction d as [|[k0 v0] d IH]; simpl; [discriminate|].
  destruct (k0 =? k) eqn:E.
  - apply Z.eqb_eq in E. intros [= ->]. left; congruence.
  - auto.
Qed.

Lemma dict_keys_set d k v : dict_keys (dict_set d k v) = keys_add (dict_keys d) k.
Proof.
  induction d as [|[k0 v0] d IH]; simpl; [reflexivity|].
  destruct (k0 =? k) eqn:E; simpl.
  - apply Z.eqb_eq in E. subst. reflexivity.
  - f_equal. exact IH.
Qed.

Lemma In_dict_set d k v x :
  In x (dict_set d k v) -> x = (k, v) \/ In x d.
Proof.
  induction d as [|[k0 v0] d IH]; simpl.
  - intuition.
  - destruct (k0 =? k); simpl; intuition.
Qed.
End DictFacts.

(** ** Stable descending sort and slicing *)

Lemma In_firstn_In {A : Type} (n : nat) (l : list A) x :
  In x (firstn n l) -> In x l.
Proof.
  revert l. induction n as [|n IH]; intros [|y l]; simpl; try tauto.
  intros [->|H]; [left; reflexivity | right; apply IH; exact H].
Qed.

Section SortFacts.
Context {A : Type} (key : A -> Q).

Lemma Qltb_true x y : Qltb x y = true <-> (x < y)%Q.
Proof.
  unfold Qltb. rewrite negb_true_iff. split; intros H.
  - apply Qnot_le_lt. intros Hle. apply Qle_bool_iff in Hle. congruence.
  - destruct (Qle_bool y x) eqn:E; [|reflexivity].
    apply Qle_bool_iff in E. exfalso. apply (Qlt_not_le _ _ H E).
Qed.

Lemma Qltb_false x y : Qltb x y = false <-> (y <= x)%Q.
Proof.
  unfold Qltb. rewrite negb_false_iff. apply Qle_bool_iff.
Qed.

Lemma insert_desc_perm x l : Permutation (x :: l) (insert_desc key x l).
Proof.
  induction l as [|y l IH]; simpl.
  - apply Permutation_refl.
  - destruct (Qltb (key x) (key y)).
    + eapply perm_trans; [apply perm_swap|]. apply perm_skip. exact IH.
    + apply Permutation_refl.
Qed.

Lemma sorted_desc_perm l : Permutation l (sorted_desc key l).
Proof.
  induction l as [|x l IH]; simpl.
  - apply perm_nil.
  - eapply perm_trans; [apply perm_skip; exact IH|]. apply insert_desc_perm.
Qed.

Lemma insert_desc_descending x l :
  descending key l -> descending key (insert_desc key x l).
Proof.
  unfold descending. induction 1 as [|y l Hs IH Hall]; simpl.
  - constructor; constructor.
  - destruct (Qltb (key x) (key y)) eqn:E.
    + apply Qltb_true in E. constructor; [exact IH|].
      rewrite Forall_forall. intros z Hz.
      apply (Permutation_in _ (Permutation_sym (insert_desc_perm x l))) in Hz.
      destruct Hz as [<-|Hz].
      * apply Qlt_le_weak; exact E.
      * rewrite Forall_forall in Hall. auto.
    + apply Qltb_false in E. constructor.
      * constructor; assumption.
      * constructor; [exact E|].
        rewrite Forall_forall in *. intros z Hz.
        eapply Qle_trans; [apply Hall; exact Hz | exact E].
Qed.

Lemma sorted_desc_descending l : descending key (sorted_desc key l).
Proof.
  induction l as [|x l IH]; simpl.
  - constructor.
  - apply insert_desc_descending. exact IH.
Qed.

Lemma sorted_desc_In x l : In x (sorted_desc key l) <-> In x l.
Proof.
  split; apply Permutation_in;
    [apply Permutation_sym|]; apply sorted_desc_perm.
Qed.

Lemma sorted_desc_length l : List.length (sorted_desc key l) = List.length l.
Proof. symmetry. apply Permutation_length, sorted_desc_perm. Qed.

Lemma descending_firstn n l : descending key l -> descending key (firstn n l).
Proof.
  unfold descending. intros H. revert n.
  induction H as [|x l Hs IH Hall]; intros [|n]; simpl; try constructor.
  - apply IH.
  - rewrite Forall_forall in *. intros z Hz. apply Hall.
    eapply In_firstn_In; eauto.
Qed.

Lemma descending_slice_to n l : descending key l -> descending key (slice_to n l).
Proof. unfold slice_to. destruct (n <? 0); apply descending_firstn. Qed.
End SortFacts.

Lemma In_slice_to {A : Type} (n : Z) (l : list A) x : In x (slice_to n l) -> In x l.
Proof. unfold slice_to. destruct (n <? 0); apply In_firstn_In. Qed.

Lemma slice_to_length {A : Type} (n : Z) (l : list A) :
  0 <= n -> Z.of_nat (List.length (slice_to n l)) <= n.
Proof.
  intros Hn. unfold slice_to.
  destruct (n <? 0) eqn:E; [apply Z.ltb_lt in E; lia|].
  rewrite length_firstn. lia.
Qed.

Lemma descending_map {A B : Type} (key : B -> Q) (f : A -> B) (l : list A) :
  descending key (map f l) <-> descending (fun x => key (f x)) l.
Proof.
  unfold descending. induction l as [|x l IH]; simpl.
  - split; constructor.
  - split; intros H; inversion H; subst; constructor;
      try (apply IH; assumption);
      rewrite Forall_forall in *; intros y Hy.
    + apply H3. apply in_map. exact Hy.
    + apply in_map_iff in Hy. destruct Hy as [z [<- Hz]]. auto.
Qed.

(** ** The accumulation loops of the fusion *)

Lemma scores_get_set scores k v k' :
  scores_get (dict_set scores k v) k' = if k =? k' then v else scores_get scores k'.
Proof.
  unfold scores_get. rewrite dict_get_set. destruct (k =? k'); reflexivity.
Qed.

Lemma float_limit_pos : 0 < float_limit.
Proof. vm_compute. reflexivity. Qed.

Lemma reciprocal_good d :
  ~ bad_denominator d -> reciprocal d = Ok (1 / inject_Z d)%Q.
Proof.
  unfold bad_denominator, reciprocal. intros H.
  destruct (d =? 0) eqn:E0; [apply Z.eqb_eq in E0; tauto|].
  destruct (float_limit <=? Z.abs d) eqn:El; [apply Z.leb_le in El; tauto|].
  reflexivity.
Qed.

Lemma reciprocal_Ok d c :
  reciprocal d = Ok c -> c = (1 / inject_Z d)%Q /\ ~ bad_denominator d.
Proof.
  unfold bad_denominator, reciprocal.
  destruct (d =? 0) eqn:E0; [discriminate|].
  destruct (float_limit <=? Z.abs d) eqn:El; [discriminate|].
  intros [= <-]. apply Z.eqb_neq in E0. apply Z.leb_gt in El.
  split; [reflexivity|lia].
Qed.

Lemma reciprocal_Raise d e :
  reciprocal d = Raise e -> division_error d e.
Proof.
  unfold division_error, reciprocal.
  destruct (d =? 0) eqn:E0.
  - intros [= <-]. apply Z.eqb_eq in E0. left. split; [exact E0|reflexivity].
  - destruct (float_limit <=? Z.abs d) eqn:El; [|discriminate].
    intros [= <-]. apply Z.leb_le in El. right. split; [exact El|reflexivity].
Qed.

Lemma division_error_bad d e : division_error d e -> bad_denominator d.
Proof. unfold division_error, bad_denominator. tauto. Qed.

Lemma reciprocal_pos d : 0 < d -> (0 < 1 / inject_Z d)%Q.
Proof.
  intros H. unfold Qdiv. rewrite Qmult_1_l. apply Qinv_lt_0_compat.
  change 0%Q with (inject_Z 0). rewrite <- Zlt_Qlt. exact H.
Qed.

(** A loop returns when no rank of its list has a bad denominator. *)
Lemma accumulate_good which k rank l scores meta :
  (forall r, rank <= r < rank + Z.of_nat (List.length l) ->
             ~ bad_denominator (k + r)) ->
  exists scores' meta', accumulate which k rank l scores meta = Ok (scores', meta').
Proof.
  revert rank scores meta. induction l as [|a l IH]; intros rank scores meta H.
  - simpl. eauto.
  - cbn [accumulate]. cbn [List.length] in H.
    rewrite reciprocal_good by (apply H; lia).
    apply IH. intros r Hr. apply H. lia.
Qed.

(** A loop that returns has met no bad denominator. *)
Lemma accumulate_Ok_good which k rank l scores meta scores' meta' :
  accumulate which k rank l scores meta = Ok (scores', meta') ->
  forall r, rank <= r < rank + Z.of_nat (List.length l) ->
            ~ bad_denominator (k + r).
Proof.
  revert rank scores meta. induction l as [|a l IH]; intros rank scores meta H r Hr.
  - simpl in Hr. lia.
  - cbn [accumulate] in H. cbn [List.length] in Hr.
    destruct (reciprocal (k + rank)) as [c|e] eqn:Ec; [|discriminate].
    apply reciprocal_Ok in Ec. destruct Ec as [_ Hgood].
    destruct (Z.eq_dec r rank) as [->|Hne]; [exact Hgood|].
    apply (IH _ _ _ H). lia.
Qed.

(** A loop raises what the division raises at one of its ranks. *)
Lemma accumulate_Raise which k rank l scores meta e :
  accumulate which k rank l scores meta = Raise e ->
  exists r, rank <= r < rank + Z.of_nat (List.length l) /\
            division_error (k + r) e.
Proof.
  revert rank scores meta. induction l as [|a l IH]; intros rank scores meta H.
  - discriminate.
  - cbn [accumulate] in H.
    destruct (reciprocal (k + rank)) as [c|e'] eqn:Ec.
    + apply IH in H. destruct H as (r & Hr & He). exists r.
      cbn [List.length]. split; [lia|exact He].
    + injection H as ->. apply reciprocal_Raise in Ec. exists rank.
      cbn [List.length]. split; [lia|exact Ec].
Qed.

Lemma accumulate_scores which k rank l scores meta scores' meta' :
  accumulate which k rank l scores meta = Ok (scores', meta') ->
  forall id,
    (scores_get scores' id == scores_get scores id + contributions k rank l id)%Q.
Proof.
  revert rank scores meta. induction l as [|a l IH]; intros rank scores meta H id;
    simpl in *.
  - injection H as <- <-. ring.
  - destruct (reciprocal (k + rank)) as [c|e] eqn:Ec; [|discriminate].
    apply reciprocal_Ok in Ec. destruct Ec as [-> _].
    rewrite (IH _ _ _ H id), scores_get_set.
    destruct (ArticleRecord.id a =? id) eqn:E.
    + apply Z.eqb_eq in E. subst id. ring.
    + ring.
Qed.

Lemma accumulate_keys which k rank l scores meta scores' meta' :
  accumulate which k rank l scores meta = Ok (scores', meta') ->
  dict_keys scores = dict_keys meta ->
  dict_keys scores' = dict_keys meta'.
Proof.
  revert rank scores meta. induction l as [|a l IH]; intros rank scores meta H Hk;
    simpl in *.
  - injection H as <- <-. exact Hk.
  - destruct (reciprocal (k + rank)) as [c|e]; [|discriminate].
    apply (IH _ _ _ H). unfold meta_record.
    rewrite !dict_keys_set. congruence.
Qed.

(** Every stored score stays positive when the denominators are positive. *)
Lemma accumulate_positive which k rank l scores meta scores' meta' :
  0 < k + rank ->
  Forall (fun kv => 0 < snd kv)%Q scores ->
  accumulate which k rank l scores meta = Ok (scores', meta') ->
  Forall (fun kv => 0 < snd kv)%Q scores'.
Proof.
  revert rank scores meta. induction l as [|a l IH];
    intros rank scores meta Hpos Hall H; simpl in *.
  - injection H as <- <-. exact Hall.
  - destruct (reciprocal (k + rank)) as [c|e] eqn:Ec; [|discriminate].
    apply reciprocal_Ok in Ec. destruct Ec as [-> _].
    apply IH in H; [exact H|lia|].
    rewrite Forall_forall in *. intros kv Hkv.
    apply In_dict_set in Hkv. destruct Hkv as [->|Hkv]; [|auto].
    simpl. pose proof (reciprocal_pos (k + rank) Hpos) as Hc.
    assert (0 <= scores_get scores (ArticleRecord.id a))%Q as H0.
    { unfold scores_get.
      destruct (dict_get scores (ArticleRecord.id a)) as [v|] eqn:E.
      - apply dict_get_In in E. apply Qlt_le_weak. apply (Hall _ E).
      - apply Qle_refl. }
    lra.
Qed.

Lemma scores_get_positive scores id :
  Forall (fun kv => 0 < snd kv)%Q scores ->
  In id (dict_keys scores) -> (0 < scores_get scores id)%Q.
Proof.
  intros Hall Hin. unfold scores_get.
  destruct (dict_get_Some_In scores id Hin) as [v E]. rewrite E.
  apply dict_get_In in E. rewrite Forall_forall in Hall. apply (Hall _ E).
Qed.

(** ** The result list of the fusion *)

Lemma build_results_total scores meta ids :
  (forall id, In id ids -> In id (dict_keys meta)) ->
  exists rs, build_results scores meta ids = Ok rs.
Proof.
  induction ids as [|did ids IH]; intros H; simpl.
  - eauto.
  - destruct (dict_get_Some_In meta did) as [m Em]; [apply H; left; reflexivity|].
    rewrite Em. destruct IH as [rs Ers]; [intros; apply H; right; assumption|].
    rewrite Ers. eauto.
Qed.

Lemma build_results_spec scores meta ids rs :
  build_results scores meta ids = Ok rs ->
  map RetrievalResult.id rs = ids /\
  map RetrievalResult.rrf_score rs = map (scores_get scores) ids.
Proof.
  revert rs. induction ids as [|did ids IH]; intros rs H; simpl in *.
  - injection H as <-. split; reflexivity.
  - destruct (dict_get meta did) as [m|]; [|discriminate].
    destruct (build_results scores meta ids) as [rs'|e]; [|discriminate].
    injection H as <-. destruct (IH rs' eq_refl) as [H1 H2].
    simpl. split; f_equal; assumption.
Qed.

(** The shape of every successful fusion: the accumulated scores, and the
    result list as the slice of the sorted keys. *)
Lemma fuse_rrf_Ok k sem kw top_k fused :
  _fuse_rrf k sem kw top_k = Ok fused ->
  exists scores : dict Q,
    (forall id, scores_get scores id
                == contributions k 1 sem id + contributions k 1 kw id)%Q /\
    map RetrievalResult.id fused
      = slice_to top_k (sorted_desc (scores_get scores) (dict_keys scores)) /\
    map RetrievalResult.rrf_score fused
      = map (scores_get scores) (map RetrievalResult.id fused) /\
    (0 <= k -> Forall (fun kv => 0 < snd kv)%Q scores).
Proof.
  unfold _fuse_rrf. intros H.
  destruct (accumulate Semantic k 1 sem [] []) as [[s1 m1]|e] eqn:E1; [|discriminate].
  destruct (accumulate Keyword k 1 kw s1 m1) as [[s2 m2]|e] eqn:E2; [|discriminate].
  exists s2. apply build_results_spec in H. destruct H as [Hid Hsc].
  repeat split.
  - intros id. rewrite (accumulate_scores _ _ _ _ _ _ _ _ E2 id).
    rewrite (accumulate_scores _ _ _ _ _ _ _ _ E1 id).
    unfold scores_get at 1. simpl. ring.
  - exact Hid.
  - rewrite Hid. exact Hsc.
  - intros Hk.
    apply accumulate_positive in E1; [|lia|constructor].
    apply accumulate_positive in E2; [assumption|lia|assumption].
Qed.

(** The fusion returns when no rank of either list has a bad denominator:
    the lookups of [build_results] cannot miss. *)
Lemma fuse_rrf_good k sem kw top_k :
  (forall rank, rank_of_a_list sem kw rank -> ~ bad_denominator (k + rank)) ->
  exists fused, _fuse_rrf k sem kw top_k = Ok fused.
Proof.
  intros Hgood. unfold _fuse_rrf.
  destruct (accumulate_good Semantic k 1 sem [] []) as (s1 & m1 & E1).
  { intros r Hr. apply Hgood. left. lia. }
  rewrite E1.
  destruct (accumulate_good Keyword k 1 kw s1 m1) as (s2 & m2 & E2).
  { intros r Hr. apply Hgood. right. lia. }
  rewrite E2. apply build_results_total. intros id Hin.
  apply In_slice_to in Hin. apply sorted_desc_In in Hin.
  assert (dict_keys s1 = dict_keys m1) as K1
    by (apply (accumulate_keys _ _ _ _ _ _ _ _ E1); reflexivity).
  rewrite <- (accumulate_keys _ _ _ _ _ _ _ _ E2 K1). exact Hin.
Qed.

(** A fusion that returns has met no bad denominator. *)
Lemma fuse_rrf_Ok_good k sem kw top_k fused :
  _fuse_rrf k sem kw top_k = Ok fused ->
  forall rank, rank_of_a_list sem kw rank -> ~ bad_denominator (k + rank).
Proof.
  unfold _fuse_rrf. intros H rank Hr.
  destruct (accumulate Semantic k 1 sem [] []) as [[s1 m1]|e] eqn:E1; [|discriminate].
  destruct (accumulate Keyword k 1 kw s1 m1) as [[s2 m2]|e] eqn:E2; [|discriminate].
  destruct Hr as [Hr|Hr].
  - apply (accumulate_Ok_good _ _ _ _ _ _ _ _ E1). lia.
  - apply (accumulate_Ok_good _ _ _ _ _ _ _ _ E2). lia.
Qed.

(** The fusion raises only what the division raises at a rank of one of the
    two lists. *)
Lemma fuse_rrf_Raise k sem kw top_k e :
  _fuse_rrf k sem kw top_k = Raise e ->
  exists rank, rank_of_a_list sem kw rank /\ division_error (k + rank) e.
Proof.
  unfold _fuse_rrf. intros H.
  destruct (accumulate Semantic k 1 sem [] []) as [[s1 m1]|e1] eqn:E1.
  - destruct (accumulate Keyword k 1 kw s1 m1) as [[s2 m2]|e2] eqn:E2.
    + exfalso.
      destruct (build_results_total s2 m2
                  (slice_to top_k (sorted_desc (scores_get s2) (dict_keys s2))))
        as [rs Ers]; [|congruence].
      intros id Hin. apply In_slice_to in Hin. apply sorted_desc_In in Hin.
      assert (dict_keys s1 = dict_keys m1) as K1
        by (apply (accumulate_keys _ _ _ _ _ _ _ _ E1); reflexivity).
      rewrite <- (accumulate_keys _ _ _ _ _ _ _ _ E2 K1). exact Hin.
    + injection H as ->. apply accumulate_Raise in E2.
      destruct E2 as (r & Hr & He). exists r. split; [right; lia|exact He].
  - injection H as ->. apply accumulate_Raise in E1.
    destruct E1 as (r & Hr & He). exists r. split; [left; lia|exact He].
Qed.

(** With a non-negative smoothing constant only the conversion to a float can
    fail. *)
Lemma division_error_overflow k rank e :
  0 <= k -> 1 <= rank -> division_error (k + rank) e ->
  float_limit <= k + rank /\ exc_kind e = OverflowError.
Proof.
  unfold division_error. intros Hk Hr [[H0 _]|[Hl He]]; [lia|].
  split; [lia|exact He].
Qed.

(** ** Ranks in a list *)

Lemma contributions_absent k rank l id :
  ~ In id (map ArticleRecord.id l) -> (contributions k rank l id == 0)%Q.
Proof.
  revert rank. induction l as [|a l IH]; intros rank Hn; simpl in *.
  - reflexivity.
  - destruct (ArticleRecord.id a =? id) eqn:E.
    + apply Z.eqb_eq in E. tauto.
    + rewrite IH by tauto. ring.
Qed.

(** A list that holds the id once adds the term of that one rank. *)
Lemma contributions_at_most_once k rank l id :
  at_most_once id l ->
  (contributions k rank l id == rrf_term k (rank_from rank id l))%Q.
Proof.
  unfold at_most_once.
  revert rank. induction l as [|a l IH]; intros rank Hc; simpl in *.
  - reflexivity.
  - destruct (Z.eq_dec (ArticleRecord.id a) id) as [E|E].
    + rewrite (proj2 (Z.eqb_eq _ _) E).
      rewrite contributions_absent.
      * simpl. ring.
      * apply (count_occ_not_In Z.eq_dec). lia.
    + rewrite (proj2 (Z.eqb_neq _ _) E). rewrite IH by exact Hc. ring.
Qed.

Lemma NoDup_at_most_once id l :
  NoDup (map ArticleRecord.id l) -> at_most_once id l.
Proof.
  intros H. unfold at_most_once.
  apply (proj1 (NoDup_count_occ Z.eq_dec _) H).
Qed.

Lemma contributions_NoDup k rank l id :
  NoDup (map ArticleRecord.id l) ->
  (contributions k rank l id == rrf_term k (rank_from rank id l))%Q.
Proof.
  intros H. apply contributions_at_most_once, NoDup_at_most_once, H.
Qed.

Lemma rank_from_ge rank id l r : rank_from rank id l = Some r -> rank <= r.
Proof.
  revert rank. induction l as [|a l IH]; intros rank H; simpl in *.
  - discriminate.
  - destruct (ArticleRecord.id a =? id).
    + injection H as <-. lia.
    + apply IH in H. lia.
Qed.

Lemma fuse_rrf_entry_score k sem kw top_k fused :
  _fuse_rrf k sem kw top_k = Ok fused ->
  forall r, In r fused ->
    (RetrievalResult.rrf_score r
     == contributions k 1 sem (RetrievalResult.id r)
        + contributions k 1 kw (RetrievalResult.id r))%Q.
Proof.
  intros E r Hr.
  destruct (fuse_rrf_Ok _ _ _ _ _ E) as (scores & Hsc & _ & Hmap & _).
  assert (RetrievalResult.rrf_score r = scores_get scores (RetrievalResult.id r))
    as ->.
  { rewrite map_map in Hmap. clear - Hmap Hr.
    induction fused as [|x fused IH]; simpl in *; [contradiction|].
    injection Hmap as Hx Hrest. destruct Hr as [<-|Hr]; auto. }
  apply Hsc.
Qed.

Lemma fuse_rrf_positive k sem kw top_k fused :
  0 <= k ->
  _fuse_rrf k sem kw top_k = Ok fused ->
  Forall (fun r => 0 < RetrievalResult.rrf_score r)%Q fused.
Proof.
  intros Hk E.
  destruct (fuse_rrf_Ok _ _ _ _ _ E) as (scores & _ & Hids & Hsc & Hpos).
  specialize (Hpos Hk). rewrite Forall_forall. intros r Hr.
  assert (In (RetrievalResult.rrf_score r) (map RetrievalResult.rrf_score fused))
    as Hin by (apply in_map; exact Hr).
  rewrite Hsc in Hin. apply in_map_iff in Hin. destruct Hin as (id & <- & Hid).
  apply scores_get_positive; [exact Hpos|].
  rewrite Hids in Hid. apply In_slice_to, sorted_desc_In in Hid. exact Hid.
Qed.

Lemma fuse_rrf_descending k sem kw top_k fused :
  _fuse_rrf k sem kw top_k = Ok fused ->
  descending RetrievalResult.rrf_score fused.
Proof.
  intros E.
  destruct (fuse_rrf_Ok _ _ _ _ _ E) as (scores & _ & Hids & Hsc & _).
  apply (descending_map (fun q => q) RetrievalResult.rrf_score).
  rewrite Hsc, Hids.
  apply (descending_map (fun q => q) (scores_get scores)).
  apply descending_slice_to, sorted_desc_descending.
Qed.

(** ** [retrieve] returns the fusion of the two store answers *)

Lemma retrieve_Ok w cfg query_text top_k log fused log1 :
  retrieve w cfg query_text top_k log = (Ok fused, log1) ->
  exists v log_s sem log_k kw,
    embed w log query_text = Ok v /\
    search_semantic w log_s v (top_k_or cfg top_k) = Ok sem /\
    search_keyword w log_k query_text (top_k_or cfg top_k) = Ok kw /\
    _fuse_rrf (Settings.rrf_k cfg) sem kw (top_k_or cfg top_k) = Ok fused.
Proof.
  unfold retrieve, with_session, closed, rolled_back, bind, call, lift, ret.
  destruct (embed w log query_text) as [v|e] eqn:Ev; [|discriminate].
  destruct (search_semantic w _ v _) as [sem|e] eqn:Es;
    [|destruct (rollback w _), (close w _); discriminate].
  destruct (search_keyword w _ query_text _) as [kw|e] eqn:Ek;
    [|destruct (rollback w _), (close w _); discriminate].
  destruct (commit w _) as [[]|e];
    [|destruct (rollback w _), (close w _); discriminate].
  destruct (close w _); [|discriminate].
  intros [= H <-]. exists v. do 4 eexists. eauto.
Qed.

(** ** C1 and C6: the fused scores and the fused list *)

Lemma fuse_rrf_scores k sem kw top_k fused :
  NoDup (map ArticleRecord.id sem) ->
  NoDup (map ArticleRecord.id kw) ->
  _fuse_rrf k sem kw top_k = Ok fused ->
  forall r, In r fused ->
    (RetrievalResult.rrf_score r
     == rrf_term k (rank_in (RetrievalResult.id r) sem)
        + rrf_term k (rank_in (RetrievalResult.id r) kw))%Q.
Proof.
  intros Hsem Hkw E r Hr.
  rewrite (fuse_rrf_entry_score _ _ _ _ _ E r Hr). unfold rank_in.
  rewrite (contributions_NoDup k 1 sem _ Hsem).
  rewrite (contributions_NoDup k 1 kw _ Hkw). reflexivity.
Qed.

(** C1 (as amended). Every entry of the fused list carries as [rrf_score] the
    sum, over the two lists and over every position at which the list holds
    the entry's id, of [1/(k + rank)], with [rank] the 1-based position. A
    list that holds the id once adds the single term of that rank, a list that
    misses the id adds nothing. The fusion fails to return only when
    [1.0 / (k + rank)] raises at a rank of one of the lists. *)
Theorem fuse_rrf_score_is_sum_of_reciprocal_ranks
    (k : Z) (sem kw : list ArticleRecord.t) (top_k : Z) :
  match _fuse_rrf k sem kw top_k with
  | Ok fused =>
      forall r, In r fused ->
        let id := RetrievalResult.id r in
        (RetrievalResult.rrf_score r
         == contributions k 1 sem id + contributions k 1 kw id)%Q /\
        (at_most_once id sem ->
         (contributions k 1 sem id == rrf_term k (rank_in id sem))%Q) /\
        (at_most_once id kw ->
         (contributions k 1 kw id == rrf_term k (rank_in id kw))%Q)
  | Raise e =>
      exists rank, rank_of_a_list sem kw rank /\ division_error (k + rank) e
  end.
Proof.
  destruct (_fuse_rrf k sem kw top_k) as [fused|e] eqn:E.
  - intros r Hr id. split; [|split].
    + apply (fuse_rrf_entry_score _ _ _ _ _ E r Hr).
    + apply contributions_at_most_once.
    + apply contributions_at_most_once.
  - apply (fuse_rrf_Raise _ _ _ _ _ E).
Qed.

(** With the default [k = 60], id 7 at semantic rank 1 and keyword rank 3
    gets [1/61 + 1/63]. *)
Lemma fuse_rrf_score_example :
  exists r rest,
    _fuse_rrf 60 [art 7 "a"; art 8 "b"] [art 9 "c"; art 8 "b"; art 7 "a"] 5
      = Ok (r :: rest) /\
    RetrievalResult.id r = 7 /\
    RetrievalResult.semantic_rank r = Some 1 /\
    RetrievalResult.keyword_rank r = Some 3 /\
    (RetrievalResult.rrf_score r == (1 # 61) + (1 # 63))%Q.
Proof.
  pose proof (fuse_rrf_score_is_sum_of_reciprocal_ranks 60
                [art 7 "a"; art 8 "b"] [art 9 "c"; art 8 "b"; art 7 "a"] 5) as H.
  do 2 eexists. split; [vm_compute; reflexivity|].
  split; [reflexivity|]. split; [reflexivity|]. split; [reflexivity|].
  destruct (H _ (or_introl eq_refl)) as (Hsum & Hsem & Hkw).
  rewrite Hsum, Hsem, Hkw; [reflexivity| |]; vm_compute; lia.
Defined.

(** C1 as stated fails for a list that holds an id twice: the id gets one term
    per position, not the term of its position. With [k = 60], id 7 at the
    semantic ranks 1 and 3 gets [1/61 + 1/63] from the semantic list alone. *)
Lemma fuse_rrf_repeated_id :
  exists r rest,
    _fuse_rrf 60 [art 7 "a"; art 8 "b"; art 7 "a"] [] 5 = Ok (r :: rest) /\
    RetrievalResult.id r = 7 /\
    rank_in 7 [art 7 "a"; art 8 "b"; art 7 "a"] = Some 1 /\
    rank_in 7 [] = None /\
    (RetrievalResult.rrf_score r == (1 # 61) + (1 # 63))%Q /\
    ~ (RetrievalResult.rrf_score r
       == rrf_term 60 (rank_in 7 [art 7 "a"; art 8 "b"; art 7 "a"])
          + rrf_term 60 (rank_in 7 []))%Q.
Proof.
  do 2 eexists. split; [vm_compute; reflexivity|].
  split; [reflexivity|]. split; [reflexivity|]. split; [reflexivity|].
  split; [reflexivity|]. intros H. vm_compute in H. discriminate.
Qed.

(** C6 (as amended). Whenever the fusion returns, its list is sorted by
    [rrf_score], largest first; for a non-negative [top_k] it has at most
    [top_k] entries; for a non-negative smoothing constant every entry's
    [rrf_score] is strictly positive. The fusion fails to return only when
    [1.0 / (k + rank)] raises at a rank of one of the lists. *)
Theorem fuse_rrf_sorted_truncated_positive
    (k : Z) (sem kw : list ArticleRecord.t) (top_k : Z) :
  match _fuse_rrf k sem kw top_k with
  | Ok fused =>
      descending RetrievalResult.rrf_score fused /\
      (0 <= top_k -> Z.of_nat (List.length fused) <= top_k) /\
      (0 <= k -> Forall (fun r => 0 < RetrievalResult.rrf_score r)%Q fused)
  | Raise e =>
      exists rank, rank_of_a_list sem kw rank /\ division_error (k + rank) e
  end.
Proof.
  destruct (_fuse_rrf k sem kw top_k) as [fused|e] eqn:E.
  - split; [|split].
    + apply (fuse_rrf_descending _ _ _ _ _ E).
    + intros Htop.
      destruct (fuse_rrf_Ok _ _ _ _ _ E) as (scores & _ & Hids & _).
      rewrite <- (length_map RetrievalResult.id), Hids.
      apply slice_to_length. exact Htop.
    + intros Hk. apply (fuse_rrf_positive _ _ _ _ _ Hk E).
  - apply (fuse_rrf_Raise _ _ _ _ _ E).
Qed.

Lemma fuse_rrf_sorted_truncated_positive_example :
  exists fused,
    _fuse_rrf 60 [art 7 "a"; art 8 "b"] [art 9 "c"; art 8 "b"; art 7 "a"] 2
      = Ok fused /\
    descending RetrievalResult.rrf_score fused /\
    Z.of_nat (List.length fused) <= 2 /\
    Forall (fun r => 0 < RetrievalResult.rrf_score r)%Q fused.
Proof.
  pose proof (fuse_rrf_sorted_truncated_positive 60
                [art 7 "a"; art 8 "b"] [art 9 "c"; art 8 "b"; art 7 "a"] 2) as H.
  eexists. split; [vm_compute; reflexivity|].
  destruct H as (Hd & Hl & Hp).
  split; [exact Hd|]. split; [apply Hl; lia|apply Hp; lia].
Defined.

(** C6 as stated fails for a negative [top_k]: [ids[:-1]] drops only the last
    id, so the list is longer than [top_k]; and for a negative smoothing
    constant a score can be negative. *)
Lemma fuse_rrf_negative_top_k :
  (exists fused,
     _fuse_rrf 60 [art 1 "a"; art 2 "b"] [] (-1) = Ok fused /\
     ~ Z.of_nat (List.length fused) <= -1) /\
  (exists r,
     _fuse_rrf (-2) [art 1 "a"] [] 5 = Ok [r] /\
     ~ (0 < RetrievalResult.rrf_score r)%Q).
Proof.
  split.
  - eexists. split; [vm_compute; reflexivity|]. simpl. lia.
  - eexists. split; [vm_compute; reflexivity|]. simpl.
    intros H. vm_compute in H. discriminate.
Qed.

(** ** The reranker *)

Lemma structured_reranker_valid reply response :
  structured RerankerResponse.model_validate reply = Ok response ->
  in_unit_interval (RerankerResponse.relevance response) = true.
Proof.
  destruct reply as [e|d|d|raw]; simpl; try discriminate.
  unfold RerankerResponse.model_validate.
  destruct (in_unit_interval (RerankerResponse.relevance raw)) eqn:E;
    [|discriminate].
  intros [= <-]. exact E.
Qed.

(** One iteration of the loop, case by case. *)
Lemma rerank_candidate_eq w threshold query_text candidate ranked log :
  rerank_candidate w threshold query_text candidate ranked log
  = (match reranker_outcome w log query_text candidate with
     | Ok response =>
         if Qle_bool threshold (RerankerResponse.relevance response)
         then Ok (ranked ++ [scored_result candidate response])%list
         else Ok ranked
     | Raise _ =>
         if in_unit_interval (RetrievalResult.rrf_score candidate)
         then Ok (ranked ++ [fallback_result candidate])%list
         else Raise (mkExc ValidationError "relevance_score")
     end,
     (log ++ [reranker_call query_text candidate])%list).
Proof.
  unfold rerank_candidate, try_except, bind, call_structured_reranker, call,
    lift, ret, reranker_outcome, reranker_call.
  destruct (structured RerankerResponse.model_validate _) as [response|e] eqn:E.
  - pose proof (structured_reranker_valid _ _ E) as Hv.
    destruct (Qle_bool threshold (RerankerResponse.relevance response)).
    + unfold RankedResult.new. rewrite Hv. reflexivity.
    + reflexivity.
  - unfold RankedResult.new.
    destruct (in_unit_interval (RetrievalResult.rrf_score candidate));
      reflexivity.
Qed.

Lemma rerank_loop_cons w threshold query_text candidate rest ranked log :
  rerank_loop w threshold query_text (candidate :: rest) ranked log
  = match rerank_candidate w threshold query_text candidate ranked log with
    | (Ok ranked', log') => rerank_loop w threshold query_text rest ranked' log'
    | (Raise e, log') => (Raise e, log')
    end.
Proof. reflexivity. Qed.

Lemma entry_ok_weaken threshold c candidates r :
  entry_ok threshold candidates r -> entry_ok threshold (c :: candidates) r.
Proof.
  intros (c' & Hin & H). exists c'. split; [right; exact Hin | exact H].
Qed.

Lemma rerank_loop_Ok w threshold query_text candidates ranked log out log' :
  rerank_loop w threshold query_text candidates ranked log = (Ok out, log') ->
  exists added,
    out = (ranked ++ added)%list /\
    (List.length added <= List.length candidates)%nat /\
    Forall (entry_ok threshold candidates) added /\
    log' = (log ++ map (reranker_call query_text) candidates)%list.
Proof.
  revert ranked log. induction candidates as [|c rest IH]; intros ranked log H.
  - injection H as <- <-. exists []. rewrite !app_nil_r.
    repeat split; auto.
  - rewrite rerank_loop_cons, rerank_candidate_eq in H.
    destruct (reranker_outcome w log query_text c) as [response|e].
    + destruct (Qle_bool threshold (RerankerResponse.relevance response)) eqn:E.
      * apply IH in H. destruct H as (added & -> & Hlen & Hall & ->).
        exists (scored_result c response :: added).
        rewrite <- !app_assoc. simpl. repeat split; try lia.
        constructor.
        -- exists c. split; [left; reflexivity|]. left. exists response.
           split; [reflexivity|]. apply Qle_bool_iff. exact E.
        -- eapply Forall_impl; [|exact Hall]. intros r. apply entry_ok_weaken.
      * apply IH in H. destruct H as (added & -> & Hlen & Hall & ->).
        exists added. rewrite <- !app_assoc. simpl. repeat split; try lia.
        eapply Forall_impl; [|exact Hall]. intros r. apply entry_ok_weaken.
    + destruct (in_unit_interval (RetrievalResult.rrf_score c)); [|discriminate].
      apply IH in H. destruct H as (added & -> & Hlen & Hall & ->).
      exists (fallback_result c :: added).
      rewrite <- !app_assoc. simpl. repeat split; try lia.
      constructor.
      * exists c. split; [left; reflexivity|]. right. reflexivity.
      * eapply Forall_impl; [|exact Hall]. intros r. apply entry_ok_weaken.
Qed.

(** The loop raises only when the call for some candidate failed and the
    fallback entry for it does not validate. *)
Lemma rerank_loop_Raise w threshold query_text candidates ranked log e log' :
  rerank_loop w threshold query_text candidates ranked log = (Raise e, log') ->
  exists c, In c candidates /\ ~ unit_score c.
Proof.
  revert ranked log. induction candidates as [|c rest IH]; intros ranked log H.
  - discriminate.
  - rewrite rerank_loop_cons, rerank_candidate_eq in H.
    destruct (reranker_outcome w log query_text c) as [response|e0].
    + destruct (Qle_bool threshold (RerankerResponse.relevance response));
        apply IH in H; destruct H as (c' & Hin & Hc'); exists c';
        (split; [right; exact Hin | exact Hc']).
    + destruct (in_unit_interval (RetrievalResult.rrf_score c)) eqn:E.
      * apply IH in H. destruct H as (c' & Hin & Hc'). exists c'.
        split; [right; exact Hin | exact Hc'].
      * exists c. split; [left; reflexivity|]. unfold unit_score. congruence.
Qed.

Lemma rerank_loop_total w threshold query_text candidates ranked log :
  Forall unit_score candidates ->
  exists out log',
    rerank_loop w threshold query_text candidates ranked log = (Ok out, log').
Proof.
  intros Hall.
  destruct (rerank_loop w threshold query_text candidates ranked log)
    as [[out|e] log'] eqn:E; [eauto|].
  apply rerank_loop_Raise in E. destruct E as (c & Hin & Hc).
  rewrite Forall_forall in Hall. exfalso. apply Hc, Hall, Hin.
Qed.

(** A candidate whose call fails is appended as its fallback entry. *)
Lemma rerank_loop_fallback w threshold query_text pre c post ranked log e :
  Forall unit_score (pre ++ c :: post)%list ->
  reranker_outcome w (log ++ map (reranker_call query_text) pre)%list
                   query_text c = Raise e ->
  exists out log',
    rerank_loop w threshold query_text (pre ++ c :: post)%list ranked log
      = (Ok out, log') /\
    In (fallback_result c) out.
Proof.
  revert ranked log. induction pre as [|c0 pre IH]; intros ranked log Hall Hfail;
    cbn [app map] in *.
  - rewrite app_nil_r in Hfail. inversion Hall as [|? ? Hc Hpost]; subst.
    rewrite rerank_loop_cons, rerank_candidate_eq, Hfail, Hc.
    destruct (rerank_loop_total w threshold query_text post
                (ranked ++ [fallback_result c])%list
                (log ++ [reranker_call query_text c])%list Hpost)
      as (out & log' & E).
    exists out, log'. split; [exact E|].
    apply rerank_loop_Ok in E. destruct E as (added & -> & _).
    apply in_or_app. left. apply in_or_app. right. left. reflexivity.
  - inversion Hall as [|? ? Hc0 Hrest]; subst.
    rewrite rerank_loop_cons, rerank_candidate_eq.
    assert (forall ranked1,
      exists out log',
        rerank_loop w threshold query_text (pre ++ c :: post)%list ranked1
          (log ++ [reranker_call query_text c0])%list = (Ok out, log') /\
        In (fallback_result c) out) as Hnext.
    { intros ranked1. apply IH; [exact Hrest|].
      rewrite <- app_assoc. exact Hfail. }
    destruct (reranker_outcome w log query_text c0) as [response|e0].
    + destruct (Qle_bool threshold (RerankerResponse.relevance response));
        apply Hnext.
    + rewrite Hc0. apply Hnext.
Qed.

Lemma rerank_eq w cfg query_text candidates log :
  rerank w cfg query_text candidates log
  = match rerank_loop w (Settings.reranker_relevance_threshold cfg)
            query_text candidates [] log with
    | (Ok ranked, log') =>
        (Ok (sorted_desc RankedResult.relevance_score ranked), log')
    | (Raise e, log') => (Raise e, log')
    end.
Proof. reflexivity. Qed.

Lemma rerank_total w cfg query_text candidates log :
  Forall unit_score candidates ->
  exists out log', rerank w cfg query_text candidates log = (Ok out, log').
Proof.
  intros Hall. rewrite rerank_eq.
  destruct (rerank_loop_total w (Settings.reranker_relevance_threshold cfg)
              query_text candidates [] log Hall) as (ranked & log' & ->).
  eauto.
Qed.

(** ** C4 and C7: the output of the reranker *)

(** Inside the range of the [relevance_score] field the fallback works: when
    every fusion score lies in [0,1], a candidate whose LLM call fails is kept
    as its fallback entry. *)
Lemma rerank_fallback_in_range
    (w : World) (cfg : Settings.t) (query_text : string)
    (pre : list RetrievalResult.t) (c : RetrievalResult.t)
    (post : list RetrievalResult.t) (log : list Call) (e : PyExc) :
  Forall unit_score (pre ++ c :: post)%list ->
  reranker_outcome w (log ++ map (reranker_call query_text) pre)%list
                   query_text c = Raise e ->
  exists out log',
    rerank w cfg query_text (pre ++ c :: post)%list log = (Ok out, log') /\
    In (fallback_result c) out.
Proof.
  intros Hall Hfail. rewrite rerank_eq.
  destruct (rerank_loop_fallback w (Settings.reranker_relevance_threshold cfg)
              query_text pre c post [] log e Hall Hfail)
    as (ranked & log' & -> & Hin).
  exists (sorted_desc RankedResult.relevance_score ranked), log'.
  split; [reflexivity|]. apply sorted_desc_In. exact Hin.
Qed.

Lemma rerank_loop_fallback_raises w threshold query_text pre c post ranked log e :
  ~ unit_score c ->
  reranker_outcome w (log ++ map (reranker_call query_text) pre)%list
                   query_text c = Raise e ->
  fst (rerank_loop w threshold query_text (pre ++ c :: post)%list ranked log)
  = Raise (mkExc ValidationError "relevance_score").
Proof.
  intros Hc. unfold unit_score in Hc. apply not_true_is_false in Hc.
  revert ranked log. induction pre as [|c0 pre IH]; intros ranked log Hfail;
    cbn [app map] in *.
  - rewrite app_nil_r in Hfail.
    rewrite rerank_loop_cons, rerank_candidate_eq, Hfail, Hc. reflexivity.
  - rewrite rerank_loop_cons, rerank_candidate_eq.
    assert (forall ranked1,
      fst (rerank_loop w threshold query_text (pre ++ c :: post)%list ranked1
             (log ++ [reranker_call query_text c0])%list)
      = Raise (mkExc ValidationError "relevance_score")) as Hnext.
    { intros ranked1. apply IH. rewrite <- app_assoc. exact Hfail. }
    destruct (reranker_outcome w log query_text c0) as [response|e0].
    + destruct (Qle_bool threshold (RerankerResponse.relevance response));
        apply Hnext.
    + destruct (in_unit_interval (RetrievalResult.rrf_score c0));
        [apply Hnext | reflexivity].
Qed.

(** C4. The handler of a failed LLM call builds the fallback entry with the
    candidate's own [rrf_score] as [relevance_score], a field confined to
    [0,1], while [rrf_score] is confined to nothing. For a candidate whose
    fusion score lies outside [0,1] and whose LLM call fails, the handler
    itself raises: [rerank] raises the validation error and returns no list,
    so that candidate and every other one is lost to an LLM error. *)
Theorem rerank_fallback_raises_out_of_range
    (w : World) (cfg : Settings.t) (query_text : string)
    (pre : list RetrievalResult.t) (c : RetrievalResult.t)
    (post : list RetrievalResult.t) (log : list Call) (e : PyExc) :
  ~ unit_score c ->
  reranker_outcome w (log ++ map (reranker_call query_text) pre)%list
                   query_text c = Raise e ->
  fst (rerank w cfg query_text (pre ++ c :: post)%list log)
  = Raise (mkExc ValidationError "relevance_score").
Proof.
  intros Hc Hfail. rewrite rerank_eq.
  pose proof (rerank_loop_fallback_raises w
                (Settings.reranker_relevance_threshold cfg) query_text
                pre c post [] log e Hc Hfail) as H.
  destruct (rerank_loop w (Settings.reranker_relevance_threshold cfg)
              query_text (pre ++ c :: post)%list [] log) as [[out|e'] log'];
    simpl in *; [discriminate | exact H].
Qed.

(** The article that the fusion with [rrf_k = 0] ranks first in both lists
    has the fusion score 2; the LLM is down, and the candidate after it, whose
    score is in range, is lost with it. *)
Lemma rerank_fallback_raises_example :
  _fuse_rrf 0 [art 1 "a"] [art 1 "a"] 5 = Ok [first_in_both] /\
  fst (rerank (fixed_world [] [] llm_down (InvalidJSON "x")) settings "q"
              ([] ++ first_in_both :: [cand 2 "b" (1 # 2)])%list [])
  = Raise (mkExc ValidationError "relevance_score").
Proof.
  split; [vm_compute; reflexivity|].
  apply (rerank_fallback_raises_out_of_range
           (fixed_world [] [] llm_down (InvalidJSON "x")) settings "q" []
           first_in_both [cand 2 "b" (1 # 2)] [] timeout_error).
  - unfold unit_score. vm_compute. discriminate.
  - reflexivity.
Defined.

(** C7. Whenever [rerank] returns a list, (a) every entry whose
    [relevance_score] is below the threshold carries the fallback sentinel as
    its [relevance_reason], (b) the list is no longer than the candidate list,
    and (c) it is sorted by [relevance_score], largest first. [rerank] returns
    a list unless a fusion score lies outside [0,1]. *)
Theorem rerank_output_filtered_bounded_sorted
    (w : World) (cfg : Settings.t) (query_text : string)
    (candidates : list RetrievalResult.t) (log : list Call) :
  match fst (rerank w cfg query_text candidates log) with
  | Ok out =>
      (forall r, In r out ->
         (RankedResult.relevance_score r
          < Settings.reranker_relevance_threshold cfg)%Q ->
         RankedResult.relevance_reason r = reranker_fallback) /\
      (List.length out <= List.length candidates)%nat /\
      descending RankedResult.relevance_score out
  | Raise _ => exists c, In c candidates /\ ~ unit_score c
  end.
Proof.
  rewrite rerank_eq.
  destruct (rerank_loop w (Settings.reranker_relevance_threshold cfg)
              query_text candidates [] log) as [[ranked|e] log'] eqn:E; simpl.
  - apply rerank_loop_Ok in E. destruct E as (added & -> & Hlen & Hall & _).
    simpl. split; [|split].
    + intros r Hr Hlow. apply sorted_desc_In in Hr.
      rewrite Forall_forall in Hall. destruct (Hall r Hr) as (c & _ & [H|H]).
      * destruct H as (response & -> & Hge). simpl in Hlow.
        exfalso. apply (Qlt_not_le _ _ Hlow Hge).
      * subst r. reflexivity.
    + rewrite sorted_desc_length. exact Hlen.
    + apply sorted_desc_descending.
  - apply rerank_loop_Raise in E. exact E.
Qed.

Lemma rerank_output_example :
  exists out,
    fst (rerank (fixed_world [] [] (mixed_reply "q") (InvalidJSON "x")) settings
                "q" [cand 1 "c" (1 # 61); cand 2 "b" (1 # 62); cand 3 "a" (1 # 63)]
                []) = Ok out /\
    (forall r, In r out ->
       (RankedResult.relevance_score r < 5 # 10)%Q ->
       RankedResult.relevance_reason r = reranker_fallback) /\
    (List.length out <= 3)%nat /\
    descending RankedResult.relevance_score out.
Proof.
  pose proof (rerank_output_filtered_bounded_sorted
                (fixed_world [] [] (mixed_reply "q") (InvalidJSON "x")) settings
                "q" [cand 1 "c" (1 # 61); cand 2 "b" (1 # 62); cand 3 "a" (1 # 63)]
                []) as H.
  assert (fst (rerank (fixed_world [] [] (mixed_reply "q") (InvalidJSON "x"))
                 settings "q"
                 [cand 1 "c" (1 # 61); cand 2 "b" (1 # 62); cand 3 "a" (1 # 63)] [])
          = Ok [RankedResult.mk 3 "a" (1 # 63) (9 # 10) "same story" (Some 3) None;
                RankedResult.mk 1 "c" (1 # 61) (1 # 61) reranker_fallback
                  (Some 1) None]) as E by (vm_compute; reflexivity).
  rewrite E in H. eexists. split; [exact E | exact H].
Defined.

(** ** C10: fused scores and the fallback of the reranker *)

Lemma reciprocal_antitone a b :
  0 < a -> a <= b -> (1 / inject_Z b <= 1 / inject_Z a)%Q.
Proof.
  intros Ha Hab. destruct a as [|p|p]; try lia. destruct b as [|q|q]; try lia.
  unfold Qle, Qdiv, Qinv, Qmult, inject_Z. simpl. lia.
Qed.

Lemma rrf_term_bound k rank id l :
  0 < k + rank ->
  (0 <= rrf_term k (rank_from rank id l) <= 1 / inject_Z (k + rank))%Q.
Proof.
  intros Hpos. pose proof (reciprocal_pos _ Hpos) as H0.
  destruct (rank_from rank id l) as [r|] eqn:E; simpl.
  - apply rank_from_ge in E. split.
    + apply Qlt_le_weak, reciprocal_pos. lia.
    + apply reciprocal_antitone; lia.
  - split; [apply Qle_refl | apply Qlt_le_weak; exact H0].
Qed.

Lemma in_unit_interval_true x : (0 <= x)%Q -> (x <= 1)%Q -> in_unit_interval x = true.
Proof.
  intros H0 H1. unfold in_unit_interval.
  apply andb_true_intro. split; apply Qle_bool_iff; assumption.
Qed.

(** C10 (as amended). When the smoothing constant is at least 1, every fused
    entry whose id stands at no more than one position of each ranked list has
    an [rrf_score] of at most [2/(rrf_k + 1)], hence at most 1, and inside
    [0,1]; when that holds of every fused entry, [rerank] never raises on the
    fused list, whatever the LLM does. The fusion then fails to return only
    when a denominator is too large for a float. With [rrf_k = 0], a candidate
    ranked first in both lists has [rrf_score = 2], and when its LLM call
    fails [rerank] raises the validation error of the fallback entry. *)
Theorem fused_scores_fit_fallback_iff_k_positive :
  (forall (k : Z) (sem kw : list ArticleRecord.t) (top_k : Z),
     1 <= k ->
     match _fuse_rrf k sem kw top_k with
     | Ok fused =>
         (forall r, In r fused ->
            at_most_once (RetrievalResult.id r) sem ->
            at_most_once (RetrievalResult.id r) kw ->
            (RetrievalResult.rrf_score r <= 2 / inject_Z (k + 1))%Q /\
            (RetrievalResult.rrf_score r <= 1)%Q /\
            unit_score r) /\
         ((forall r, In r fused ->
             at_most_once (RetrievalResult.id r) sem /\
             at_most_once (RetrievalResult.id r) kw) ->
          forall w cfg query_text log,
            exists out log', rerank w cfg query_text fused log = (Ok out, log'))
     | Raise e =>
         exists rank,
           rank_of_a_list sem kw rank /\
           float_limit <= k + rank /\ exc_kind e = OverflowError
     end) /\
  (exists r,
     _fuse_rrf 0 [art 1 "a"] [art 1 "a"] 5 = Ok [r] /\
     (RetrievalResult.rrf_score r == 2)%Q /\
     forall w cfg query_text log e,
       reranker_outcome w log query_text r = Raise e ->
       fst (rerank w cfg query_text [r] log)
       = Raise (mkExc ValidationError "relevance_score")).
Proof.
  split.
  - intros k sem kw top_k Hk.
    destruct (_fuse_rrf k sem kw top_k) as [fused|e] eqn:E.
    + assert (forall r, In r fused ->
                at_most_once (RetrievalResult.id r) sem ->
                at_most_once (RetrievalResult.id r) kw ->
                (RetrievalResult.rrf_score r <= 2 / inject_Z (k + 1))%Q /\
                (RetrievalResult.rrf_score r <= 1)%Q /\
                unit_score r) as Hall.
      { intros r Hr Hsem Hkw.
        pose proof (fuse_rrf_entry_score _ _ _ _ _ E r Hr) as Hsum.
        rewrite (contributions_at_most_once k 1 sem _ Hsem) in Hsum.
        rewrite (contributions_at_most_once k 1 kw _ Hkw) in Hsum.
        assert (0 <= k) as Hk0 by lia.
        pose proof (fuse_rrf_positive _ _ _ _ _ Hk0 E) as Hpos.
        rewrite Forall_forall in Hpos. specialize (Hpos r Hr).
        assert (0 < k + 1) as Hk1 by lia.
        pose proof (rrf_term_bound k 1 (RetrievalResult.id r) sem Hk1) as B1.
        pose proof (rrf_term_bound k 1 (RetrievalResult.id r) kw Hk1) as B2.
        assert (0 < 2) as H02 by lia. assert (2 <= k + 1) as H2k by lia.
        pose proof (reciprocal_antitone 2 (k + 1) H02 H2k) as Hhalf.
        assert (1 / inject_Z 2 == 1 # 2)%Q as Hh by reflexivity.
        rewrite Hh in Hhalf.
        assert (2 / inject_Z (k + 1)
                == 1 / inject_Z (k + 1) + 1 / inject_Z (k + 1))%Q
          as H2 by (unfold Qdiv; ring).
        assert (RetrievalResult.rrf_score r <= 2 / inject_Z (k + 1))%Q as Hle2
          by (rewrite H2, Hsum; lra).
        assert (RetrievalResult.rrf_score r <= 1)%Q as Hle1
          by (rewrite Hsum; lra).
        split; [exact Hle2|]. split; [exact Hle1|].
        apply in_unit_interval_true; [apply Qlt_le_weak; exact Hpos | exact Hle1]. }
      split; [exact Hall|].
      intros Honce w cfg query_text log. apply rerank_total.
      rewrite Forall_forall. intros r Hr.
      destruct (Honce r Hr) as [Hsem Hkw].
      apply (Hall r Hr Hsem Hkw).
    + destruct (fuse_rrf_Raise _ _ _ _ _ E) as (rank & Hr & He).
      exists rank. split; [exact Hr|].
      apply division_error_overflow; [lia| |exact He].
      destruct Hr as [Hr|Hr]; lia.
  - exists first_in_both. split; [vm_compute; reflexivity|].
    split; [reflexivity|].
    intros w cfg query_text log e Hfail.
    rewrite rerank_eq, rerank_loop_cons, rerank_candidate_eq, Hfail.
    reflexivity.
Qed.

Lemma fused_scores_fit_fallback_example :
  exists fused,
    _fuse_rrf 60 [art 7 "a"; art 8 "b"] [art 9 "c"; art 8 "b"; art 7 "a"] 5
      = Ok fused /\
    Forall (fun r =>
              (RetrievalResult.rrf_score r <= 2 / inject_Z (60 + 1))%Q /\
              (RetrievalResult.rrf_score r <= 1)%Q) fused /\
    forall w cfg query_text log,
      exists out log', rerank w cfg query_text fused log = (Ok out, log').
Proof.
  assert (1 <= 60) as Hk by lia.
  pose proof (proj1 fused_scores_fit_fallback_iff_k_positive 60
                [art 7 "a"; art 8 "b"] [art 9 "c"; art 8 "b"; art 7 "a"] 5 Hk)
    as H.
  remember (_fuse_rrf 60 [art 7 "a"; art 8 "b"]
              [art 9 "c"; art 8 "b"; art 7 "a"] 5) as res eqn:E.
  vm_compute in E. subst res. destruct H as [Hall Hrerank].
  eexists. split; [reflexivity|].
  match type of Hrerank with (?P -> _) => assert P as Honce end.
  { intros r [<-|[<-|[<-|[]]]]; split; vm_compute; lia. }
  split.
  - rewrite Forall_forall. intros r Hr.
    destruct (Honce r Hr) as [Hsem Hkw].
    destruct (Hall r Hr Hsem Hkw) as (H2 & H1 & _). split; assumption.
  - apply Hrerank. exact Honce.
Defined.

(** C10 as stated fails for a list that holds an id more than once: with
    [rrf_k = 1], an article at the four ranks of the semantic list gets
    [1/2 + 1/3 + 1/4 + 1/5 = 77/60], more than [2/(rrf_k + 1) = 1], and when
    its LLM call fails the fallback entry does not validate. *)
Lemma fused_score_above_one :
  exists r,
    _fuse_rrf 1 [art 1 "a"; art 1 "a"; art 1 "a"; art 1 "a"] [] 5 = Ok [r] /\
    (RetrievalResult.rrf_score r == 77 # 60)%Q /\
    ~ (RetrievalResult.rrf_score r <= 2 / inject_Z (1 + 1))%Q /\
    ~ (RetrievalResult.rrf_score r <= 1)%Q /\
    fst (rerank (fixed_world [] [] llm_down (InvalidJSON "x")) settings "q"
                [r] [])
    = Raise (mkExc ValidationError "relevance_score").
Proof.
  eexists. split; [vm_compute; reflexivity|].
  split; [reflexivity|].
  split; [intros H; vm_compute in H; apply H; reflexivity|].
  split; [intros H; vm_compute in H; apply H; reflexivity|].
  vm_compute. reflexivity.
Qed.

(** ** The novelty assessment *)

Lemma structured_novelty_valid reply response :
  structured NoveltyResponse.model_validate reply = Ok response ->
  (NoveltyResponse.decision response = "PUBLISH"
   \/ NoveltyResponse.decision response = "SKIP") /\
  in_unit_interval (NoveltyResponse.confidence response) = true.
Proof.
  destruct reply as [e|d|d|raw]; simpl; try discriminate.
  unfold NoveltyResponse.model_validate.
  destruct (String.eqb (NoveltyResponse.decision raw) "PUBLISH") eqn:E1;
    [|destruct (String.eqb (NoveltyResponse.decision raw) "SKIP") eqn:E2];
    simpl; try discriminate;
    (destruct (in_unit_interval (NoveltyResponse.confidence raw)) eqn:E;
       [|discriminate]);
    intros [= <-]; (split; [|exact E]).
  - left. apply String.eqb_eq. exact E1.
  - right. apply String.eqb_eq. exact E2.
Qed.

Lemma Decision_of_string_adopted response :
  NoveltyResponse.decision response = "PUBLISH"
  \/ NoveltyResponse.decision response = "SKIP" ->
  Decision_of_string (NoveltyResponse.decision response)
  = Ok (adopted_decision response).
Proof.
  unfold adopted_decision. intros [-> | ->]; reflexivity.
Qed.

(** [_assess_novelty] never raises: it makes one call and returns one of the
    two results. *)
Lemma assess_novelty_eq w cfg incoming_text relevant_matches log :
  _assess_novelty w cfg incoming_text relevant_matches log
  = (Ok match novelty_outcome w log incoming_text relevant_matches with
        | Ok response =>
            match relevant_matches with
            | top :: _ =>
                success_result cfg incoming_text relevant_matches top response
            | [] =>
                failure_result incoming_text relevant_matches
                  (mkExc IndexError "list index out of range")
            end
        | Raise e => failure_result incoming_text relevant_matches e
        end,
     (log ++ [novelty_call incoming_text relevant_matches])%list).
Proof.
  unfold _assess_novelty, try_except, bind, call_structured_novelty, call, lift,
    ret, novelty_outcome, novelty_call, novelty_prompt.
  destruct (structured NoveltyResponse.model_validate _) as [response|e] eqn:E.
  - destruct (structured_novelty_valid _ _ E) as [Hd Hc].
    unfold success_result.
    destruct (Qltb (NoveltyResponse.confidence response)
                   (Settings.novelty_confidence_threshold cfg)).
    + destruct relevant_matches as [|top rest].
      * reflexivity.
      * unfold NoveltyResult.new. rewrite Hc. reflexivity.
    + rewrite (Decision_of_string_adopted _ Hd).
      destruct relevant_matches as [|top rest].
      * reflexivity.
      * unfold NoveltyResult.new. rewrite Hc. reflexivity.
  - reflexivity.
Qed.

Lemma assess_path_C w cfg incoming_text log relevant log2 :
  reaches_path_C w cfg incoming_text log relevant log2 ->
  assess w cfg incoming_text log
  = _assess_novelty w cfg incoming_text relevant log2.
Proof.
  intros (candidates & log1 & Hret & Hrr & Hne).
  unfold assess, bind at 1. rewrite Hret.
  destruct candidates as [|c cs].
  - exfalso. apply Hne. cbv in Hrr. congruence.
  - unfold bind at 1. rewrite Hrr.
    destruct relevant as [|top rest]; [contradiction|]. reflexivity.
Qed.

Example one_match_reaches_path_C novelty :
  exists log2,
    reaches_path_C (one_match_world novelty) settings "x" [] [the_match] log2.
Proof.
  eexists. run_to_path_C.
Qed.

(** ** C2 and C3: the two branches of the structured call *)

(** C2. When [assess] reaches the structured call and the call returns a
    valid response: if the reported confidence is strictly below the
    confidence threshold, the decision is REVIEW, whether the model chose
    PUBLISH or SKIP, and the reasoning is the low-confidence marker followed
    by the model's reasoning; otherwise the decision is the model's (PUBLISH
    for PUBLISH, SKIP for SKIP) and the reasoning is the model's. *)
Theorem low_confidence_forces_review
    (w : World) (cfg : Settings.t) (incoming_text : string) (log : list Call)
    (relevant : list RankedResult.t) (log2 : list Call)
    (response : NoveltyResponse.t) :
  reaches_path_C w cfg incoming_text log relevant log2 ->
  novelty_outcome w log2 incoming_text relevant = Ok response ->
  exists res log3,
    assess w cfg incoming_text log = (Ok res, log3) /\
    ((NoveltyResponse.confidence response
      < Settings.novelty_confidence_threshold cfg)%Q ->
     NoveltyResult.decision res = REVIEW /\
     NoveltyResult.reasoning res
     = low_confidence_marker ++ NoveltyResponse.reasoning response) /\
    (~ (NoveltyResponse.confidence response
        < Settings.novelty_confidence_threshold cfg)%Q ->
     ((NoveltyResponse.decision response = "PUBLISH"
       /\ NoveltyResult.decision res = PUBLISH)
      \/ (NoveltyResponse.decision response = "SKIP"
          /\ NoveltyResult.decision res = SKIP)) /\
     NoveltyResult.reasoning res = NoveltyResponse.reasoning response).
Proof.
  intros Hpath Hout. rewrite (assess_path_C _ _ _ _ _ _ Hpath).
  rewrite assess_novelty_eq.
  destruct Hpath as (_ & _ & _ & _ & Hne).
  destruct relevant as [|top rest]; [contradiction|].
  pose proof Hout as Hv. unfold novelty_outcome in Hv.
  apply structured_novelty_valid in Hv. destruct Hv as [Hd _].
  rewrite Hout. do 2 eexists. split; [reflexivity|].
  unfold success_result. cbn [NoveltyResult.decision NoveltyResult.reasoning].
  destruct (Qltb (NoveltyResponse.confidence response)
                 (Settings.novelty_confidence_threshold cfg)) eqn:E.
  - apply Qltb_true in E. split; [auto | tauto].
  - apply Qltb_false in E. split.
    + intros Hlt. exfalso. apply (Qlt_not_le _ _ Hlt E).
    + intros _. split; [|reflexivity].
      unfold adopted_decision.
      destruct Hd as [Hd|Hd]; [left|right]; (split; [exact Hd|]);
        rewrite Hd; reflexivity.
Qed.

(** Confidence 0.4 against the default threshold 0.6 turns PUBLISH into
    REVIEW under the marker; confidence 0.9 leaves a SKIP and its reasoning
    as the model gave them. *)
Lemma low_confidence_forces_review_example :
  (exists res log3,
     assess (one_match_world (publish_reply (4 # 10) "new fee")) settings "x" []
       = (Ok res, log3) /\
     NoveltyResult.decision res = REVIEW /\
     NoveltyResult.reasoning res = low_confidence_marker ++ "new fee") /\
  (exists res log3,
     assess (one_match_world (skip_reply (9 # 10) "same fee")) settings "x" []
       = (Ok res, log3) /\
     NoveltyResult.decision res = SKIP /\
     NoveltyResult.reasoning res = "same fee").
Proof.
  split.
  - edestruct (low_confidence_forces_review
                 (one_match_world (publish_reply (4 # 10) "new fee"))
                 settings "x" [] [the_match])
      as (res & log3 & E & Hlow & _).
    + run_to_path_C.
    + vm_compute. reflexivity.
    + exists res, log3. split; [exact E|]. apply Hlow. reflexivity.
  - edestruct (low_confidence_forces_review
                 (one_match_world (skip_reply (9 # 10) "same fee"))
                 settings "x" [] [the_match])
      as (res & log3 & E & _ & Hhigh).
    + run_to_path_C.
    + vm_compute. reflexivity.
    + exists res, log3. split; [exact E|].
      destruct Hhigh as [[[Hd _]|[_ Hd]] Hr].
      * intros H. vm_compute in H. discriminate.
      * discriminate Hd.
      * split; [exact Hd | exact Hr].
Defined.

(** C3. When [assess] reaches the structured call and the call raises,
    [assess] does not raise: it returns a result with decision REVIEW,
    confidence 0 and a reasoning that contains the text of the exception. *)
Theorem failed_assessment_becomes_review
    (w : World) (cfg : Settings.t) (incoming_text : string) (log : list Call)
    (relevant : list RankedResult.t) (log2 : list Call) (e : PyExc) :
  reaches_path_C w cfg incoming_text log relevant log2 ->
  novelty_outcome w log2 incoming_text relevant = Raise e ->
  exists res log3,
    assess w cfg incoming_text log = (Ok res, log3) /\
    NoveltyResult.decision res = REVIEW /\
    NoveltyResult.confidence res = 0%Q /\
    contains (NoveltyResult.reasoning res) (exc_str e).
Proof.
  intros Hpath Hout. rewrite (assess_path_C _ _ _ _ _ _ Hpath).
  rewrite assess_novelty_eq, Hout. do 2 eexists.
  split; [reflexivity|]. split; [reflexivity|]. split; [reflexivity|].
  exists "Assessment failed: ", ". Flagged for manual review.". reflexivity.
Qed.

Lemma failed_assessment_becomes_review_example :
  exists res log3,
    assess (one_match_world (InvalidJSON "Expecting value")) settings "x" []
      = (Ok res, log3) /\
    NoveltyResult.decision res = REVIEW /\
    NoveltyResult.confidence res = 0%Q /\
    contains (NoveltyResult.reasoning res)
             "LLM returned invalid JSON: Expecting value".
Proof.
  eapply (failed_assessment_becomes_review
            (one_match_world (InvalidJSON "Expecting value"))
            settings "x" [] [the_match]
            _ (mkExc ValueError "LLM returned invalid JSON: Expecting value")).
  - run_to_path_C.
  - vm_compute. reflexivity.
Defined.

(** ** The calls made before the novelty assessment *)

Lemma no_novelty_call_app calls1 calls2 :
  no_novelty_call calls1 -> no_novelty_call calls2 ->
  no_novelty_call (calls1 ++ calls2)%list.
Proof.
  unfold no_novelty_call. intros H1 H2. rewrite existsb_app, H1, H2. reflexivity.
Qed.

Lemma retrieve_calls w cfg query_text top_k log r log1 :
  retrieve w cfg query_text top_k log = (r, log1) ->
  exists calls, log1 = (log ++ calls)%list /\ no_novelty_call calls.
Proof.
  unfold retrieve, with_session, closed, rolled_back, bind, call, lift, ret.
  destruct (embed w log query_text) as [v|e].
  - destruct (search_semantic w _ v _) as [sem|e].
    + destruct (search_keyword w _ query_text _) as [kw|e].
      * destruct (commit w _) as [[]|e].
        -- destruct (close w _); intros [= <- <-];
             rewrite <- !app_assoc; eexists; (split; [reflexivity|reflexivity]).
        -- destruct (rollback w _), (close w _); intros [= <- <-];
             rewrite <- !app_assoc; eexists; (split; [reflexivity|reflexivity]).
      * destruct (rollback w _), (close w _); intros [= <- <-];
          rewrite <- !app_assoc; eexists; (split; [reflexivity|reflexivity]).
    + destruct (rollback w _), (close w _); intros [= <- <-];
        rewrite <- !app_assoc; eexists; (split; [reflexivity|reflexivity]).
  - intros [= <- <-]. eexists; (split; [reflexivity|reflexivity]).
Qed.

Lemma rerank_calls w cfg query_text candidates log out log2 :
  rerank w cfg query_text candidates log = (Ok out, log2) ->
  exists calls, log2 = (log ++ calls)%list /\ no_novelty_call calls.
Proof.
  rewrite rerank_eq.
  destruct (rerank_loop w _ query_text candidates [] log)
    as [[ranked|e] log'] eqn:E; [|discriminate].
  intros [= <- <-]. apply rerank_loop_Ok in E.
  destruct E as (_ & _ & _ & _ & ->).
  eexists. split; [reflexivity|].
  unfold no_novelty_call. clear. induction candidates; simpl; auto.
Qed.

(** ** C5: the two automatic PUBLISH paths *)

(** C5. If the retriever returns no candidate, [assess] returns PUBLISH with
    confidence 0.95, the fixed no-prior-coverage reasoning and no top match.
    If the retriever returns candidates and the reranker returns none of them,
    [assess] returns PUBLISH with confidence 0.90 and the fixed off-topic
    reasoning, and no novelty-assessment call is among the calls it made. *)
Theorem publish_without_relevant_match :
  (forall w cfg incoming_text log log1,
     retrieve w cfg incoming_text None log = (Ok [], log1) ->
     assess w cfg incoming_text log = (Ok (path_A_result incoming_text), log1)) /\
  (forall w cfg incoming_text log candidates log1 log2,
     retrieve w cfg incoming_text None log = (Ok candidates, log1) ->
     candidates <> [] ->
     rerank w cfg incoming_text candidates log1 = (Ok [], log2) ->
     assess w cfg incoming_text log = (Ok (path_B_result incoming_text), log2) /\
     exists calls, log2 = (log ++ calls)%list /\ no_novelty_call calls).
Proof.
  split.
  - intros w cfg incoming_text log log1 Hret.
    unfold assess, bind. rewrite Hret. reflexivity.
  - intros w cfg incoming_text log candidates log1 log2 Hret Hne Hrr. split.
    + unfold assess, bind at 1. rewrite Hret.
      destruct candidates as [|c cs]; [contradiction|].
      unfold bind. rewrite Hrr. reflexivity.
    + apply retrieve_calls in Hret. destruct Hret as (calls1 & -> & H1).
      apply rerank_calls in Hrr. destruct Hrr as (calls2 & -> & H2).
      exists (calls1 ++ calls2)%list. rewrite app_assoc.
      split; [reflexivity|]. apply no_novelty_call_app; assumption.
Qed.

Lemma publish_without_relevant_match_example :
  (exists log1,
     assess (fixed_world [] [] llm_down (InvalidJSON "x")) settings "x" []
     = (Ok (path_A_result "x"), log1)) /\
  (exists log2,
     assess (fixed_world [art 1 "a"] []
               (fun _ => Parsed (RerankerResponse.mk (2 # 10) "other club"))
               (InvalidJSON "x")) settings "x" []
     = (Ok (path_B_result "x"), log2) /\
     no_novelty_call log2).
Proof.
  split.
  - eexists.
    apply (proj1 publish_without_relevant_match
             (fixed_world [] [] llm_down (InvalidJSON "x")) settings "x" []).
    vm_compute. reflexivity.
  - eexists.
    edestruct (proj2 publish_without_relevant_match
                 (fixed_world [art 1 "a"] []
                    (fun _ => Parsed (RerankerResponse.mk (2 # 10) "other club"))
                    (InvalidJSON "x")) settings "x" [])
      as (E & calls & Hlog & Hno).
    + vm_compute. reflexivity.
    + discriminate.
    + vm_compute. reflexivity.
    + split; [exact E|]. rewrite Hlog. exact Hno.
Defined.

(** ** C8: the top-match fields on Path C *)

(** On Path C the result always carries the id and the text of the top
    relevant match and the number of relevant matches; it carries the
    relevance of the top match only when the structured call succeeded. *)
Lemma path_C_top_match_fields w cfg incoming_text log top rest log2 :
  reaches_path_C w cfg incoming_text log (top :: rest) log2 ->
  exists res log3,
    assess w cfg incoming_text log = (Ok res, log3) /\
    NoveltyResult.top_match_id res = Some (RankedResult.id top) /\
    NoveltyResult.top_match_text res = Some (RankedResult.text top) /\
    NoveltyResult.relevant_matches_count res
    = Z.of_nat (List.length (top :: rest)) /\
    NoveltyResult.top_match_similarity res
    = match novelty_outcome w log2 incoming_text (top :: rest) with
      | Ok _ => Some (RankedResult.relevance_score top)
      | Raise _ => None
      end.
Proof.
  intros Hpath. rewrite (assess_path_C _ _ _ _ _ _ Hpath), assess_novelty_eq.
  do 2 eexists. split; [reflexivity|].
  destruct (novelty_outcome w log2 incoming_text (top :: rest));
    repeat split; reflexivity.
Qed.

(** C8, at an input where the structured call times out. The reranker kept
    one match, with relevance 0.9; the result carries its id, its text and the
    count 1, but [top_match_similarity] is absent instead of 0.9. *)
Theorem failed_assessment_omits_top_match_similarity :
  exists log2 res log3,
    reaches_path_C (one_match_world (TransportError timeout_error))
                   settings "x" [] [the_match] log2 /\
    novelty_outcome (one_match_world (TransportError timeout_error))
                    log2 "x" [the_match] = Raise timeout_error /\
    RankedResult.relevance_score the_match = 9 # 10 /\
    assess (one_match_world (TransportError timeout_error)) settings "x" []
    = (Ok res, log3) /\
    NoveltyResult.top_match_id res = Some 1 /\
    NoveltyResult.top_match_text res = Some "a" /\
    NoveltyResult.relevant_matches_count res = 1 /\
    NoveltyResult.top_match_similarity res = None.
Proof.
  assert (exists log2,
            reaches_path_C (one_match_world (TransportError timeout_error))
                           settings "x" [] [the_match] log2) as [log2 Hpath].
  { eexists. run_to_path_C. }
  destruct (path_C_top_match_fields _ _ _ _ _ _ _ Hpath)
    as (res & log3 & E & Hid & Htext & Hcount & Hsim).
  exists log2, res, log3.
  repeat (split; [first [assumption | reflexivity]|]).
  exact Hsim.
Qed.

(** ** C9: the decision and the reasoning of every result *)

Lemma low_confidence_marker_nonempty s : low_confidence_marker ++ s <> EmptyString.
Proof. discriminate. Qed.

(** C9 (as amended). Whenever [assess] returns a result, its decision is one
    of PUBLISH, SKIP and REVIEW, and its reasoning is non-empty unless the
    structured call returned a valid response whose confidence is at or above
    the threshold and whose own reasoning is empty, which is adopted as it is.
    [assess] raises only what the retriever or the reranker raised. *)
Theorem assess_decision_and_reasoning
    (w : World) (cfg : Settings.t) (incoming_text : string) (log : list Call) :
  match fst (assess w cfg incoming_text log) with
  | Ok res =>
      (NoveltyResult.decision res = PUBLISH
       \/ NoveltyResult.decision res = SKIP
       \/ NoveltyResult.decision res = REVIEW) /\
      (NoveltyResult.reasoning res = EmptyString ->
       exists relevant log2 response,
         reaches_path_C w cfg incoming_text log relevant log2 /\
         novelty_outcome w log2 incoming_text relevant = Ok response /\
         (Settings.novelty_confidence_threshold cfg
          <= NoveltyResponse.confidence response)%Q /\
         NoveltyResponse.reasoning response = EmptyString)
  | Raise e =>
      fst (retrieve w cfg incoming_text None log) = Raise e \/
      exists candidates log1,
        retrieve w cfg incoming_text None log = (Ok candidates, log1) /\
        fst (rerank w cfg incoming_text candidates log1) = Raise e
  end.
Proof.
  assert (forall d : Decision, d = PUBLISH \/ d = SKIP \/ d = REVIEW) as Hdec
    by (intros []; auto).
  destruct (retrieve w cfg incoming_text None log) as [[candidates|e] log1] eqn:Hret.
  2:{ unfold assess, bind. rewrite Hret. simpl. left. reflexivity. }
  destruct candidates as [|c cs].
  { unfold assess, bind. rewrite Hret. simpl. split; [auto|discriminate]. }
  destruct (rerank w cfg incoming_text (c :: cs) log1)
    as [[relevant|e] log2] eqn:Hrr.
  2:{ unfold assess, bind at 1. rewrite Hret. unfold bind. rewrite Hrr. simpl.
      right. exists (c :: cs), log1. rewrite Hrr. split; reflexivity. }
  destruct relevant as [|top rest].
  { unfold assess, bind at 1. rewrite Hret. unfold bind. rewrite Hrr. simpl.
    split; [auto|discriminate]. }
  assert (reaches_path_C w cfg incoming_text log (top :: rest) log2) as Hpath.
  { exists (c :: cs), log1. repeat split; [exact Hret|exact Hrr|discriminate]. }
  rewrite (assess_path_C _ _ _ _ _ _ Hpath), assess_novelty_eq. simpl.
  destruct (novelty_outcome w log2 incoming_text (top :: rest))
    as [response|e] eqn:Hout.
  - split; [apply Hdec|]. unfold success_result. simpl.
    destruct (Qltb (NoveltyResponse.confidence response)
                   (Settings.novelty_confidence_threshold cfg)) eqn:E.
    + intros H. exfalso. exact (low_confidence_marker_nonempty _ H).
    + intros H. apply Qltb_false in E.
      exists (top :: rest), log2, response. auto.
  - split; [apply Hdec|]. simpl. discriminate.
Qed.

Lemma assess_decision_and_reasoning_example :
  exists res,
    fst (assess (one_match_world (publish_reply (9 # 10) "new fee")) settings
                "x" []) = Ok res /\
    (NoveltyResult.decision res = PUBLISH
     \/ NoveltyResult.decision res = SKIP
     \/ NoveltyResult.decision res = REVIEW) /\
    NoveltyResult.reasoning res <> EmptyString.
Proof.
  pose proof (assess_decision_and_reasoning
                (one_match_world (publish_reply (9 # 10) "new fee")) settings
                "x" []) as H.
  assert (fst (assess (one_match_world (publish_reply (9 # 10) "new fee"))
                 settings "x" [])
          = Ok (NoveltyResult.mk "x" PUBLISH (9 # 10) "new fee" [] false
                  (Some "a") (Some (9 # 10)) (Some 1) 1)) as E
    by (vm_compute; reflexivity).
  rewrite E in H. eexists. split; [exact E|].
  split; [exact (proj1 H) | discriminate].
Defined.

(** C9 as stated fails: a confident response with an empty reasoning (the
    default of the field) yields a result whose reasoning is empty. *)
Lemma assess_empty_reasoning :
  exists res log3,
    assess (one_match_world (publish_reply (9 # 10) EmptyString)) settings "x" []
    = (Ok res, log3) /\
    NoveltyResult.decision res = PUBLISH /\
    NoveltyResult.reasoning res = EmptyString.
Proof.
  do 2 eexists. split; [vm_compute; reflexivity|]. split; reflexivity.
Qed.

(** * Further properties of the retrieval *)

(** ** The keys of the fusion dictionaries *)

Lemma In_keys_add ks k k' : In k' (keys_add ks k) <-> k' = k \/ In k' ks.
Proof.
  induction ks as [|k0 ks IH]; simpl.
  - intuition.
  - destruct (k0 =? k) eqn:E; simpl.
    + apply Z.eqb_eq in E. subst. intuition.
    + rewrite IH. intuition.
Qed.

Lemma NoDup_keys_add ks k : NoDup ks -> NoDup (keys_add ks k).
Proof.
  induction 1 as [|k0 ks Hnotin Hnd IH]; simpl.
  - constructor; [intros []|constructor].
  - destruct (k0 =? k) eqn:E.
    + constructor; assumption.
    + apply Z.eqb_neq in E. constructor; [|exact IH].
      rewrite In_keys_add. intros [->|H]; [apply E; reflexivity | auto].
Qed.

Lemma accumulate_key_set which k rank l scores meta scores' meta' :
  accumulate which k rank l scores meta = Ok (scores', meta') ->
  NoDup (dict_keys scores) ->
  NoDup (dict_keys scores') /\
  forall id, In id (dict_keys scores')
             <-> In id (dict_keys scores) \/ In id (map ArticleRecord.id l).
Proof.
  revert rank scores meta. induction l as [|a l IH]; intros rank scores meta H Hnd;
    simpl in *.
  - injection H as <- <-. split; [exact Hnd | tauto].
  - destruct (reciprocal (k + rank)) as [c|e]; [|discriminate].
    apply IH in H.
    + destruct H as [Hnd' Hin]. split; [exact Hnd'|].
      intros id. rewrite Hin, dict_keys_set, In_keys_add. intuition.
    + rewrite dict_keys_set. apply NoDup_keys_add. exact Hnd.
Qed.

(** The dictionary [scores] at the end of a successful fusion. *)
Lemma fuse_rrf_scores_dict k sem kw top_k fused :
  _fuse_rrf k sem kw top_k = Ok fused ->
  exists scores : dict Q,
    (forall id, scores_get scores id
                == contributions k 1 sem id + contributions k 1 kw id)%Q /\
    NoDup (dict_keys scores) /\
    (forall id, In id (dict_keys scores)
                <-> In id (map ArticleRecord.id sem)
                    \/ In id (map ArticleRecord.id kw)) /\
    map RetrievalResult.id fused
      = slice_to top_k (sorted_desc (scores_get scores) (dict_keys scores)) /\
    map RetrievalResult.rrf_score fused
      = map (scores_get scores) (map RetrievalResult.id fused).
Proof.
  unfold _fuse_rrf. intros H.
  destruct (accumulate Semantic k 1 sem [] []) as [[s1 m1]|e] eqn:E1; [|discriminate].
  destruct (accumulate Keyword k 1 kw s1 m1) as [[s2 m2]|e] eqn:E2; [|discriminate].
  exists s2. apply build_results_spec in H. destruct H as [Hid Hsc].
  destruct (accumulate_key_set _ _ _ _ _ _ _ _ E1 (NoDup_nil _)) as [N1 I1].
  destruct (accumulate_key_set _ _ _ _ _ _ _ _ E2 N1) as [N2 I2].
  split; [|split; [exact N2|split; [|split]]].
  - intros id. rewrite (accumulate_scores _ _ _ _ _ _ _ _ E2 id).
    rewrite (accumulate_scores _ _ _ _ _ _ _ _ E1 id).
    unfold scores_get at 1. simpl. ring.
  - intros id. rewrite I2, I1. simpl. tauto.
  - exact Hid.
  - rewrite Hid. exact Hsc.
Qed.

Lemma NoDup_firstn {A : Type} (n : nat) (l : list A) :
  NoDup l -> NoDup (firstn n l).
Proof.
  intros H. revert n. induction H as [|x l Hnotin Hnd IH]; intros [|n]; simpl;
    try constructor.
  - intros Hin. apply Hnotin. eapply In_firstn_In; eauto.
  - apply IH.
Qed.

Lemma NoDup_slice_to {A : Type} (n : Z) (l : list A) :
  NoDup l -> NoDup (slice_to n l).
Proof. unfold slice_to. destruct (n <? 0); apply NoDup_firstn. Qed.

Lemma slice_to_length_min {A : Type} (n : Z) (l : list A) :
  0 <= n ->
  Z.of_nat (List.length (slice_to n l)) = Z.min n (Z.of_nat (List.length l)).
Proof.
  intros Hn. unfold slice_to.
  destruct (n <? 0) eqn:E; [apply Z.ltb_lt in E; lia|].
  rewrite length_firstn. lia.
Qed.

(** ** X1, X2: the ids of the fused list *)

(** X1. A fused list holds each article id at most once, and every id in it
    comes from the semantic or from the keyword list. *)
Theorem fuse_rrf_one_entry_per_id
    (k : Z) (sem kw : list ArticleRecord.t) (top_k : Z)
    (fused : list RetrievalResult.t) :
  _fuse_rrf k sem kw top_k = Ok fused ->
  NoDup (map RetrievalResult.id fused) /\
  forall r, In r fused ->
    In (RetrievalResult.id r) (map ArticleRecord.id sem)
    \/ In (RetrievalResult.id r) (map ArticleRecord.id kw).
Proof.
  intros E.
  destruct (fuse_rrf_scores_dict _ _ _ _ _ E) as (scores & _ & Hnd & Hin & Hids & _).
  split.
  - rewrite Hids. apply NoDup_slice_to.
    eapply Permutation_NoDup; [apply sorted_desc_perm | exact Hnd].
  - intros r Hr. apply Hin.
    assert (In (RetrievalResult.id r) (map RetrievalResult.id fused)) as H
      by (apply in_map; exact Hr).
    rewrite Hids in H. apply In_slice_to, sorted_desc_In in H. exact H.
Qed.

Lemma fuse_rrf_one_entry_per_id_example :
  exists fused,
    _fuse_rrf 60 [art 7 "a"; art 8 "b"; art 7 "a"] [art 8 "b"; art 7 "a"] 5
      = Ok fused /\
    map RetrievalResult.id fused = [7; 8] /\
    NoDup (map RetrievalResult.id fused).
Proof.
  eexists. split; [vm_compute; reflexivity|]. split; [reflexivity|].
  apply (fuse_rrf_one_entry_per_id 60
           [art 7 "a"; art 8 "b"; art 7 "a"] [art 8 "b"; art 7 "a"] 5).
  vm_compute. reflexivity.
Defined.

(** X2. For a non-negative [top_k], a fused list has exactly
    [min(top_k, n)] entries, [n] being the number of distinct article ids in
    the two lists: nothing is lost but by the truncation. *)
Theorem fuse_rrf_length
    (k : Z) (sem kw : list ArticleRecord.t) (top_k : Z)
    (fused : list RetrievalResult.t) :
  0 <= top_k ->
  _fuse_rrf k sem kw top_k = Ok fused ->
  Z.of_nat (List.length fused)
  = Z.min top_k (Z.of_nat (distinct_ids_count sem kw)).
Proof.
  intros Htop E.
  destruct (fuse_rrf_scores_dict _ _ _ _ _ E) as (scores & _ & Hnd & Hin & Hids & _).
  rewrite <- (length_map RetrievalResult.id), Hids.
  rewrite slice_to_length_min by exact Htop.
  rewrite sorted_desc_length. f_equal. f_equal.
  unfold distinct_ids_count. apply Permutation_length.
  apply NoDup_Permutation; [exact Hnd | apply NoDup_nodup|].
  intros id. rewrite Hin, nodup_In, map_app, in_app_iff. tauto.
Qed.

Lemma fuse_rrf_length_example :
  exists fused,
    _fuse_rrf 60 [art 7 "a"; art 8 "b"] [art 9 "c"; art 8 "b"; art 7 "a"] 2
      = Ok fused /\
    Z.of_nat (List.length fused) = Z.min 2 3.
Proof.
  eexists. split; [vm_compute; reflexivity|].
  apply (fuse_rrf_length 60 [art 7 "a"; art 8 "b"]
           [art 9 "c"; art 8 "b"; art 7 "a"] 2); [lia|].
  vm_compute. reflexivity.
Defined.

(** ** X3: the truncation keeps the best scores *)

Lemma descending_app_le {A : Type} (key : A -> Q) (l1 l2 : list A) x y :
  descending key (l1 ++ l2)%list -> In x l1 -> In y l2 -> (key y <= key x)%Q.
Proof.
  unfold descending. induction l1 as [|z l1 IH]; simpl; intros H Hx Hy.
  - contradiction.
  - inversion H as [|? ? Hs Hall]; subst. destruct Hx as [->|Hx].
    + rewrite Forall_forall in Hall. apply Hall. apply in_or_app. right. exact Hy.
    + apply IH; assumption.
Qed.

Lemma slice_to_split {A : Type} (n : Z) (l : list A) :
  exists rest, l = (slice_to n l ++ rest)%list.
Proof.
  unfold slice_to. destruct (n <? 0); eexists; symmetry; apply firstn_skipn.
Qed.

(** X3. An article id of either list that is missing from the fused list has
    a score no larger than the score of any entry of the fused list: the
    truncation drops only the lowest scores. *)
Theorem fuse_rrf_keeps_best
    (k : Z) (sem kw : list ArticleRecord.t) (top_k : Z)
    (fused : list RetrievalResult.t) (id : Z) (r : RetrievalResult.t) :
  _fuse_rrf k sem kw top_k = Ok fused ->
  In id (map ArticleRecord.id sem) \/ In id (map ArticleRecord.id kw) ->
  ~ In id (map RetrievalResult.id fused) ->
  In r fused ->
  (contributions k 1 sem id + contributions k 1 kw id
   <= RetrievalResult.rrf_score r)%Q.
Proof.
  intros E Hid Hmiss Hr.
  destruct (fuse_rrf_scores_dict _ _ _ _ _ E)
    as (scores & Hsc & _ & Hin & Hids & Hscores).
  set (sorted := sorted_desc (scores_get scores) (dict_keys scores)) in *.
  destruct (slice_to_split top_k sorted) as [rest Hsplit].
  assert (In id sorted) as Hs by (apply sorted_desc_In, Hin; exact Hid).
  rewrite Hsplit, <- Hids in Hs. apply in_app_or in Hs.
  destruct Hs as [Hs|Hs]; [contradiction|].
  assert (In (RetrievalResult.id r) (slice_to top_k sorted)) as Hrid
    by (rewrite <- Hids; apply in_map; exact Hr).
  assert (RetrievalResult.rrf_score r
          = scores_get scores (RetrievalResult.id r)) as ->.
  { rewrite map_map in Hscores. clear - Hscores Hr.
    induction fused as [|x fused IH]; simpl in *; [contradiction|].
    injection Hscores as Hx Hrest. destruct Hr as [<-|Hr]; auto. }
  rewrite <- Hsc.
  apply (descending_app_le (scores_get scores) (slice_to top_k sorted) rest);
    [|exact Hrid|exact Hs].
  rewrite <- Hsplit. apply sorted_desc_descending.
Qed.

Lemma fuse_rrf_keeps_best_example :
  exists fused r,
    _fuse_rrf 60 [art 7 "a"; art 8 "b"] [art 9 "c"; art 8 "b"; art 7 "a"] 2
      = Ok fused /\
    In r fused /\ RetrievalResult.id r = 8 /\
    ~ In 9 (map RetrievalResult.id fused) /\
    (contributions 60 1 [art 7 "a"; art 8 "b"] 9
     + contributions 60 1 [art 9 "c"; art 8 "b"; art 7 "a"] 9
     <= RetrievalResult.rrf_score r)%Q.
Proof.
  assert (_fuse_rrf 60 [art 7 "a"; art 8 "b"] [art 9 "c"; art 8 "b"; art 7 "a"] 2
          = Ok [RetrievalResult.mk 7 "a" (124 # 3843) (Some 1) (Some 3)
                  (Some 0%Q) (Some 0%Q);
                RetrievalResult.mk 8 "b" (124 # 3844) (Some 2) (Some 2)
                  (Some 0%Q) (Some 0%Q)]) as E by (vm_compute; reflexivity).
  assert (~ In 9 (map RetrievalResult.id
                    [RetrievalResult.mk 7 "a" (124 # 3843) (Some 1) (Some 3)
                       (Some 0%Q) (Some 0%Q);
                     RetrievalResult.mk 8 "b" (124 # 3844) (Some 2) (Some 2)
                       (Some 0%Q) (Some 0%Q)])) as Hmiss
    by (simpl; intuition discriminate).
  do 2 eexists. split; [exact E|].
  split; [right; left; reflexivity|]. split; [reflexivity|].
  split; [exact Hmiss|].
  apply (fuse_rrf_keeps_best 60 _ _ 2 _ 9 _ E);
    [right; left; reflexivity | exact Hmiss | right; left; reflexivity].
Defined.

(** ** X4: when the fusion raises *)

(** X4. The fusion raises exactly when [1.0 / (rrf_k + rank)] raises at a
    rank of one of the two lists: a [ZeroDivisionError] where [rrf_k + rank]
    is zero, an [OverflowError] where its absolute value is too large for a
    float. In every other case, negative constants included, it returns a
    list. *)
Theorem fuse_rrf_raises_iff_bad_denominator
    (k : Z) (sem kw : list ArticleRecord.t) (top_k : Z) :
  match _fuse_rrf k sem kw top_k with
  | Raise e =>
      exists rank,
        rank_of_a_list sem kw rank /\ division_error (k + rank) e
  | Ok _ =>
      forall rank, rank_of_a_list sem kw rank -> ~ bad_denominator (k + rank)
  end.
Proof.
  destruct (_fuse_rrf k sem kw top_k) as [fused|e] eqn:E.
  - apply (fuse_rrf_Ok_good _ _ _ _ _ E).
  - apply (fuse_rrf_Raise _ _ _ _ _ E).
Qed.

(** [rrf_k = -2] meets a zero denominator at rank 2, [rrf_k = -3] meets none
    in a list of two, and [rrf_k = 10^309] is too large for a float. *)
Lemma fuse_rrf_raises_example :
  (exists e,
     _fuse_rrf (-2) [art 1 "a"; art 2 "b"] [] 5 = Raise e /\
     exc_kind e = ZeroDivisionError) /\
  (exists fused, _fuse_rrf (-3) [art 1 "a"; art 2 "b"] [] 5 = Ok fused) /\
  (exists e,
     _fuse_rrf (10 ^ 309) [art 1 "a"] [] 5 = Raise e /\
     exc_kind e = OverflowError).
Proof.
  pose proof (fuse_rrf_raises_iff_bad_denominator (-2)
                [art 1 "a"; art 2 "b"] [] 5) as H1.
  pose proof (fuse_rrf_raises_iff_bad_denominator (-3)
                [art 1 "a"; art 2 "b"] [] 5) as H2.
  pose proof (fuse_rrf_raises_iff_bad_denominator (10 ^ 309)
                [art 1 "a"] [] 5) as H3.
  split; [|split].
  - destruct (_fuse_rrf (-2) [art 1 "a"; art 2 "b"] [] 5) as [fused|e].
    + exfalso. apply (H1 2); [left; simpl; lia | left; reflexivity].
    + exists e. split; [reflexivity|].
      destruct H1 as (rank & Hr & [[_ He]|[Hl _]]); [exact He|].
      exfalso. pose proof float_limit_pos as Hpos.
      assert (Z.abs (-2 + rank) <= 2) as Hsmall
        by (destruct Hr as [Hr|Hr]; simpl in Hr; lia).
      assert (2 < float_limit) as Hbig by (vm_compute; reflexivity).
      lia.
  - destruct (_fuse_rrf (-3) [art 1 "a"; art 2 "b"] [] 5) as [fused|e].
    + eexists. reflexivity.
    + exfalso. destruct H2 as (rank & Hr & He).
      apply division_error_bad in He.
      assert (2 < float_limit) as Hbig by (vm_compute; reflexivity).
      destruct He as [He|He]; destruct Hr as [Hr|Hr]; simpl in Hr; lia.
  - destruct (_fuse_rrf (10 ^ 309) [art 1 "a"] [] 5) as [fused|e].
    + exfalso. apply (H3 1); [left; simpl; lia|].
      right. vm_compute. discriminate.
    + exists e. split; [reflexivity|].
      destruct H3 as (rank & Hr & [[H0 _]|[_ He]]); [|exact He].
      exfalso. assert (0 < 10 ^ 309) as Hpos by (vm_compute; reflexivity).
      destruct Hr as [Hr|Hr]; simpl in Hr; lia.
Defined.

(** ** X5: the metadata attached to a fused entry *)

Lemma find_article_absent id l :
  ~ In id (map ArticleRecord.id l) -> find_article id l = None.
Proof.
  induction l as [|a l IH]; simpl; intros H; [reflexivity|].
  destruct (ArticleRecord.id a =? id) eqn:E.
  - apply Z.eqb_eq in E. tauto.
  - apply IH. tauto.
Qed.

Lemma rank_from_absent rank id l :
  ~ In id (map ArticleRecord.id l) -> rank_from rank id l = None.
Proof.
  revert rank. induction l as [|a l IH]; simpl; intros rank H; [reflexivity|].
  destruct (ArticleRecord.id a =? id) eqn:E.
  - apply Z.eqb_eq in E. tauto.
  - apply IH. tauto.
Qed.

Lemma rank_from_find rank id l :
  rank_from rank id l = None <-> find_article id l = None.
Proof.
  revert rank. induction l as [|a l IH]; simpl; intros rank; [tauto|].
  destruct (ArticleRecord.id a =? id); [split; discriminate | apply IH].
Qed.

Lemma dict_get_meta_record which meta a rank id :
  dict_get (meta_record which meta a rank) id
  = if ArticleRecord.id a =? id
    then Some (meta_after which (dict_get meta (ArticleRecord.id a)) a rank)
    else dict_get meta id.
Proof.
  unfold meta_record. rewrite dict_get_set.
  destruct (ArticleRecord.id a =? id); [|reflexivity].
  unfold meta_after. destruct which; reflexivity.
Qed.

(** The entry of [meta] for an id after one loop over a list of distinct ids. *)
Lemma accumulate_meta which k rank l scores meta scores' meta' :
  NoDup (map ArticleRecord.id l) ->
  accumulate which k rank l scores meta = Ok (scores', meta') ->
  forall id,
    dict_get meta' id
    = match find_article id l, rank_from rank id l with
      | Some a, Some r => Some (meta_after which (dict_get meta id) a r)
      | _, _ => dict_get meta id
      end.
Proof.
  revert rank scores meta. induction l as [|a l IH];
    intros rank scores meta Hnd H id; simpl in *.
  - injection H as <- <-. reflexivity.
  - inversion Hnd as [|? ? Hnotin Hnd']; subst.
    destruct (reciprocal (k + rank)) as [c|e]; [|discriminate].
    rewrite (IH _ _ _ Hnd' H id), dict_get_meta_record.
    destruct (ArticleRecord.id a =? id) eqn:E.
    + apply Z.eqb_eq in E. subst id.
      rewrite (find_article_absent _ _ Hnotin). reflexivity.
    + reflexivity.
Qed.

Lemma build_results_fields scores meta ids rs :
  build_results scores meta ids = Ok rs ->
  forall r, In r rs ->
    exists m,
      dict_get meta (RetrievalResult.id r) = Some m /\
      RetrievalResult.text r = m_text m /\
      RetrievalResult.semantic_rank r = m_semantic_rank m /\
      RetrievalResult.keyword_rank r = m_keyword_rank m /\
      RetrievalResult.semantic_score r = m_semantic_score m /\
      RetrievalResult.keyword_score r = m_keyword_score m.
Proof.
  revert rs. induction ids as [|did ids IH]; intros rs H r Hr; simpl in *.
  - injection H as <-. contradiction.
  - destruct (dict_get meta did) as [m|] eqn:Em; [|discriminate].
    destruct (build_results scores meta ids) as [rs'|e]; [|discriminate].
    injection H as <-. destruct Hr as [<-|Hr].
    + exists m. simpl. split; [exact Em|]. repeat split.
    + apply (IH rs' eq_refl r Hr).
Qed.

(** X5. When each ranked list holds distinct ids, a fused entry carries, for
    each list, the 1-based rank of its id in that list and the raw score of
    that row (both absent if the list misses the id), and its text is the text
    of the row of the semantic list, or of the keyword list if the semantic
    list misses the id. *)
Theorem fuse_rrf_metadata
    (k : Z) (sem kw : list ArticleRecord.t) (top_k : Z)
    (fused : list RetrievalResult.t) (r : RetrievalResult.t) :
  NoDup (map ArticleRecord.id sem) ->
  NoDup (map ArticleRecord.id kw) ->
  _fuse_rrf k sem kw top_k = Ok fused ->
  In r fused ->
  RetrievalResult.semantic_rank r = rank_in (RetrievalResult.id r) sem /\
  RetrievalResult.keyword_rank r = rank_in (RetrievalResult.id r) kw /\
  RetrievalResult.semantic_score r
  = option_map ArticleRecord.score (find_article (RetrievalResult.id r) sem) /\
  RetrievalResult.keyword_score r
  = option_map ArticleRecord.score (find_article (RetrievalResult.id r) kw) /\
  Some (RetrievalResult.text r)
  = option_map ArticleRecord.text (first_seen (RetrievalResult.id r) sem kw).
Proof.
  intros Hsem Hkw E Hr. unfold _fuse_rrf in E.
  destruct (accumulate Semantic k 1 sem [] []) as [[s1 m1]|e] eqn:E1; [|discriminate].
  destruct (accumulate Keyword k 1 kw s1 m1) as [[s2 m2]|e] eqn:E2; [|discriminate].
  destruct (build_results_fields _ _ _ _ E r Hr)
    as (m & Hm & -> & -> & -> & -> & ->).
  rewrite (accumulate_meta _ _ _ _ _ _ _ _ Hkw E2) in Hm.
  rewrite (accumulate_meta _ _ _ _ _ _ _ _ Hsem E1) in Hm.
  unfold rank_in, first_seen. simpl in Hm.
  pose proof (rank_from_find 1 (RetrievalResult.id r) sem) as Fs.
  pose proof (rank_from_find 1 (RetrievalResult.id r) kw) as Fk.
  destruct (find_article (RetrievalResult.id r) sem) as [a|];
    destruct (rank_from 1 (RetrievalResult.id r) sem) as [ra|];
    try (exfalso; destruct Fs as [F1 F2];
         first [specialize (F1 eq_refl) | specialize (F2 eq_refl)];
         discriminate);
    destruct (find_article (RetrievalResult.id r) kw) as [b|];
    destruct (rank_from 1 (RetrievalResult.id r) kw) as [rb|];
    try (exfalso; destruct Fk as [F1 F2];
         first [specialize (F1 eq_refl) | specialize (F2 eq_refl)];
         discriminate);
    try discriminate;
    injection Hm as <-; simpl; repeat split; reflexivity.
Qed.

Lemma fuse_rrf_metadata_example :
  exists fused r,
    _fuse_rrf 60 [ArticleRecord.mk 7 "a" (8 # 10); ArticleRecord.mk 8 "b" (7 # 10)]
              [ArticleRecord.mk 9 "c" (3 # 10); ArticleRecord.mk 7 "a" (1 # 10)] 5
      = Ok fused /\
    In r fused /\ RetrievalResult.id r = 9 /\
    RetrievalResult.semantic_rank r = None /\
    RetrievalResult.keyword_rank r = Some 1 /\
    RetrievalResult.semantic_score r = None /\
    RetrievalResult.keyword_score r = Some (3 # 10) /\
    Some (RetrievalResult.text r) = Some "c".
Proof.
  assert (exists fused,
            _fuse_rrf 60 [ArticleRecord.mk 7 "a" (8 # 10);
                          ArticleRecord.mk 8 "b" (7 # 10)]
                      [ArticleRecord.mk 9 "c" (3 # 10);
                       ArticleRecord.mk 7 "a" (1 # 10)] 5 = Ok fused /\
            In (RetrievalResult.mk 9 "c" (0 + 1 # 61) None (Some 1) None
                  (Some (3 # 10))) fused) as (fused & E & Hin).
  { eexists. split; [vm_compute; reflexivity|]. right. left. reflexivity. }
  exists fused, (RetrievalResult.mk 9 "c" (0 + 1 # 61) None (Some 1) None
                   (Some (3 # 10))).
  split; [exact E|]. split; [exact Hin|]. split; [reflexivity|].
  refine (fuse_rrf_metadata 60 _ _ 5 fused _ _ _ E Hin); distinct_ids.
Defined.

(** ** X7, X8: the calls and the failures of [retrieve] *)

(** X7. [retrieve] embeds the query once; if the embedding raises it makes no
    other call. Otherwise it runs the semantic and then the keyword query,
    with the same limit, inside one session: when the semantic query raises,
    the keyword query is not made; when a query raises, nothing is committed
    and the session is rolled back; when both queries return, the session is
    committed, and rolled back exactly when the commit raises. The session is
    closed last in every case. A retrieval that returns has committed and
    closed its session without an exception. *)
Theorem retrieve_session_discipline
    (w : World) (cfg : Settings.t) (query_text : string) (top_k : option Z)
    (log : list Call) :
  let n := top_k_or cfg top_k in
  let e_ := CallEmbed query_text in
  let k_ := CallSearchKeyword query_text n in
  exists calls,
    snd (retrieve w cfg query_text top_k log) = (log ++ calls)%list /\
    match embed w log query_text with
    | Raise _ => calls = [e_]
    | Ok v =>
        let s_ := CallSearchSemantic v n in
        match search_semantic w (log ++ [e_])%list v n with
        | Raise _ => calls = [e_; s_; CallRollback; CallClose]
        | Ok _ =>
            match search_keyword w ((log ++ [e_]) ++ [s_])%list query_text n with
            | Raise _ => calls = [e_; s_; k_; CallRollback; CallClose]
            | Ok _ =>
                match commit w (((log ++ [e_]) ++ [s_]) ++ [k_])%list with
                | Raise _ =>
                    calls = [e_; s_; k_; CallCommit; CallRollback; CallClose]
                | Ok _ =>
                    calls = [e_; s_; k_; CallCommit; CallClose] /\
                    (forall fused,
                       fst (retrieve w cfg query_text top_k log) = Ok fused ->
                       close w ((((log ++ [e_]) ++ [s_]) ++ [k_])
                                ++ [CallCommit])%list = Ok tt)
                end
            end
        end
    end /\
    (forall fused,
       fst (retrieve w cfg query_text top_k log) = Ok fused ->
       exists v,
         calls = [e_; CallSearchSemantic v n; k_; CallCommit; CallClose]).
Proof.
  intros n e_ k_. subst n e_ k_.
  unfold retrieve, with_session, closed, rolled_back, bind, call, lift, ret.
  destruct (embed w log query_text) as [v|e].
  - destruct (search_semantic w _ v _) as [sem|e].
    + destruct (search_keyword w _ query_text _) as [kw|e].
      * destruct (commit w _) as [[]|e].
        -- eexists. split; [|split; [split; [reflexivity|]|]].
           ++ destruct (close w _); simpl; rewrite <- !app_assoc; reflexivity.
           ++ intros fused. destruct (close w _) as [[]|e]; simpl;
                [reflexivity | discriminate].
           ++ intros fused _. exists v. reflexivity.
        -- eexists. split; [|split; [reflexivity|]].
           ++ destruct (rollback w _), (close w _); simpl;
                rewrite <- !app_assoc; reflexivity.
           ++ intros fused. destruct (rollback w _), (close w _); simpl;
                discriminate.
      * eexists. split; [|split; [reflexivity|]].
        -- destruct (rollback w _), (close w _); simpl;
             rewrite <- !app_assoc; reflexivity.
        -- intros fused. destruct (rollback w _), (close w _); simpl;
             discriminate.
    + eexists. split; [|split; [reflexivity|]].
      * destruct (rollback w _), (close w _); simpl;
          rewrite <- !app_assoc; reflexivity.
      * intros fused. destruct (rollback w _), (close w _); simpl;
          discriminate.
  - eexists. split; [|split; [reflexivity|]].
    + simpl. reflexivity.
    + intros fused. simpl. discriminate.
Qed.

(** X8. What [retrieve] raises is what one of its collaborators raised,
    unchanged: the embedding provider, one of the two store queries, the
    commit, or the rollback or the close of the session, whose exception takes
    the place of the one being propagated. Or else it is what the fusion of
    the two store answers raised: the [ZeroDivisionError] or the
    [OverflowError] of [1.0 / (rrf_k + rank)] at a rank of one of them. *)
Theorem retrieve_raises_what_a_collaborator_raised
    (w : World) (cfg : Settings.t) (query_text : string) (top_k : option Z)
    (log : list Call) (e : PyExc) :
  fst (retrieve w cfg query_text top_k log) = Raise e ->
  (exists l, embed w l query_text = Raise e)
  \/ (exists l v, search_semantic w l v (top_k_or cfg top_k) = Raise e)
  \/ (exists l, search_keyword w l query_text (top_k_or cfg top_k) = Raise e)
  \/ (exists l, commit w l = Raise e)
  \/ (exists l, rollback w l = Raise e)
  \/ (exists l, close w l = Raise e)
  \/ (exists l1 v sem l2 kw rank,
        search_semantic w l1 v (top_k_or cfg top_k) = Ok sem /\
        search_keyword w l2 query_text (top_k_or cfg top_k) = Ok kw /\
        rank_of_a_list sem kw rank /\
        division_error (Settings.rrf_k cfg + rank) e).
Proof.
  unfold retrieve, with_session, closed, rolled_back, bind, call, lift, ret.
  destruct (embed w log query_text) as [v|e0] eqn:Ev.
  - destruct (search_semantic w _ v _) as [sem|e0] eqn:Es.
    + destruct (search_keyword w _ query_text _) as [kw|e0] eqn:Ek.
      * destruct (commit w _) as [[]|e0] eqn:Ec.
        -- destruct (close w _) as [[]|e1] eqn:Ecl; simpl.
           ++ intros H. do 6 right.
              destruct (fuse_rrf_Raise _ _ _ _ _ H) as (rank & Hr & He).
              exists (log ++ [CallEmbed query_text])%list, v, sem.
              eexists. exists kw, rank.
              split; [exact Es|]. split; [exact Ek|].
              split; [exact Hr | exact He].
           ++ intros [= <-]. do 5 right. left. eauto.
        -- destruct (rollback w _) as [[]|e1] eqn:Erb;
             destruct (close w _) as [[]|e2] eqn:Ecl; simpl; intros [= <-].
           ++ do 3 right. left. eauto.
           ++ do 5 right. left. eauto.
           ++ do 4 right. left. eauto.
           ++ do 5 right. left. eauto.
      * destruct (rollback w _) as [[]|e1] eqn:Erb;
          destruct (close w _) as [[]|e2] eqn:Ecl; simpl; intros [= <-].
        -- do 2 right. left. eauto.
        -- do 5 right. left. eauto.
        -- do 4 right. left. eauto.
        -- do 5 right. left. eauto.
    + destruct (rollback w _) as [[]|e1] eqn:Erb;
        destruct (close w _) as [[]|e2] eqn:Ecl; simpl; intros [= <-].
      * right. left. eauto.
      * do 5 right. left. eauto.
      * do 4 right. left. eauto.
      * do 5 right. left. eauto.
  - simpl. intros [= <-]. left. eauto.
Qed.

(** The embedding provider times out: [retrieve] raises that timeout. *)
Lemma retrieve_raises_example :
  fst (retrieve embedding_down_world settings "x" None []) = Raise timeout_error /\
  ((exists l, embed embedding_down_world l "x" = Raise timeout_error)
   \/ (exists l v, search_semantic embedding_down_world l v
                     (top_k_or settings None) = Raise timeout_error)
   \/ (exists l, search_keyword embedding_down_world l "x"
                   (top_k_or settings None) = Raise timeout_error)
   \/ (exists l, commit embedding_down_world l = Raise timeout_error)
   \/ (exists l, rollback embedding_down_world l = Raise timeout_error)
   \/ (exists l, close embedding_down_world l = Raise timeout_error)
   \/ (exists l1 v sem l2 kw rank,
         search_semantic embedding_down_world l1 v (top_k_or settings None)
         = Ok sem /\
         search_keyword embedding_down_world l2 "x" (top_k_or settings None)
         = Ok kw /\
         rank_of_a_list sem kw rank /\
         division_error (Settings.rrf_k settings + rank) timeout_error)).
Proof.
  split; [reflexivity|].
  apply (retrieve_raises_what_a_collaborator_raised
           embedding_down_world settings "x" None []).
  reflexivity.
Defined.

(** ** X9: [get_top_k_similar] *)

Lemma retrieve_length w cfg query_text top_k log fused log1 :
  retrieve w cfg query_text top_k log = (Ok fused, log1) ->
  0 <= top_k_or cfg top_k ->
  Z.of_nat (List.length fused) <= top_k_or cfg top_k.
Proof.
  intros H Hn. apply retrieve_Ok in H.
  destruct H as (v & ls & sem & lk & kw & _ & _ & _ & E).
  destruct (fuse_rrf_Ok _ _ _ _ _ E) as (scores & _ & Hids & _ & _).
  rewrite <- (length_map RetrievalResult.id), Hids.
  apply slice_to_length. exact Hn.
Qed.

(** X9. For a positive [top_k], [get_top_k_similar] returns exactly what
    [retrieve] returns for that [top_k]: its final slice removes nothing. For
    [top_k = 0] the retrieval runs with the default [top_k] of the settings,
    and the final slice then throws all of its results away. *)
Theorem get_top_k_similar_slice :
  (forall w cfg text top_k log,
     0 < top_k ->
     get_top_k_similar w cfg text (Some top_k) log
     = retrieve w cfg text (Some top_k) log) /\
  (forall w cfg text log,
     get_top_k_similar w cfg text (Some 0) log
     = match retrieve w cfg text None log with
       | (Ok _, log1) => (Ok [], log1)
       | (Raise e, log1) => (Raise e, log1)
       end).
Proof.
  split.
  - intros w cfg text top_k log Hpos. unfold get_top_k_similar, bind, ret.
    destruct (retrieve w cfg text (Some top_k) log) as [[fused|e] log1] eqn:E;
      [|reflexivity].
    apply retrieve_length in E.
    + assert (top_k_or cfg (Some top_k) = top_k) as Htk.
      { simpl. destruct (top_k =? 0) eqn:E0; [|reflexivity].
        apply Z.eqb_eq in E0. lia. }
      rewrite Htk in E. unfold slice_to.
      destruct (top_k <? 0) eqn:E1; [apply Z.ltb_lt in E1; lia|].
      rewrite firstn_all2 by lia. reflexivity.
    + simpl. destruct (top_k =? 0) eqn:E0; [apply Z.eqb_eq in E0|]; lia.
  - intros w cfg text log. unfold get_top_k_similar, bind, ret.
    change (retrieve w cfg text (Some 0) log) with (retrieve w cfg text None log).
    destruct (retrieve w cfg text None log) as [[fused|e] log1]; reflexivity.
Qed.

Lemma get_top_k_similar_example :
  get_top_k_similar (one_match_world (InvalidJSON "x")) settings "x" (Some 3) []
  = retrieve (one_match_world (InvalidJSON "x")) settings "x" (Some 3) [] /\
  fst (get_top_k_similar (one_match_world (InvalidJSON "x")) settings "x"
         (Some 0) []) = Ok [].
Proof.
  split.
  - apply (proj1 get_top_k_similar_slice). lia.
  - rewrite (proj2 get_top_k_similar_slice). reflexivity.
Defined.

(** * Further properties of the reranker *)

Lemma rerank_loop_app w threshold query_text pre rest ranked log :
  rerank_loop w threshold query_text (pre ++ rest)%list ranked log
  = match rerank_loop w threshold query_text pre ranked log with
    | (Ok ranked1, log1) => rerank_loop w threshold query_text rest ranked1 log1
    | (Raise e, log1) => (Raise e, log1)
    end.
Proof.
  revert ranked log. induction pre as [|c pre IH]; intros ranked log.
  - reflexivity.
  - cbn [app]. rewrite !rerank_loop_cons.
    destruct (rerank_candidate w threshold query_text c ranked log)
      as [[ranked1|e] log1]; [apply IH | reflexivity].
Qed.

Lemma entry_ok_id threshold candidates r :
  entry_ok threshold candidates r ->
  In (RankedResult.id r) (map RetrievalResult.id candidates).
Proof.
  intros (c & Hin & [(response & -> & _)| ->]); simpl;
    apply in_map; exact Hin.
Qed.

(** ** X10: one LLM call per candidate *)

Lemma rerank_loop_Raise_calls w threshold query_text candidates ranked log e log' :
  rerank_loop w threshold query_text candidates ranked log = (Raise e, log') ->
  exists pre c post,
    candidates = (pre ++ c :: post)%list /\
    log' = (log ++ map (reranker_call query_text) (pre ++ [c]))%list /\
    ~ unit_score c.
Proof.
  revert ranked log. induction candidates as [|c rest IH]; intros ranked log H.
  - discriminate.
  - rewrite rerank_loop_cons, rerank_candidate_eq in H.
    assert (forall ranked1,
              rerank_loop w threshold query_text rest ranked1
                (log ++ [reranker_call query_text c])%list = (Raise e, log') ->
              exists pre c0 post,
                c :: rest = (pre ++ c0 :: post)%list /\
                log' = (log ++ map (reranker_call query_text) (pre ++ [c0]))%list /\
                ~ unit_score c0) as Hnext.
    { intros ranked1 H1. apply IH in H1.
      destruct H1 as (pre & c0 & post & -> & -> & Hc0).
      exists (c :: pre), c0, post. rewrite <- app_assoc. auto. }
    destruct (reranker_outcome w log query_text c) as [response|e0].
    + destruct (Qle_bool threshold (RerankerResponse.relevance response));
        apply (Hnext _ H).
    + destruct (in_unit_interval (RetrievalResult.rrf_score c)) eqn:E.
      * apply (Hnext _ H).
      * injection H as <- <-. exists [], c, rest.
        repeat split. unfold unit_score. congruence.
Qed.

(** X10. [rerank] asks the LLM once per candidate, in the order of the
    candidate list, and makes no other call. When it raises, it has asked for
    the candidates up to the one whose fallback entry failed to validate, and
    for none after it. *)
Theorem rerank_one_call_per_candidate
    (w : World) (cfg : Settings.t) (query_text : string)
    (candidates : list RetrievalResult.t) (log : list Call) :
  match rerank w cfg query_text candidates log with
  | (Ok _, log') =>
      log' = (log ++ map (reranker_call query_text) candidates)%list
  | (Raise _, log') =>
      exists pre c post,
        candidates = (pre ++ c :: post)%list /\
        log' = (log ++ map (reranker_call query_text) (pre ++ [c]))%list /\
        ~ unit_score c
  end.
Proof.
  rewrite rerank_eq.
  destruct (rerank_loop w (Settings.reranker_relevance_threshold cfg)
              query_text candidates [] log) as [[ranked|e] log'] eqn:E.
  - apply rerank_loop_Ok in E. destruct E as (_ & _ & _ & _ & ->). reflexivity.
  - apply rerank_loop_Raise_calls in E. exact E.
Qed.

(** ** X11: a scored candidate is kept exactly when it reaches the threshold *)

(** X11. Let the candidates have distinct ids and let [rerank] return. For a
    candidate whose LLM call succeeded, the output holds an entry with its id
    exactly when the reported relevance is at or above the threshold, and that
    entry then carries the reported relevance and reason. *)
Theorem rerank_keeps_iff_relevant
    (w : World) (cfg : Settings.t) (query_text : string)
    (pre : list RetrievalResult.t) (c : RetrievalResult.t)
    (post : list RetrievalResult.t) (log : list Call)
    (out : list RankedResult.t) (log' : list Call)
    (response : RerankerResponse.t) (r : RankedResult.t) :
  NoDup (map RetrievalResult.id (pre ++ c :: post)%list) ->
  rerank w cfg query_text (pre ++ c :: post)%list log = (Ok out, log') ->
  reranker_outcome w (log ++ map (reranker_call query_text) pre)%list
                   query_text c = Ok response ->
  (In r out /\ RankedResult.id r = RetrievalResult.id c)
  <-> (r = scored_result c response /\
       (Settings.reranker_relevance_threshold cfg
        <= RerankerResponse.relevance response)%Q).
Proof.
  intros Hnd Hrr Hout. rewrite rerank_eq in Hrr.
  destruct (rerank_loop w (Settings.reranker_relevance_threshold cfg)
              query_text (pre ++ c :: post)%list [] log)
    as [[ranked|e] log1] eqn:E; [|discriminate].
  injection Hrr as <- <-.
  rewrite rerank_loop_app in E.
  destruct (rerank_loop w (Settings.reranker_relevance_threshold cfg)
              query_text pre [] log) as [[r1|e] l1] eqn:E1; [|discriminate].
  apply rerank_loop_Ok in E1. destruct E1 as (added1 & -> & _ & Hall1 & ->).
  rewrite rerank_loop_cons, rerank_candidate_eq, Hout in E.
  rewrite map_app in Hnd. apply NoDup_remove in Hnd. simpl in Hnd.
  destruct Hnd as [_ Hnotin].
  assert (forall x, In x added1 -> RankedResult.id x <> RetrievalResult.id c)
    as Hpre.
  { intros x Hx Heq. rewrite Forall_forall in Hall1.
    apply Hall1, entry_ok_id in Hx. rewrite Heq in Hx.
    apply Hnotin, in_or_app. left. exact Hx. }
  assert (forall added3,
            Forall (entry_ok (Settings.reranker_relevance_threshold cfg) post)
                   added3 ->
            forall x, In x added3 -> RankedResult.id x <> RetrievalResult.id c)
    as Hpost.
  { intros added3 Hall3 x Hx Heq. rewrite Forall_forall in Hall3.
    apply Hall3, entry_ok_id in Hx. rewrite Heq in Hx.
    apply Hnotin, in_or_app. right. exact Hx. }
  rewrite sorted_desc_In.
  destruct (Qle_bool (Settings.reranker_relevance_threshold cfg)
                     (RerankerResponse.relevance response)) eqn:Ethr.
  - apply rerank_loop_Ok in E. destruct E as (added3 & -> & _ & Hall3 & _).
    apply Qle_bool_iff in Ethr. simpl. split.
    + intros [Hin Hid]. split; [|exact Ethr].
      rewrite !in_app_iff in Hin. simpl in Hin.
      destruct Hin as [[Hin|[<-|[]]]|Hin].
      * exfalso. apply (Hpre r Hin Hid).
      * reflexivity.
      * exfalso. apply (Hpost added3 Hall3 r Hin Hid).
    + intros [-> _]. split; [|reflexivity].
      rewrite !in_app_iff. left. right. left. reflexivity.
  - apply rerank_loop_Ok in E. destruct E as (added3 & -> & _ & Hall3 & _).
    simpl. split.
    + intros [Hin Hid]. exfalso. rewrite !in_app_iff in Hin.
      destruct Hin as [Hin|Hin].
      * apply (Hpre r Hin Hid).
      * apply (Hpost added3 Hall3 r Hin Hid).
    + intros [_ Hge]. apply Qle_bool_iff in Hge. congruence.
Qed.

Lemma rerank_keeps_iff_relevant_example :
  (In (RankedResult.mk 3 "a" (1 # 63) (9 # 10) "same story" (Some 3) None)
      [RankedResult.mk 3 "a" (1 # 63) (9 # 10) "same story" (Some 3) None;
       RankedResult.mk 1 "c" (1 # 61) (1 # 61) reranker_fallback (Some 1) None]
   /\ RankedResult.id
        (RankedResult.mk 3 "a" (1 # 63) (9 # 10) "same story" (Some 3) None)
      = RetrievalResult.id (cand 3 "a" (1 # 63)))
  <-> (RankedResult.mk 3 "a" (1 # 63) (9 # 10) "same story" (Some 3) None
       = scored_result (cand 3 "a" (1 # 63))
           (RerankerResponse.mk (9 # 10) "same story") /\
       (Settings.reranker_relevance_threshold settings <= 9 # 10)%Q).
Proof.
  eapply (rerank_keeps_iff_relevant
            (fixed_world [] [] (mixed_reply "q") (InvalidJSON "x")) settings "q"
            [cand 1 "c" (1 # 61); cand 2 "b" (1 # 62)] (cand 3 "a" (1 # 63)) []
            []).
  - distinct_ids.
  - vm_compute. reflexivity.
  - vm_compute. reflexivity.
Defined.

(** ** X12: the output entries are the candidates *)

Lemma NoDup_app_move {A : Type} (l1 l2 : list A) x :
  NoDup (l1 ++ x :: l2)%list -> NoDup ((l1 ++ [x]) ++ l2)%list.
Proof. rewrite <- app_assoc. trivial. Qed.

Lemma rerank_loop_NoDup w threshold query_text candidates ranked log out log' :
  rerank_loop w threshold query_text candidates ranked log = (Ok out, log') ->
  NoDup (map RankedResult.id ranked ++ map RetrievalResult.id candidates)%list ->
  NoDup (map RankedResult.id out).
Proof.
  revert ranked log. induction candidates as [|c rest IH]; intros ranked log H Hnd.
  - injection H as <- <-. simpl in Hnd. rewrite app_nil_r in Hnd. exact Hnd.
  - rewrite rerank_loop_cons, rerank_candidate_eq in H. cbn [map] in Hnd.
    assert (NoDup (map RankedResult.id ranked ++ map RetrievalResult.id rest)%list)
      as Hdrop by (apply NoDup_remove_1 in Hnd; exact Hnd).
    destruct (reranker_outcome w log query_text c) as [response|e0].
    + destruct (Qle_bool threshold (RerankerResponse.relevance response)).
      * apply IH in H; [exact H|]. rewrite map_app. simpl.
        apply NoDup_app_move. exact Hnd.
      * apply IH in H; assumption.
    + destruct (in_unit_interval (RetrievalResult.rrf_score c)); [|discriminate].
      apply IH in H; [exact H|]. rewrite map_app. simpl.
      apply NoDup_app_move. exact Hnd.
Qed.

(** X12. Every entry that [rerank] returns is one of the candidates, with its
    id, text, fusion score and ranks unchanged; and when the candidates have
    distinct ids, so have the entries, so that no candidate is returned
    twice. *)
Theorem rerank_returns_candidates
    (w : World) (cfg : Settings.t) (query_text : string)
    (candidates : list RetrievalResult.t) (log : list Call)
    (out : list RankedResult.t) (log' : list Call) :
  rerank w cfg query_text candidates log = (Ok out, log') ->
  (forall r, In r out ->
     exists c, In c candidates /\
       RankedResult.id r = RetrievalResult.id c /\
       RankedResult.text r = RetrievalResult.text c /\
       RankedResult.rrf_score r = RetrievalResult.rrf_score c /\
       RankedResult.semantic_rank r = RetrievalResult.semantic_rank c /\
       RankedResult.keyword_rank r = RetrievalResult.keyword_rank c) /\
  (NoDup (map RetrievalResult.id candidates) ->
   NoDup (map RankedResult.id out)).
Proof.
  rewrite rerank_eq.
  destruct (rerank_loop w (Settings.reranker_relevance_threshold cfg)
              query_text candidates [] log) as [[ranked|e] log1] eqn:E;
    [|discriminate].
  intros [= <- <-]. split.
  - intros r Hr. apply sorted_desc_In in Hr.
    apply rerank_loop_Ok in E. destruct E as (added & -> & _ & Hall & _).
    rewrite Forall_forall in Hall. simpl in Hr.
    destruct (Hall r Hr) as (c & Hc & [(response & -> & _)| ->]);
      exists c; simpl; auto 10.
  - intros Hnd. apply rerank_loop_NoDup in E; [|exact Hnd].
    eapply Permutation_NoDup; [|exact E].
    apply Permutation_map, sorted_desc_perm.
Qed.

Lemma rerank_returns_candidates_example :
  (forall r,
     In r [RankedResult.mk 3 "a" (1 # 63) (9 # 10) "same story" (Some 3) None;
           RankedResult.mk 1 "c" (1 # 61) (1 # 61) reranker_fallback
             (Some 1) None] ->
     exists c,
       In c [cand 1 "c" (1 # 61); cand 2 "b" (1 # 62); cand 3 "a" (1 # 63)] /\
       RankedResult.id r = RetrievalResult.id c /\
       RankedResult.text r = RetrievalResult.text c /\
       RankedResult.rrf_score r = RetrievalResult.rrf_score c /\
       RankedResult.semantic_rank r = RetrievalResult.semantic_rank c /\
       RankedResult.keyword_rank r = RetrievalResult.keyword_rank c) /\
  (NoDup (map RetrievalResult.id
            [cand 1 "c" (1 # 61); cand 2 "b" (1 # 62); cand 3 "a" (1 # 63)]) ->
   NoDup (map RankedResult.id
            [RankedResult.mk 3 "a" (1 # 63) (9 # 10) "same story" (Some 3) None;
             RankedResult.mk 1 "c" (1 # 61) (1 # 61) reranker_fallback
               (Some 1) None])).
Proof.
  eapply (rerank_returns_candidates
            (fixed_world [] [] (mixed_reply "q") (InvalidJSON "x")) settings "q"
            [cand 1 "c" (1 # 61); cand 2 "b" (1 # 62); cand 3 "a" (1 # 63)] []).
  vm_compute. reflexivity.
Defined.

(** * Further properties of the LLM client and of the novelty detector *)

(** ** X13: what [call_structured] lets through *)

(** X13. A response that [call_structured] returns satisfies the constraints
    of its schema: a reranker response has a relevance in [0,1], and a novelty
    response has the decision "PUBLISH" or "SKIP" and a confidence in [0,1].
    Either way exactly one LLM call was made. *)
Theorem call_structured_returns_valid_responses :
  (forall w prompt log response log',
     call_structured_reranker w prompt log = (Ok response, log') ->
     (0 <= RerankerResponse.relevance response <= 1)%Q /\
     log' = (log ++ [CallReranker prompt])%list) /\
  (forall w prompt system log response log',
     call_structured_novelty w prompt system log = (Ok response, log') ->
     (NoveltyResponse.decision response = "PUBLISH"
      \/ NoveltyResponse.decision response = "SKIP") /\
     (0 <= NoveltyResponse.confidence response <= 1)%Q /\
     log' = (log ++ [CallNovelty prompt system])%list).
Proof.
  split.
  - intros w prompt log response log'.
    unfold call_structured_reranker, call. intros [= H <-].
    apply structured_reranker_valid in H. unfold in_unit_interval in H.
    apply andb_prop in H. destruct H as [H0 H1].
    apply Qle_bool_iff in H0, H1. auto.
  - intros w prompt system log response log'.
    unfold call_structured_novelty, call. intros [= H <-].
    apply structured_novelty_valid in H. destruct H as [Hd H].
    unfold in_unit_interval in H. apply andb_prop in H. destruct H as [H0 H1].
    apply Qle_bool_iff in H0, H1. auto.
Qed.

Lemma call_structured_example :
  ((0 <= 9 # 10 <= 1)%Q /\
   [CallReranker "p"] = ([] ++ [CallReranker "p"])%list) /\
  fst (call_structured_reranker
         (fixed_world [] []
            (fun _ => Parsed (RerankerResponse.mk (12 # 10) "too high"))
            (InvalidJSON "x")) "p" [])
  = Raise (mkExc ValidationError "relevance").
Proof.
  split.
  - apply (proj1 call_structured_returns_valid_responses
             (one_match_world (InvalidJSON "x")) "p" []
             (RerankerResponse.mk (9 # 10) "same story")).
    reflexivity.
  - reflexivity.
Defined.

(** ** The three ways in which [assess] returns *)

Lemma assess_Ok_cases w cfg incoming_text log res :
  fst (assess w cfg incoming_text log) = Ok res ->
  (exists log1,
     retrieve w cfg incoming_text None log = (Ok [], log1) /\
     res = path_A_result incoming_text)
  \/ (exists candidates log1 log2,
        retrieve w cfg incoming_text None log = (Ok candidates, log1) /\
        candidates <> [] /\
        rerank w cfg incoming_text candidates log1 = (Ok [], log2) /\
        res = path_B_result incoming_text)
  \/ (exists candidates log1 top rest log2,
        retrieve w cfg incoming_text None log = (Ok candidates, log1) /\
        rerank w cfg incoming_text candidates log1 = (Ok (top :: rest), log2) /\
        res = match novelty_outcome w log2 incoming_text (top :: rest) with
              | Ok response =>
                  success_result cfg incoming_text (top :: rest) top response
              | Raise e => failure_result incoming_text (top :: rest) e
              end).
Proof.
  destruct (retrieve w cfg incoming_text None log) as [[candidates|e] log1] eqn:Hret.
  2:{ unfold assess, bind. rewrite Hret. discriminate. }
  destruct candidates as [|c cs].
  { unfold assess, bind. rewrite Hret. simpl. intros [= <-]. left. eauto. }
  destruct (rerank w cfg incoming_text (c :: cs) log1)
    as [[relevant|e] log2] eqn:Hrr.
  2:{ unfold assess, bind at 1. rewrite Hret. unfold bind. rewrite Hrr.
      discriminate. }
  destruct relevant as [|top rest].
  { unfold assess, bind at 1. rewrite Hret. unfold bind. rewrite Hrr. simpl.
    intros [= <-]. right. left. exists (c :: cs), log1, log2.
    repeat split; [discriminate | exact Hrr]. }
  assert (reaches_path_C w cfg incoming_text log (top :: rest) log2) as Hpath.
  { exists (c :: cs), log1. repeat split; [exact Hret|exact Hrr|discriminate]. }
  rewrite (assess_path_C _ _ _ _ _ _ Hpath), assess_novelty_eq. simpl.
  intros [= <-]. right. right. exists (c :: cs), log1, top, rest, log2.
  split; [reflexivity|]. split; [exact Hrr|]. reflexivity.
Qed.

Lemma novelty_outcome_valid w log incoming_text relevant response :
  novelty_outcome w log incoming_text relevant = Ok response ->
  (NoveltyResponse.decision response = "PUBLISH"
   \/ NoveltyResponse.decision response = "SKIP") /\
  (0 <= NoveltyResponse.confidence response <= 1)%Q.
Proof.
  unfold novelty_outcome. intros H. apply structured_novelty_valid in H.
  destruct H as [Hd H]. split; [exact Hd|].
  unfold in_unit_interval in H. apply andb_prop in H. destruct H as [H0 H1].
  apply Qle_bool_iff in H0, H1. auto.
Qed.

Lemma rerank_descending w cfg query_text candidates log out log' :
  rerank w cfg query_text candidates log = (Ok out, log') ->
  descending RankedResult.relevance_score out /\
  (List.length out <= List.length candidates)%nat.
Proof.
  rewrite rerank_eq.
  destruct (rerank_loop w (Settings.reranker_relevance_threshold cfg)
              query_text candidates [] log) as [[ranked|e] log1] eqn:E;
    [|discriminate].
  intros [= <- <-]. split; [apply sorted_desc_descending|].
  rewrite sorted_desc_length. apply rerank_loop_Ok in E.
  destruct E as (added & -> & Hlen & _). exact Hlen.
Qed.

(** ** X14: the fields of every result *)

(** X14. Every result that [assess] returns has a confidence in [0,1]; it
    names a top match (id and text together) exactly when its count of
    relevant matches is not zero, and it gives a similarity only for a named
    top match. *)
Theorem assess_result_invariants
    (w : World) (cfg : Settings.t) (incoming_text : string) (log : list Call)
    (res : NoveltyResult.t) :
  fst (assess w cfg incoming_text log) = Ok res ->
  (0 <= NoveltyResult.confidence res <= 1)%Q /\
  NoveltyResult.incoming_text res = incoming_text /\
  (NoveltyResult.top_match_id res = None
   <-> NoveltyResult.relevant_matches_count res = 0) /\
  (NoveltyResult.top_match_text res = None
   <-> NoveltyResult.top_match_id res = None) /\
  (NoveltyResult.top_match_similarity res <> None ->
   NoveltyResult.top_match_id res <> None).
Proof.
  intros H. apply assess_Ok_cases in H.
  destruct H as [(log1 & _ & ->)
                |[(cands & log1 & log2 & _ & _ & _ & ->)
                 |(cands & log1 & top & rest & log2 & _ & _ & ->)]].
  - simpl. repeat split; try discriminate; try reflexivity; tauto.
  - simpl. repeat split; try discriminate; try reflexivity; tauto.
  - destruct (novelty_outcome w log2 incoming_text (top :: rest))
      as [response|e] eqn:Hout.
    + apply novelty_outcome_valid in Hout. destruct Hout as [_ [H0 H1]].
      unfold success_result. cbn -[Z.of_nat List.length].
      repeat split; try assumption; try discriminate; simpl; lia.
    + unfold failure_result. cbn -[Z.of_nat List.length].
      repeat split; try discriminate; simpl; try lia; try apply Qle_refl.
Qed.

Lemma assess_result_invariants_example :
  (0 <= NoveltyResult.confidence published_result <= 1)%Q /\
  NoveltyResult.incoming_text published_result = "x" /\
  (NoveltyResult.top_match_id published_result = None
   <-> NoveltyResult.relevant_matches_count published_result = 0) /\
  (NoveltyResult.top_match_text published_result = None
   <-> NoveltyResult.top_match_id published_result = None) /\
  (NoveltyResult.top_match_similarity published_result <> None ->
   NoveltyResult.top_match_id published_result <> None).
Proof.
  apply (assess_result_invariants
           (one_match_world (publish_reply (9 # 10) "new fee")) settings "x" []
           published_result).
  vm_compute. reflexivity.
Defined.

(** ** X15: where a SKIP and a REVIEW come from *)

(** X15. [assess] returns SKIP only when the structured call returned a valid
    response that says "SKIP" with a confidence at or above the threshold; it
    returns REVIEW only on Path C, when the structured call failed or reported
    a confidence below the threshold. Without relevant matches the decision is
    always PUBLISH. *)
Theorem assess_decision_provenance
    (w : World) (cfg : Settings.t) (incoming_text : string) (log : list Call)
    (res : NoveltyResult.t) :
  fst (assess w cfg incoming_text log) = Ok res ->
  (NoveltyResult.decision res = SKIP ->
   exists relevant log2 response,
     reaches_path_C w cfg incoming_text log relevant log2 /\
     novelty_outcome w log2 incoming_text relevant = Ok response /\
     NoveltyResponse.decision response = "SKIP" /\
     (Settings.novelty_confidence_threshold cfg
      <= NoveltyResponse.confidence response)%Q) /\
  (NoveltyResult.decision res = REVIEW ->
   exists relevant log2,
     reaches_path_C w cfg incoming_text log relevant log2 /\
     match novelty_outcome w log2 incoming_text relevant with
     | Ok response =>
         (NoveltyResponse.confidence response
          < Settings.novelty_confidence_threshold cfg)%Q
     | Raise _ => True
     end) /\
  (NoveltyResult.relevant_matches_count res = 0 ->
   NoveltyResult.decision res = PUBLISH).
Proof.
  intros H. apply assess_Ok_cases in H.
  destruct H as [(log1 & _ & ->)
                |[(cands & log1 & log2 & _ & _ & _ & ->)
                 |(cands & log1 & top & rest & log2 & Hret & Hrr & ->)]].
  - simpl. repeat split; try discriminate.
  - simpl. repeat split; try discriminate.
  - assert (reaches_path_C w cfg incoming_text log (top :: rest) log2) as Hpath.
    { exists cands, log1. repeat split; [exact Hret|exact Hrr|discriminate]. }
    destruct (novelty_outcome w log2 incoming_text (top :: rest))
      as [response|e] eqn:Hout.
    + pose proof (novelty_outcome_valid _ _ _ _ _ Hout) as [Hd _].
      unfold success_result. cbn -[Z.of_nat List.length].
      destruct (Qltb (NoveltyResponse.confidence response)
                     (Settings.novelty_confidence_threshold cfg)) eqn:E.
      * apply Qltb_true in E. split; [discriminate|]. split.
        -- intros _. exists (top :: rest), log2. rewrite Hout. auto.
        -- simpl. lia.
      * apply Qltb_false in E. split; [|split].
        -- intros Hskip. exists (top :: rest), log2, response.
           repeat split; try assumption.
           unfold adopted_decision in Hskip.
           destruct Hd as [Hd|Hd]; rewrite Hd in Hskip |- *;
             [discriminate | reflexivity].
        -- unfold adopted_decision.
           destruct Hd as [-> | ->]; discriminate.
        -- simpl. lia.
    + unfold failure_result. cbn -[Z.of_nat List.length].
      split; [discriminate|]. split.
      * intros _. exists (top :: rest), log2. rewrite Hout. auto.
      * simpl. lia.
Qed.

Lemma assess_decision_provenance_example :
  exists res,
    fst (assess (one_match_world
                   (Parsed (NoveltyResponse.mk "SKIP" (8 # 10) "same facts"
                              [] false))) settings "x" []) = Ok res /\
    NoveltyResult.decision res = SKIP /\
    exists relevant log2 response,
      reaches_path_C (one_match_world
                        (Parsed (NoveltyResponse.mk "SKIP" (8 # 10) "same facts"
                                   [] false))) settings "x" [] relevant log2 /\
      novelty_outcome (one_match_world
                         (Parsed (NoveltyResponse.mk "SKIP" (8 # 10) "same facts"
                                    [] false))) log2 "x" relevant = Ok response /\
      NoveltyResponse.decision response = "SKIP" /\
      (Settings.novelty_confidence_threshold settings
       <= NoveltyResponse.confidence response)%Q.
Proof.
  assert (fst (assess (one_match_world
                         (Parsed (NoveltyResponse.mk "SKIP" (8 # 10) "same facts"
                                    [] false))) settings "x" [])
          = Ok (NoveltyResult.mk "x" SKIP (8 # 10) "same facts" [] false
                  (Some "a") (Some (9 # 10)) (Some 1) 1)) as E
    by (vm_compute; reflexivity).
  eexists. split; [exact E|]. split; [reflexivity|].
  apply (proj1 (assess_decision_provenance _ _ _ _ _ E)). reflexivity.
Defined.

(** ** X16: the top match is the most relevant match *)

(** X16. When a result names a top match, that match is an entry of the
    reranker's output whose relevance is at least that of every other entry,
    and the result's count is the number of entries, which is at most the
    number of candidates retrieved. *)
Theorem assess_top_match_is_most_relevant
    (w : World) (cfg : Settings.t) (incoming_text : string) (log : list Call)
    (res : NoveltyResult.t) (id : Z) :
  fst (assess w cfg incoming_text log) = Ok res ->
  NoveltyResult.top_match_id res = Some id ->
  exists candidates log1 relevant log2 top,
    retrieve w cfg incoming_text None log = (Ok candidates, log1) /\
    rerank w cfg incoming_text candidates log1 = (Ok relevant, log2) /\
    In top relevant /\
    RankedResult.id top = id /\
    NoveltyResult.top_match_text res = Some (RankedResult.text top) /\
    (forall m, In m relevant ->
       (RankedResult.relevance_score m <= RankedResult.relevance_score top)%Q) /\
    NoveltyResult.relevant_matches_count res = Z.of_nat (List.length relevant) /\
    (List.length relevant <= List.length candidates)%nat.
Proof.
  intros H Hid. apply assess_Ok_cases in H.
  destruct H as [(log1 & _ & ->)
                |[(cands & log1 & log2 & _ & _ & _ & ->)
                 |(cands & log1 & top & rest & log2 & Hret & Hrr & ->)]];
    try discriminate.
  exists cands, log1, (top :: rest), log2, top.
  destruct (rerank_descending _ _ _ _ _ _ _ Hrr) as [Hdesc Hlen].
  split; [exact Hret|]. split; [exact Hrr|]. split; [left; reflexivity|].
  assert (forall m, In m (top :: rest) ->
            (RankedResult.relevance_score m
             <= RankedResult.relevance_score top)%Q) as Hmax.
  { unfold descending in Hdesc. inversion Hdesc as [|? ? _ Hall]; subst.
    intros m [<-|Hm]; [apply Qle_refl|].
    rewrite Forall_forall in Hall. apply Hall. exact Hm. }
  destruct (novelty_outcome w log2 incoming_text (top :: rest)) as [response|e];
    cbn -[Z.of_nat List.length] in Hid |- *;
    injection Hid as <-; repeat split; assumption.
Qed.

Lemma assess_top_match_example :
  exists candidates log1 relevant log2 top,
    retrieve (fixed_world [art 3 "c"; art 4 "a"] [] (mixed_reply "x")
                (publish_reply (9 # 10) "new fee")) settings "x" None []
      = (Ok candidates, log1) /\
    rerank (fixed_world [art 3 "c"; art 4 "a"] [] (mixed_reply "x")
              (publish_reply (9 # 10) "new fee")) settings "x" candidates log1
      = (Ok relevant, log2) /\
    In top relevant /\
    RankedResult.id top = 4 /\
    Some "a" = Some (RankedResult.text top) /\
    (forall m, In m relevant ->
       (RankedResult.relevance_score m <= RankedResult.relevance_score top)%Q) /\
    2 = Z.of_nat (List.length relevant) /\
    (List.length relevant <= List.length candidates)%nat.
Proof.
  apply (assess_top_match_is_most_relevant
           (fixed_world [art 3 "c"; art 4 "a"] [] (mixed_reply "x")
              (publish_reply (9 # 10) "new fee")) settings "x" []
           (NoveltyResult.mk "x" PUBLISH (9 # 10) "new fee" [] false
              (Some "a") (Some (9 # 10)) (Some 4) 2) 4).
  - vm_compute. reflexivity.
  - reflexivity.
Defined.

(** ** X17: the LLM calls of one assessment *)

(** X17. On Path C the calls that [assess] makes after the retrieval are one
    reranker call per retrieved candidate, in their order, followed by exactly
    one novelty-assessment call, whose prompt is built from the relevant
    matches in the order of the reranker's output. *)
Theorem assess_path_C_calls
    (w : World) (cfg : Settings.t) (incoming_text : string) (log : list Call)
    (candidates : list RetrievalResult.t) (log1 : list Call)
    (relevant : list RankedResult.t) (log2 : list Call) :
  retrieve w cfg incoming_text None log = (Ok candidates, log1) ->
  rerank w cfg incoming_text candidates log1 = (Ok relevant, log2) ->
  relevant <> [] ->
  snd (assess w cfg incoming_text log)
  = (log1 ++ map (reranker_call incoming_text) candidates
          ++ [novelty_call incoming_text relevant])%list.
Proof.
  intros Hret Hrr Hne.
  assert (reaches_path_C w cfg incoming_text log relevant log2) as Hpath
    by (exists candidates, log1; auto).
  rewrite (assess_path_C _ _ _ _ _ _ Hpath), assess_novelty_eq. simpl.
  rewrite rerank_eq in Hrr.
  destruct (rerank_loop w (Settings.reranker_relevance_threshold cfg)
              incoming_text candidates [] log1) as [[ranked|e] l] eqn:E;
    [|discriminate].
  injection Hrr as _ <-. apply rerank_loop_Ok in E.
  destruct E as (_ & _ & _ & _ & ->). rewrite <- app_assoc. reflexivity.
Qed.

Lemma assess_path_C_calls_example :
  snd (assess (one_match_world (publish_reply (9 # 10) "new fee")) settings
              "x" [])
  = ([CallEmbed "x"; CallSearchSemantic [1%Q] 5; CallSearchKeyword "x" 5;
      CallCommit; CallClose]
     ++ map (reranker_call "x")
            [RetrievalResult.mk 1 "a" (0 + 1 # 61) (Some 1) None (Some 0%Q) None]
     ++ [novelty_call "x" [the_match]])%list.
Proof.
  apply (assess_path_C_calls
           (one_match_world (publish_reply (9 # 10) "new fee")) settings "x" []
           [RetrievalResult.mk 1 "a" (0 + 1 # 61) (Some 1) None (Some 0%Q) None]
           _ [the_match]
           ([CallEmbed "x"; CallSearchSemantic [1%Q] 5; CallSearchKeyword "x" 5;
             CallCommit; CallClose]
            ++ [reranker_call "x"
                  (RetrievalResult.mk 1 "a" (0 + 1 # 61) (Some 1) None
                     (Some 0%Q) None)])%list).
  - vm_compute. reflexivity.
  - vm_compute. reflexivity.
  - discriminate.
Defined.

(** ** X18: LLM failures never make [assess] raise *)

Lemma fuse_rrf_unit_scores k sem kw top_k fused :
  1 <= k ->
  NoDup (map ArticleRecord.id sem) ->
  NoDup (map ArticleRecord.id kw) ->
  _fuse_rrf k sem kw top_k = Ok fused ->
  Forall unit_score fused.
Proof.
  intros Hk Hsem Hkw E.
  pose proof (fuse_rrf_scores k sem kw top_k fused Hsem Hkw E) as Hsum.
  assert (0 <= k) as Hk0 by lia.
  pose proof (fuse_rrf_positive k sem kw top_k fused Hk0 E) as Hpos.
  rewrite Forall_forall in *. intros r Hr.
  specialize (Hsum r Hr). specialize (Hpos r Hr). unfold rank_in in Hsum.
  pose proof (rrf_term_bound k 1 (RetrievalResult.id r) sem ltac:(lia)) as B1.
  pose proof (rrf_term_bound k 1 (RetrievalResult.id r) kw ltac:(lia)) as B2.
  pose proof (reciprocal_antitone 2 (k + 1) ltac:(lia) ltac:(lia)) as Hhalf.
  assert (1 / inject_Z 2 == 1 # 2)%Q as Hh by reflexivity.
  rewrite Hh in Hhalf.
  apply in_unit_interval_true; [apply Qlt_le_weak; exact Hpos|].
  rewrite Hsum. lra.
Qed.

(** X18. Let the smoothing constant be at least 1 and let the store answer
    every query with rows of distinct ids. Then [assess] raises only what the
    retrieval raised: once the retrieval has returned, no failure of the LLM,
    in the reranker or in the novelty assessment, makes [assess] raise. *)
Theorem assess_raises_only_what_retrieve_raised
    (w : World) (cfg : Settings.t) (incoming_text : string) (log : list Call)
    (e : PyExc) :
  1 <= Settings.rrf_k cfg ->
  (forall l v n rows,
     search_semantic w l v n = Ok rows -> NoDup (map ArticleRecord.id rows)) ->
  (forall l q n rows,
     search_keyword w l q n = Ok rows -> NoDup (map ArticleRecord.id rows)) ->
  fst (assess w cfg incoming_text log) = Raise e ->
  fst (retrieve w cfg incoming_text None log) = Raise e.
Proof.
  intros Hk Hsem Hkw.
  destruct (retrieve w cfg incoming_text None log) as [[candidates|e0] log1] eqn:Hret.
  2:{ unfold assess, bind. rewrite Hret. simpl. intros [= <-]. reflexivity. }
  intros H. exfalso.
  destruct candidates as [|c cs].
  { unfold assess, bind in H. rewrite Hret in H. discriminate. }
  pose proof Hret as Hfused. apply retrieve_Ok in Hfused.
  destruct Hfused as (v & ls & sem & lk & kw & _ & Es & Ek & Ef).
  apply fuse_rrf_unit_scores in Ef; [|exact Hk|eapply Hsem; eauto|eapply Hkw; eauto].
  destruct (rerank_total w cfg incoming_text (c :: cs) log1 Ef)
    as (relevant & log2 & Hrr).
  unfold assess, bind at 1 in H. rewrite Hret in H.
  unfold bind at 1 in H. rewrite Hrr in H.
  destruct relevant as [|top rest]; [discriminate|].
  rewrite assess_novelty_eq in H. discriminate.
Qed.

Lemma assess_raises_only_example :
  fst (retrieve store_down_world settings "x" None []) = Raise timeout_error.
Proof.
  apply (assess_raises_only_what_retrieve_raised
           store_down_world settings "x" [] timeout_error).
  - simpl. lia.
  - intros l v n rows H. discriminate.
  - intros l q n rows [= <-]. constructor.
  - reflexivity.
Defined.

(** * Properties of the batched embedding *)

Example embed_batch_example :
  embed_batch echo_api ["a"; "b"; "c"; "d"; "e"] (Some 2) []
  = (Ok [[1%Q]; [1%Q]; [1%Q]; [1%Q]; [1%Q]], [["a"; "b"]; ["c"; "d"]; ["e"]]).
Proof. vm_compute. reflexivity. Qed.

Lemma embed_batches_Ok create texts b starts all log embs log' :
  embed_batches create texts b starts all log = (Ok embs, log') ->
  log' = (log ++ map (fun i => slice_between i (i + b) texts) starts)%list /\
  exists datas,
    embs = (all ++ List.concat datas)%list /\
    Forall2 (fun data i =>
               exists l, create l (slice_between i (i + b) texts) = Ok data)
            datas starts.
Proof.
  revert all log. induction starts as [|i rest IH]; intros all log H; simpl in H.
  - injection H as <- <-. split; [rewrite app_nil_r; reflexivity|].
    exists []. split; [rewrite app_nil_r; reflexivity | constructor].
  - destruct (create log (slice_between i (i + b) texts)) as [data|e] eqn:E;
      [|discriminate].
    apply IH in H. destruct H as [-> (datas & -> & Hall)]. split.
    + rewrite <- app_assoc. reflexivity.
    + exists (data :: datas). split.
      * simpl. rewrite <- app_assoc. reflexivity.
      * constructor; [eauto | exact Hall].
Qed.

Lemma embed_batches_Raise create texts b starts all log e log' :
  embed_batches create texts b starts all log = (Raise e, log') ->
  exists sent i later l,
    starts = (sent ++ i :: later)%list /\
    create l (slice_between i (i + b) texts) = Raise e /\
    log' = (log ++ map (fun i => slice_between i (i + b) texts)
                       (sent ++ [i]))%list.
Proof.
  revert all log. induction starts as [|i rest IH]; intros all log H; simpl in H.
  - discriminate.
  - destruct (create log (slice_between i (i + b) texts)) as [data|e0] eqn:E.
    + apply IH in H. destruct H as (sent & i0 & later & l & -> & Hc & ->).
      exists (i :: sent), i0, later, l. rewrite <- app_assoc. auto.
    + injection H as <- <-. exists [], i, rest, log. auto.
Qed.

(** The chunks of [l] of size [b], read [m] times. *)
Lemma chunks_concat {A : Type} (b m : nat) (l : list A) :
  (List.length l <= m * b)%nat ->
  List.concat (map (fun j => firstn b (skipn (j * b) l)) (seq 0 m)) = l.
Proof.
  revert l. induction m as [|m IH]; intros l Hlen.
  - destruct l; [reflexivity | simpl in Hlen; lia].
  - cbn [seq map List.concat]. rewrite <- seq_shift, map_map. simpl skipn.
    transitivity (firstn b l ++ skipn b l)%list; [|apply firstn_skipn].
    f_equal. rewrite <- (IH (skipn b l)).
    + f_equal. apply map_ext. intros j. rewrite skipn_skipn.
      f_equal. f_equal. lia.
    + rewrite length_skipn. simpl in Hlen. lia.
Qed.

Lemma range_from_zero_positive n b :
  0 < b ->
  range_from_zero (Z.of_nat n) b
  = Ok (map (fun j => Z.of_nat j * b)
            (seq 0 (Z.to_nat ((Z.of_nat n + b - 1) / b)))).
Proof.
  intros Hb. unfold range_from_zero.
  destruct (b =? 0) eqn:E0; [apply Z.eqb_eq in E0; lia|].
  destruct (b <? 0) eqn:E1; [apply Z.ltb_lt in E1; lia|]. reflexivity.
Qed.

Lemma slice_between_chunk {A : Type} (j : nat) (b : Z) (l : list A) :
  0 < b ->
  slice_between (Z.of_nat j * b) (Z.of_nat j * b + b) l
  = firstn (Z.to_nat b) (skipn (j * Z.to_nat b) l).
Proof.
  intros Hb. unfold slice_between. f_equal; [f_equal; lia|].
  f_equal. rewrite Z2Nat.inj_mul by lia. rewrite Nat2Z.id. reflexivity.
Qed.

Lemma ceil_div_bounds n b :
  0 <= n -> 0 < b ->
  n <= (n + b - 1) / b * b /\ ((n + b - 1) / b - 1) * b < n.
Proof.
  intros Hn Hb.
  pose proof (Z.div_mod (n + b - 1) b ltac:(lia)) as Hdm.
  pose proof (Z.mod_pos_bound (n + b - 1) b Hb) as Hmod.
  nia.
Qed.

(** ** X19, X20, X21: [embed_batch] *)

(** X19. For a positive batch size, a call of [embed_batch] that returns has
    sent the texts to the API in consecutive batches: the batches, joined in
    the order sent, are the texts; no batch is empty or larger than the batch
    size; and their number is the number of texts divided by the batch size,
    rounded up. *)
Theorem embed_batch_partitions_texts
    (create : EmbeddingsAPI) (texts : list string) (b : Z)
    (log : list (list string)) (embs : list (list Q))
    (log' : list (list string)) :
  0 < b ->
  embed_batch create texts (Some b) log = (Ok embs, log') ->
  exists batches,
    log' = (log ++ batches)%list /\
    List.concat batches = texts /\
    Forall (fun batch => 1 <= Z.of_nat (List.length batch) <= b) batches /\
    Z.of_nat (List.length batches) = (Z.of_nat (List.length texts) + b - 1) / b.
Proof.
  intros Hb H. unfold embed_batch in H.
  rewrite range_from_zero_positive in H by exact Hb.
  apply embed_batches_Ok in H. destruct H as [-> _].
  set (n := List.length texts) in *.
  set (m := Z.to_nat ((Z.of_nat n + b - 1) / b)).
  destruct (ceil_div_bounds (Z.of_nat n) b ltac:(lia) Hb) as [Hup Hlow].
  assert (0 <= (Z.of_nat n + b - 1) / b) as Hm0
    by (apply Z.div_pos; lia).
  rewrite map_map.
  rewrite (map_ext _ (fun j => firstn (Z.to_nat b) (skipn (j * Z.to_nat b) texts)))
    by (intros j; apply slice_between_chunk; exact Hb).
  eexists. split; [reflexivity|]. split; [|split].
  - apply chunks_concat. fold n. unfold m. nia.
  - rewrite Forall_forall. intros batch Hin. apply in_map_iff in Hin.
    destruct Hin as (j & <- & Hj). apply in_seq in Hj.
    rewrite length_firstn, length_skipn. fold n. unfold m in Hj. nia.
  - rewrite length_map, length_seq. unfold m. lia.
Qed.

Lemma embed_batch_partitions_example :
  exists batches,
    [["a"; "b"]; ["c"; "d"]; ["e"]] = ([] ++ batches)%list /\
    List.concat batches = ["a"; "b"; "c"; "d"; "e"] /\
    Forall (fun batch => 1 <= Z.of_nat (List.length batch) <= 2) batches /\
    Z.of_nat (List.length batches)
    = (Z.of_nat (List.length ["a"; "b"; "c"; "d"; "e"]) + 2 - 1) / 2.
Proof.
  apply (embed_batch_partitions_texts echo_api ["a"; "b"; "c"; "d"; "e"] 2 []
           [[1%Q]; [1%Q]; [1%Q]; [1%Q]; [1%Q]]).
  - lia.
  - vm_compute. reflexivity.
Defined.

Lemma concat_lengths {A B : Type} (P : list A -> B -> Prop) (f : B -> nat)
    (datas : list (list A)) (xs : list B) :
  (forall d x, P d x -> List.length d = f x) ->
  Forall2 P datas xs ->
  List.length (List.concat datas) = list_sum (map f xs).
Proof.
  intros HP H. induction H as [|d x datas xs Hdx _ IH]; simpl.
  - reflexivity.
  - rewrite length_app, IH, (HP d x Hdx). reflexivity.
Qed.

Lemma length_concat_sum {A : Type} (ls : list (list A)) :
  List.length (List.concat ls) = list_sum (map (@List.length A) ls).
Proof.
  induction ls as [|l ls IH]; simpl; [reflexivity|].
  rewrite length_app, IH. reflexivity.
Qed.

(** X20. For a positive batch size and an API that answers every batch with
    one embedding per input, [embed_batch] returns exactly one embedding per
    text. *)
Theorem embed_batch_one_embedding_per_text
    (create : EmbeddingsAPI) (texts : list string) (b : Z)
    (log : list (list string)) (embs : list (list Q))
    (log' : list (list string)) :
  0 < b ->
  (forall l batch data,
     create l batch = Ok data -> List.length data = List.length batch) ->
  embed_batch create texts (Some b) log = (Ok embs, log') ->
  List.length embs = List.length texts.
Proof.
  intros Hb Hapi H. unfold embed_batch in H.
  rewrite range_from_zero_positive in H by exact Hb.
  apply embed_batches_Ok in H. destruct H as [_ (datas & -> & Hall)].
  simpl.
  assert (forall (d : list (list Q)) (x : Z),
            (exists l, create l (slice_between x (x + b) texts) = Ok d) ->
            List.length d = List.length (slice_between x (x + b) texts)) as HP
    by (intros d x [l Hl]; apply (Hapi _ _ _ Hl)).
  rewrite (concat_lengths _ _ _ _ HP Hall).
  rewrite <- map_map, <- length_concat_sum.
  destruct (ceil_div_bounds (Z.of_nat (List.length texts)) b ltac:(lia) Hb)
    as [Hup Hlow].
  assert (0 <= (Z.of_nat (List.length texts) + b - 1) / b) as Hm0
    by (apply Z.div_pos; lia).
  rewrite map_map.
  rewrite (map_ext _ (fun j => firstn (Z.to_nat b) (skipn (j * Z.to_nat b) texts)))
    by (intros j; apply slice_between_chunk; exact Hb).
  rewrite chunks_concat; [reflexivity | nia].
Qed.

Lemma embed_batch_one_embedding_example :
  List.length [[1%Q]; [1%Q]; [1%Q]; [1%Q]; [1%Q]]
  = List.length ["a"; "b"; "c"; "d"; "e"].
Proof.
  apply (embed_batch_one_embedding_per_text echo_api ["a"; "b"; "c"; "d"; "e"] 2
           [] _ [["a"; "b"]; ["c"; "d"]; ["e"]]).
  - lia.
  - intros l batch data [= <-]. apply length_map.
  - vm_compute. reflexivity.
Defined.

(** X21. With batch size 0, [embed_batch] raises a [ValueError] before any
    call of the API; with a negative batch size it returns no embedding at
    all, without any call and without an error. With a positive batch size,
    when a call of the API raises, [embed_batch] raises the same exception and
    the failing batch is the last one sent. *)
Theorem embed_batch_failures :
  (forall create texts log,
     exists e,
       embed_batch create texts (Some 0) log = (Raise e, log) /\
       exc_kind e = ValueError) /\
  (forall create texts b log,
     b < 0 -> embed_batch create texts (Some b) log = (Ok [], log)) /\
  (forall create texts b log e log',
     0 < b ->
     embed_batch create texts (Some b) log = (Raise e, log') ->
     exists sent batch l,
       log' = (log ++ sent ++ [batch])%list /\
       create l batch = Raise e).
Proof.
  split; [|split].
  - intros create texts log. eexists. split; reflexivity.
  - intros create texts b log Hb. unfold embed_batch, range_from_zero.
    destruct (b =? 0) eqn:E0; [apply Z.eqb_eq in E0; lia|].
    destruct (b <? 0) eqn:E1; [reflexivity | apply Z.ltb_ge in E1; lia].
  - intros create texts b log e log' Hb H. unfold embed_batch in H.
    rewrite range_from_zero_positive in H by exact Hb.
    apply embed_batches_Raise in H.
    destruct H as (sent & i & later & l & _ & Hc & ->).
    rewrite map_app. simpl. eauto.
Qed.

Lemma embed_batch_failures_example :
  embed_batch echo_api ["a"; "b"; "c"] (Some (-1)) [] = (Ok [], []) /\
  exists sent batch l,
    [["a"; "b"]] = ([] ++ sent ++ [batch])%list /\
    (fun (_ : list (list string)) (_ : list string) =>
       @Raise (list (list Q)) timeout_error) l batch = Raise timeout_error.
Proof.
  split.
  - apply (proj1 (proj2 embed_batch_failures)). lia.
  - apply (proj2 (proj2 embed_batch_failures)
             (fun _ _ => Raise timeout_error) ["a"; "b"; "c"] 2 []
             timeout_error [["a"; "b"]]).
    + lia.
    + vm_compute. reflexivity.
Defined.

(** * Properties of the ingestion *)

Example ingest_csv_example :
  ingest_csv (fun s => s) (ingest_world [CellStr "a"; CellNaN; CellStr "b"] 0
                             [[1%Q]; [2%Q]]) "news.csv" []
  = (Returns 2,
     [IExists "news.csv"; IReadCsv "news.csv"; ICount; ICommit; IClose;
      IEmbedBatch ["a"; "b"];
      IInsert (ArticleCreate.mk "a" [1%Q]); IInsert (ArticleCreate.mk "b" [2%Q]);
      IFlush; ICommit; IClose]).
Proof. vm_compute. reflexivity. Qed.

Lemma insert_all_trace w articles log r log' :
  insert_all w articles log = (r, log') ->
  (exists ids, r = Returns ids /\ log' = (log ++ map IInsert articles)%list)
  \/ (exists e inserted a rest,
         r = Raises (Collaborator e) /\
         articles = (inserted ++ a :: rest)%list /\
         log' = (log ++ map IInsert (inserted ++ [a]))%list).
Proof.
  revert log r log'. induction articles as [|a articles IH]; intros log r log' H.
  - injection H as <- <-. left. exists []. rewrite app_nil_r. auto.
  - cbn [insert_all] in H. unfold ibind at 1, icall in H.
    destruct (insert_article w log a) as [id|e].
    + unfold ibind in H.
      destruct (insert_all w articles (log ++ [IInsert a])%list)
        as [[ids|err] l1] eqn:E.
      * injection H as <- <-. apply IH in E.
        destruct E as [(ids' & _ & ->)|(e & ins & a0 & rest & Hr & _)];
          [|discriminate].
        left. exists (id :: ids). rewrite <- app_assoc. auto.
      * injection H as <- <-. apply IH in E.
        destruct E as [(ids' & Hr & _)|(e & ins & a0 & rest & Hr & -> & ->)];
          [discriminate|].
        right. exists e, (a :: ins), a0, rest. rewrite <- app_assoc. auto.
    + injection H as <- <-. right. exists e, [], a, articles. auto.
Qed.

(** The calls of the second session: the inserts, the flush and the commit
    when all goes well, and a rollback at the end otherwise. *)
Lemma insert_session_trace w articles log r log' :
  with_ingest_session w (insert_batch w articles) log = (r, log') ->
  (exists ids,
     r = Returns ids /\
     log' = (log ++ map IInsert articles ++ [IFlush; ICommit; IClose])%list)
  \/ (exists e calls,
         r = Raises (Collaborator e) /\
         log' = (log ++ calls ++ [IRollback; IClose])%list).
Proof.
  unfold with_ingest_session, insert_batch. unfold ibind at 1 2.
  destruct (insert_all w articles log) as [[ids|err] l1] eqn:E;
    apply insert_all_trace in E.
  - destruct E as [(ids' & _ & ->)|(e & ins & a & rest & Hr & _)]; [|discriminate].
    unfold ibind, icall, iret.
    destruct (flush_session w _) as [[]|e].
    + destruct (commit_session w _) as [[]|e]; intros [= <- <-].
      * left. exists ids. rewrite <- !app_assoc. auto.
      * right. exists e, (map IInsert articles ++ [IFlush; ICommit])%list.
        rewrite <- !app_assoc. auto.
    + intros [= <- <-]. right. exists e, (map IInsert articles ++ [IFlush])%list.
      rewrite <- !app_assoc. auto.
  - destruct E as [(ids' & Hr & _)|(e & ins & a & rest & [= ->] & _ & ->)];
      [discriminate|].
    intros [= <- <-]. right. exists e, (map IInsert (ins ++ [a])).
    rewrite <- !app_assoc. auto.
Qed.

Lemma make_articles_valid pairs articles :
  make_articles pairs = Returns articles ->
  List.length articles = List.length pairs /\
  Forall (fun a => ArticleCreate.text a <> EmptyString
                   /\ ArticleCreate.embedding a <> []) articles /\
  map (fun a => (ArticleCreate.text a, ArticleCreate.embedding a)) articles
  = pairs.
Proof.
  revert articles. induction pairs as [|[t e] pairs IH]; intros articles H;
    simpl in H.
  - injection H as <-. repeat split; constructor.
  - unfold ArticleCreate_new in H.
    destruct (String.length t =? 0)%nat eqn:Et; [discriminate|].
    destruct e as [|x e]; [discriminate|].
    destruct (make_articles pairs) as [rest|err]; [|discriminate].
    injection H as <-. destruct (IH rest eq_refl) as (Hlen & Hall & Hmap).
    simpl. repeat split.
    + f_equal. exact Hlen.
    + constructor; [|exact Hall]. simpl. split; [|discriminate].
      intros ->. discriminate.
    + f_equal. exact Hmap.
Qed.

Lemma make_articles_error pairs err :
  make_articles pairs = Raises err ->
  err = InvalidArticle /\
  exists t e, In (t, e) pairs /\ (t = EmptyString \/ e = []).
Proof.
  induction pairs as [|[t e] pairs IH]; simpl; intros H; [discriminate|].
  unfold ArticleCreate_new in H.
  destruct (String.length t =? 0)%nat eqn:Et.
  - injection H as <-. split; [reflexivity|]. exists t, e.
    split; [left; reflexivity|]. left.
    destruct t; [reflexivity | discriminate].
  - destruct e as [|x e].
    + injection H as <-. split; [reflexivity|]. exists t, [].
      split; [left; reflexivity | right; reflexivity].
    + destruct (make_articles pairs) as [rest|err']; [discriminate|].
      injection H as <-. destruct (IH eq_refl) as (-> & t' & e' & Hin & Hor).
      split; [reflexivity|]. exists t', e'. split; [right; exact Hin | exact Hor].
Qed.

(** [ingest_csv], call by call. *)
Lemma ingest_csv_eq clean w csv_path log :
  ingest_csv clean w csv_path log
  = let l1 := (log ++ [IExists csv_path])%list in
    if negb (csv_exists w log csv_path) then (Raises CsvNotFound, l1)
    else
      let l2 := (l1 ++ [IReadCsv csv_path])%list in
      match read_csv w l1 csv_path with
      | Raise e => (Raises (Collaborator e), l2)
      | Ok df =>
          if negb (existsb (String.eqb "text") (df_columns df))
          then (Raises MissingTextColumn, l2)
          else
            match clean_cells clean (df_text df) with
            | Raises e => (Raises e, l2)
            | Returns texts =>
                match with_ingest_session w (icall ICount (count_articles w)) l2
                with
                | (Raises e, l3) => (Raises e, l3)
                | (Returns existing, l3) =>
                    if existing >? 0 then (Returns existing, l3)
                    else
                      let l4 := (l3 ++ [IEmbedBatch texts])%list in
                      match embed_batch_service w l3 texts with
                      | Raise e => (Raises (Collaborator e), l4)
                      | Ok embeddings =>
                          match make_articles (combine texts embeddings) with
                          | Raises e => (Raises e, l4)
                          | Returns articles =>
                              match with_ingest_session w
                                      (insert_batch w articles) l4 with
                              | (Raises e, l5) => (Raises e, l5)
                              | (Returns _, l5) =>
                                  (Returns (Z.of_nat (List.length articles)), l5)
                              end
                          end
                      end
                end
            end
      end.
Proof.
  unfold ingest_csv. unfold ibind at 1. unfold icall at 1. cbv zeta.
  destruct (csv_exists w log csv_path); [|reflexivity]. cbn [negb].
  unfold ibind at 1. unfold icall at 1.
  destruct (read_csv w _ csv_path) as [df|e]; [|reflexivity].
  destruct (negb (existsb (String.eqb "text") (df_columns df))); [reflexivity|].
  unfold ibind at 1.
  destruct (clean_cells clean (df_text df)) as [texts|e]; [|reflexivity].
  unfold ibind at 1.
  destruct (with_ingest_session w (icall ICount (count_articles w)) _)
    as [[existing|e] l3]; [|reflexivity].
  destruct (existing >? 0); [reflexivity|].
  unfold ibind at 1. unfold icall at 1.
  destruct (embed_batch_service w l3 texts) as [embeddings|e]; [|reflexivity].
  unfold ibind at 1.
  destruct (make_articles (combine texts embeddings)) as [articles|e];
    [|reflexivity].
  unfold ibind at 1.
  destruct (with_ingest_session w (insert_batch w articles) _)
    as [[ids|e] l5]; reflexivity.
Qed.

Lemma count_session_trace w log r log' :
  with_ingest_session w (icall ICount (count_articles w)) log = (r, log') ->
  (exists existing,
     r = Returns existing /\
     count_articles w log = Ok existing /\
     log' = (log ++ [ICount; ICommit; IClose])%list)
  \/ (exists e calls,
        r = Raises (Collaborator e) /\
        log' = (log ++ calls ++ [IRollback; IClose])%list /\
        existsb is_insert calls = false /\
        existsb is_embed_batch calls = false).
Proof.
  unfold with_ingest_session, ibind, icall, iret.
  destruct (count_articles w log) as [existing|e].
  - destruct (commit_session w _) as [[]|e]; intros [= <- <-].
    + left. exists existing. rewrite <- !app_assoc. auto.
    + right. exists e, [ICount; ICommit]. rewrite <- !app_assoc. auto.
  - intros [= <- <-]. right. exists e, [ICount]. rewrite <- !app_assoc. auto.
Qed.

Lemma clean_cells_error clean cells e :
  clean_cells clean cells = Raises e -> e = NotAString.
Proof.
  induction cells as [|[|s|] cells IH]; simpl; intros H.
  - discriminate.
  - apply IH. exact H.
  - destruct (clean_cells clean cells); [discriminate|].
    injection H as <-. apply IH. reflexivity.
  - injection H as <-. reflexivity.
Qed.

(** ** X22: nothing is ingested twice *)

(** X22. When the store answers the count with a positive number, [ingest_csv]
    calls neither the embedding service nor an insert; if it returns, it
    returns that number, after the existence check, the read, the count and
    the commit and close of its session. *)
Theorem ingest_csv_skips_when_already_ingested
    (clean : string -> string) (w : IngestWorld) (csv_path : string)
    (log : list IngestCall) (existing : Z)
    (r : outcome Z) (log' : list IngestCall) :
  ingest_csv clean w csv_path log = (r, log') ->
  count_articles w (log ++ [IExists csv_path; IReadCsv csv_path])%list
  = Ok existing ->
  0 < existing ->
  exists calls,
    log' = (log ++ calls)%list /\
    existsb is_embed_batch calls = false /\
    existsb is_insert calls = false /\
    forall n, r = Returns n -> n = existing /\ calls = ingest_prefix csv_path.
Proof.
  intros H Hcount Hpos. rewrite ingest_csv_eq in H. cbv zeta in H.
  destruct (negb (csv_exists w log csv_path)).
  { injection H as <- <-. eexists. repeat split; try reflexivity; discriminate. }
  destruct (read_csv w _ csv_path) as [df|e].
  2:{ injection H as <- <-. rewrite <- app_assoc. eexists.
      repeat split; try reflexivity; discriminate. }
  destruct (negb (existsb (String.eqb "text") (df_columns df))).
  { injection H as <- <-. rewrite <- app_assoc. eexists.
    repeat split; try reflexivity; discriminate. }
  destruct (clean_cells clean (df_text df)) as [texts|e].
  2:{ injection H as <- <-. rewrite <- app_assoc. eexists.
      repeat split; try reflexivity; discriminate. }
  destruct (with_ingest_session w (icall ICount (count_articles w)) _)
    as [[existing'|e] l3] eqn:E; apply count_session_trace in E.
  - destruct E as [(x & [= <-] & Hc & ->)|(e & calls & Hr & _)]; [|discriminate].
    rewrite <- app_assoc in Hc. simpl in Hc. rewrite Hcount in Hc.
    injection Hc as <-.
    destruct (existing >? 0) eqn:Egt;
      [|rewrite Z.gtb_ltb in Egt; apply Z.ltb_ge in Egt; lia].
    injection H as <- <-. rewrite <- !app_assoc. simpl.
    exists (ingest_prefix csv_path).
    split; [reflexivity|]. split; [reflexivity|]. split; [reflexivity|].
    intros n [= <-]. split; reflexivity.
  - destruct E as [(x & Hr & _)|(e0 & calls & [= ->] & -> & Hi & He)];
      [discriminate|].
    injection H as <- <-. rewrite <- !app_assoc. simpl. eexists.
    split; [reflexivity|]. simpl. rewrite !existsb_app, Hi, He. simpl.
    repeat split; discriminate.
Qed.

Lemma ingest_csv_skips_example :
  exists calls,
    ingest_prefix "news.csv" = ([] ++ calls)%list /\
    existsb is_embed_batch calls = false /\
    existsb is_insert calls = false /\
    forall n, Returns 7 = Returns n -> n = 7 /\ calls = ingest_prefix "news.csv".
Proof.
  apply (ingest_csv_skips_when_already_ingested (fun s => s)
           (ingest_world [CellStr "a"] 7 [[1%Q]]) "news.csv" [] 7).
  - vm_compute. reflexivity.
  - reflexivity.
  - lia.
Defined.

(** ** X23: what a fresh ingestion stores *)

(** X23. When [ingest_csv] returns [n], either the store held [n > 0]
    articles already and nothing was embedded or inserted, or one batch of
    texts was embedded and the articles built from the texts paired with the
    embeddings were inserted, one insert per article and in that order, in a
    single session that was flushed, committed and closed; [n] is then the
    smaller of the number of texts and the number of embeddings, and no
    inserted article has an empty text or an empty embedding. *)
Theorem ingest_csv_returns
    (clean : string -> string) (w : IngestWorld) (csv_path : string)
    (log : list IngestCall) (n : Z) (log' : list IngestCall) :
  ingest_csv clean w csv_path log = (Returns n, log') ->
  (0 < n /\ log' = (log ++ ingest_prefix csv_path)%list)
  \/ (exists texts embeddings articles,
        log' = (log ++ ingest_prefix csv_path
                    ++ IEmbedBatch texts :: map IInsert articles
                    ++ [IFlush; ICommit; IClose])%list /\
        map (fun a => (ArticleCreate.text a, ArticleCreate.embedding a)) articles
        = combine texts embeddings /\
        n = Z.of_nat (Nat.min (List.length texts) (List.length embeddings)) /\
        Forall (fun a => ArticleCreate.text a <> EmptyString
                         /\ ArticleCreate.embedding a <> []) articles).
Proof.
  intros H. rewrite ingest_csv_eq in H. cbv zeta in H.
  destruct (negb (csv_exists w log csv_path)); [discriminate|].
  destruct (read_csv w _ csv_path) as [df|e]; [|discriminate].
  destruct (negb (existsb (String.eqb "text") (df_columns df))); [discriminate|].
  destruct (clean_cells clean (df_text df)) as [texts|e]; [|discriminate].
  destruct (with_ingest_session w (icall ICount (count_articles w)) _)
    as [[existing|e] l3] eqn:E; [|discriminate].
  apply count_session_trace in E.
  destruct E as [(x & [= <-] & _ & ->)|(e & calls & Hr & _)]; [|discriminate].
  destruct (existing >? 0) eqn:Egt.
  - injection H as <- <-. left. split; [apply Z.gtb_lt; exact Egt|].
    rewrite <- !app_assoc. reflexivity.
  - destruct (embed_batch_service w _ texts) as [embeddings|e]; [|discriminate].
    destruct (make_articles (combine texts embeddings)) as [articles|e] eqn:Em;
      [|discriminate].
    destruct (with_ingest_session w (insert_batch w articles) _)
      as [[ids|e] l5] eqn:Es; [|discriminate].
    apply insert_session_trace in Es.
    destruct Es as [(ids' & _ & ->)|(e & calls & Hr & _)]; [|discriminate].
    injection H as <- <-. right. exists texts, embeddings, articles.
    apply make_articles_valid in Em. destruct Em as (Hlen & Hall & Hmap).
    split; [rewrite <- !app_assoc; reflexivity|].
    split; [exact Hmap|]. split; [|exact Hall].
    rewrite Hlen, length_combine. reflexivity.
Qed.

Lemma ingest_csv_returns_example :
  (0 < 2 /\
   [IExists "news.csv"; IReadCsv "news.csv"; ICount; ICommit; IClose;
    IEmbedBatch ["a"; "b"; "c"];
    IInsert (ArticleCreate.mk "a" [1%Q]); IInsert (ArticleCreate.mk "b" [2%Q]);
    IFlush; ICommit; IClose] = ([] ++ ingest_prefix "news.csv")%list)
  \/ (exists texts embeddings articles,
        [IExists "news.csv"; IReadCsv "news.csv"; ICount; ICommit; IClose;
         IEmbedBatch ["a"; "b"; "c"];
         IInsert (ArticleCreate.mk "a" [1%Q]);
         IInsert (ArticleCreate.mk "b" [2%Q]);
         IFlush; ICommit; IClose]
        = ([] ++ ingest_prefix "news.csv"
              ++ IEmbedBatch texts :: map IInsert articles
              ++ [IFlush; ICommit; IClose])%list /\
        map (fun a => (ArticleCreate.text a, ArticleCreate.embedding a)) articles
        = combine texts embeddings /\
        2 = Z.of_nat (Nat.min (List.length texts) (List.length embeddings)) /\
        Forall (fun a => ArticleCreate.text a <> EmptyString
                         /\ ArticleCreate.embedding a <> []) articles).
Proof.
  apply (ingest_csv_returns (fun s => s)
           (ingest_world [CellStr "a"; CellStr "b"; CellNaN; CellStr "c"] 0
              [[1%Q]; [2%Q]]) "news.csv" []).
  vm_compute. reflexivity.
Defined.

(** ** X24: a failed ingestion *)

(** X24. When [ingest_csv] raises: a missing file is reported after the
    existence check alone; a missing "text" column or a cell that is not a
    string is reported right after the read, before the store or the embedding
    service is called; an invalid article (empty text or empty embedding) is
    reported before any insert; and whenever an insert was made, the last two
    calls are the rollback and the close of its session. *)
Theorem ingest_csv_failure
    (clean : string -> string) (w : IngestWorld) (csv_path : string)
    (log : list IngestCall) (e : IngestError) (log' : list IngestCall) :
  ingest_csv clean w csv_path log = (Raises e, log') ->
  exists calls,
    log' = (log ++ calls)%list /\
    (e = CsvNotFound -> calls = [IExists csv_path]) /\
    (e = MissingTextColumn \/ e = NotAString ->
     calls = [IExists csv_path; IReadCsv csv_path]) /\
    (e = InvalidArticle -> existsb is_insert calls = false) /\
    (existsb is_insert calls = true ->
     exists earlier, calls = (earlier ++ [IRollback; IClose])%list).
Proof.
  intros H. rewrite ingest_csv_eq in H. cbv zeta in H.
  destruct (negb (csv_exists w log csv_path)).
  { injection H as <- <-. eexists. split; [reflexivity|].
    repeat split; try discriminate; try (intros [H|H]; discriminate). }
  destruct (read_csv w _ csv_path) as [df|e0].
  2:{ injection H as <- <-. rewrite <- app_assoc. eexists.
      split; [reflexivity|].
      repeat split; try discriminate; try (intros [H|H]; discriminate). }
  destruct (negb (existsb (String.eqb "text") (df_columns df))).
  { injection H as <- <-. rewrite <- app_assoc. eexists.
    split; [reflexivity|]. repeat split; discriminate. }
  destruct (clean_cells clean (df_text df)) as [texts|e0] eqn:Ec.
  2:{ apply clean_cells_error in Ec. subst e0.
      injection H as <- <-. rewrite <- app_assoc. eexists.
      split; [reflexivity|]. repeat split; discriminate. }
  destruct (with_ingest_session w (icall ICount (count_articles w)) _)
    as [[existing|e0] l3] eqn:E; apply count_session_trace in E.
  2:{ destruct E as [(x & Hr & _)|(e1 & calls & [= ->] & -> & Hi & He)];
        [discriminate|].
      injection H as <- <-. rewrite <- !app_assoc. simpl.
      exists (IExists csv_path :: IReadCsv csv_path
                :: calls ++ [IRollback; IClose])%list.
      split; [reflexivity|].
      repeat split; try discriminate; try (intros [H|H]; discriminate).
      intros _. exists (IExists csv_path :: IReadCsv csv_path :: calls).
      reflexivity. }
  destruct E as [(x & [= <-] & _ & ->)|(e1 & calls & Hr & _)]; [|discriminate].
  destruct (existing >? 0); [discriminate|].
  destruct (embed_batch_service w _ texts) as [embeddings|e0].
  2:{ injection H as <- <-. rewrite <- !app_assoc. simpl. eexists.
      split; [reflexivity|].
      repeat split; try discriminate; try (intros [H|H]; discriminate). }
  destruct (make_articles (combine texts embeddings)) as [articles|e0] eqn:Em.
  2:{ apply make_articles_error in Em. destruct Em as [-> _].
      injection H as <- <-. rewrite <- !app_assoc. simpl. eexists.
      split; [reflexivity|].
      repeat split; try discriminate; try (intros [H|H]; discriminate). }
  destruct (with_ingest_session w (insert_batch w articles) _)
    as [[ids|e0] l5] eqn:Es; [discriminate|].
  apply insert_session_trace in Es.
  destruct Es as [(ids' & Hr & _)|(e1 & calls & [= ->] & ->)]; [discriminate|].
  injection H as <- <-. rewrite <- !app_assoc. simpl.
  exists (IExists csv_path :: IReadCsv csv_path :: ICount :: ICommit :: IClose
            :: IEmbedBatch texts :: calls ++ [IRollback; IClose])%list.
  split; [reflexivity|].
  repeat split; try discriminate; try (intros [H|H]; discriminate).
  intros _.
  exists (IExists csv_path :: IReadCsv csv_path :: ICount :: ICommit :: IClose
            :: IEmbedBatch texts :: calls).
  reflexivity.
Qed.

Lemma ingest_csv_failure_example :
  exists calls,
    [IExists "news.csv"; IReadCsv "news.csv"; ICount; ICommit; IClose;
     IEmbedBatch ["a"; EmptyString]] = ([] ++ calls)%list /\
    (InvalidArticle = CsvNotFound -> calls = [IExists "news.csv"]) /\
    (InvalidArticle = MissingTextColumn \/ InvalidArticle = NotAString ->
     calls = [IExists "news.csv"; IReadCsv "news.csv"]) /\
    (InvalidArticle = InvalidArticle -> existsb is_insert calls = false) /\
    (existsb is_insert calls = true ->
     exists earlier, calls = (earlier ++ [IRollback; IClose])%list).
Proof.
  apply (ingest_csv_failure (fun s => s)
           (ingest_world [CellStr "a"; CellStr EmptyString] 0 [[1%Q]; [2%Q]])
           "news.csv" []).
  vm_compute. reflexivity.
Defined.
